(** * go-incr: the recompute heap and the stabilization pass

    A shallow embedding of the graph runtime of go-incr: the height-bucketed
    recompute heap, [Graph.recompute], [Graph.Stabilize] and the end-of-pass
    steps, the bind node's re-linking, and [DiffMapByKeys].

    Conventions of the embedding.
    - Go pointers to node structs are identifiers; the node structs live in a
      memory [Identifier -> Node].  Two handles are the same node iff they
      carry the same identifier.
    - [uint64] counters are integers reduced modulo [2^64]; [int] heights are
      integers (every height used as an index is bounded by the length of the
      bucket slice, so no [int] arithmetic below can overflow).
    - An index out of range is a Go runtime panic: [Panic].  The drain loop of
      [Stabilize] need not terminate; it runs on fuel and [OutOfFuel] records
      that the fuel did not suffice.
    - User callbacks (stabilize, cutoff, handlers) read and write a [World] of
      their own (node values, captured variables, the context argument); a
      callback that re-enters the graph API is outside this model.
    - Go leaves the iteration order of a map unspecified: every [range] over a
      map goes through [mapOrder], of which only a permutation law is known. *)

From Stdlib Require Import ZArith Lia.
From Stdlib Require String OrdersEx.
From stdpp Require Import base tactics option list sets gmap functions.

#[local] Open Scope Z_scope.

(** ** Outcomes of a run *)

Inductive run (A : Type) : Type :=
  | Ret (a : A)
  | Panic
  | OutOfFuel.
Arguments Ret {A} a.
Arguments Panic {A}.
Arguments OutOfFuel {A}.

#[export] Instance run_ret : MRet run := @Ret.
#[export] Instance run_bind : MBind run := fun A B k m =>
  match m with
  | Ret a => k a
  | Panic => Panic
  | OutOfFuel => OutOfFuel
  end.

(** ** Identifiers, sentinels, machine integers *)

Abbreviation Identifier := positive (only parsing).

(** Modelled from the spec: the constant [heightUnset] is declared outside the
    files at hand.  The spec makes heights integers [>= 0] with [heightUnset]
    the sentinel for "not scheduled", and the graph's own scope height is
    [heightUnset] with root nodes placed at [scopeHeight() + 1], the height of
    a node without parents, which is [0]. *)
Definition heightUnset : Z := -1.

Definition uint64 (x : Z) : Z := x mod 2 ^ 64.

(** Modelled from the spec: the three values of [Graph.status]. *)
Inductive Status : Set :=
  | StatusNotStabilizing
  | StatusStabilizing
  | StatusRunningUpdateHandlers.

#[export] Instance Status_eq_dec : EqDecision Status.
Proof. solve_decision. Defined.

(** Go's map iteration order. *)
Class MapIter := {
  mapOrder : gset Identifier -> list Identifier;
  mapOrder_perm : forall s, mapOrder s ≡ₚ elements s
}.

(** ** Nodes *)

Section Types.
Variables World UserError : Type.

Inductive error : Type :=
  | ErrAlreadyStabilizing
  | ErrUser (e : UserError).

(** node.go, [type Node struct]: the fields the runtime below reads or writes.
    The identifier is the node's key in the memory. *)
Record Node : Type := mkNode {
  parents : list Identifier;
  children : list Identifier;
  observers : gset Identifier;
  height : Z;
  heightInRecomputeHeap : Z;
  changedAt : Z;
  setAt : Z;
  boundAt : Z;
  recomputedAt : Z;
  onUpdateHandlers : list (World -> World);
  onErrorHandlers : list (error -> World -> World);
  stabilize : option (World -> World * option error);
  cutoff : option (World -> World * (bool * option error));
  always : bool;
  numRecomputes : Z;
  numChanges : Z
}.

Definition set_parents (v : list Identifier) (n : Node) : Node :=
  mkNode v (children n) (observers n) (height n) (heightInRecomputeHeap n)
    (changedAt n) (setAt n) (boundAt n) (recomputedAt n) (onUpdateHandlers n)
    (onErrorHandlers n) (stabilize n) (cutoff n) (always n) (numRecomputes n)
    (numChanges n).

Definition set_children (v : list Identifier) (n : Node) : Node :=
  mkNode (parents n) v (observers n) (height n) (heightInRecomputeHeap n)
    (changedAt n) (setAt n) (boundAt n) (recomputedAt n) (onUpdateHandlers n)
    (onErrorHandlers n) (stabilize n) (cutoff n) (always n) (numRecomputes n)
    (numChanges n).

Definition set_heightInRecomputeHeap (v : Z) (n : Node) : Node :=
  mkNode (parents n) (children n) (observers n) (height n) v
    (changedAt n) (setAt n) (boundAt n) (recomputedAt n) (onUpdateHandlers n)
    (onErrorHandlers n) (stabilize n) (cutoff n) (always n) (numRecomputes n)
    (numChanges n).

Definition set_changedAt (v : Z) (n : Node) : Node :=
  mkNode (parents n) (children n) (observers n) (height n) (heightInRecomputeHeap n)
    v (setAt n) (boundAt n) (recomputedAt n) (onUpdateHandlers n)
    (onErrorHandlers n) (stabilize n) (cutoff n) (always n) (numRecomputes n)
    (numChanges n).

Definition set_setAt (v : Z) (n : Node) : Node :=
  mkNode (parents n) (children n) (observers n) (height n) (heightInRecomputeHeap n)
    (changedAt n) v (boundAt n) (recomputedAt n) (onUpdateHandlers n)
    (onErrorHandlers n) (stabilize n) (cutoff n) (always n) (numRecomputes n)
    (numChanges n).

Definition set_boundAt (v : Z) (n : Node) : Node :=
  mkNode (parents n) (children n) (observers n) (height n) (heightInRecomputeHeap n)
    (changedAt n) (setAt n) v (recomputedAt n) (onUpdateHandlers n)
    (onErrorHandlers n) (stabilize n) (cutoff n) (always n) (numRecomputes n)
    (numChanges n).

Definition set_recomputedAt (v : Z) (n : Node) : Node :=
  mkNode (parents n) (children n) (observers n) (height n) (heightInRecomputeHeap n)
    (changedAt n) (setAt n) (boundAt n) v (onUpdateHandlers n)
    (onErrorHandlers n) (stabilize n) (cutoff n) (always n) (numRecomputes n)
    (numChanges n).

Definition set_numRecomputes (v : Z) (n : Node) : Node :=
  mkNode (parents n) (children n) (observers n) (height n) (heightInRecomputeHeap n)
    (changedAt n) (setAt n) (boundAt n) (recomputedAt n) (onUpdateHandlers n)
    (onErrorHandlers n) (stabilize n) (cutoff n) (always n) v
    (numChanges n).

Definition set_numChanges (v : Z) (n : Node) : Node :=
  mkNode (parents n) (children n) (observers n) (height n) (heightInRecomputeHeap n)
    (changedAt n) (setAt n) (boundAt n) (recomputedAt n) (onUpdateHandlers n)
    (onErrorHandlers n) (stabilize n) (cutoff n) (always n) (numRecomputes n)
    v.

End Types.

(** The memory of node structs. *)
Abbreviation Mem World UserError := (Identifier -> Node World UserError).

Arguments ErrAlreadyStabilizing {UserError}.
Arguments ErrUser {UserError} e.
Arguments mkNode {World UserError}.
Arguments parents {World UserError} n.
Arguments children {World UserError} n.
Arguments observers {World UserError} n.
Arguments height {World UserError} n.
Arguments heightInRecomputeHeap {World UserError} n.
Arguments changedAt {World UserError} n.
Arguments setAt {World UserError} n.
Arguments boundAt {World UserError} n.
Arguments recomputedAt {World UserError} n.
Arguments onUpdateHandlers {World UserError} n.
Arguments onErrorHandlers {World UserError} n.
Arguments stabilize {World UserError} n.
Arguments cutoff {World UserError} n.
Arguments always {World UserError} n.
Arguments numRecomputes {World UserError} n.
Arguments numChanges {World UserError} n.
Arguments set_parents {World UserError} v n.
Arguments set_children {World UserError} v n.
Arguments set_heightInRecomputeHeap {World UserError} v n.
Arguments set_changedAt {World UserError} v n.
Arguments set_setAt {World UserError} v n.
Arguments set_boundAt {World UserError} v n.
Arguments set_recomputedAt {World UserError} v n.
Arguments set_numRecomputes {World UserError} v n.
Arguments set_numChanges {World UserError} v n.

(** ** The recompute heap (recompute_heap.go) *)

Module recomputeHeap.

(** [type recomputeHeap struct].  A bucket [map[Identifier]INode] holds each
    node under its own identifier, so it is a finite set of identifiers; a
    [nil] bucket is [None].  The mutex is left out: runs are sequential. *)
Record t : Type := mk {
  minHeight : Z;
  maxHeight : Z;
  heights : list (option (gset Identifier));
  lookup : gset Identifier
}.

Definition set_minHeight (v : Z) (rh : t) : t :=
  mk v (maxHeight rh) (heights rh) (lookup rh).
Definition set_maxHeight (v : Z) (rh : t) : t :=
  mk (minHeight rh) v (heights rh) (lookup rh).
Definition set_heights (v : list (option (gset Identifier))) (rh : t) : t :=
  mk (minHeight rh) (maxHeight rh) v (lookup rh).
Definition set_lookup (v : gset Identifier) (rh : t) : t :=
  mk (minHeight rh) (maxHeight rh) (heights rh) v.

(** [len(b)] of a bucket; the length of a nil map is zero. *)
Definition mapLen (b : option (gset Identifier)) : nat :=
  match b with
  | Some s => size s
  | None => O
  end.

(** [hs[x]]: reading a slice out of range panics. *)
Definition index (hs : list (option (gset Identifier))) (x : Z)
  : run (option (gset Identifier)) :=
  if decide (0 <= x) then
    match hs !! Z.to_nat x with
    | Some b => Ret b
    | None => Panic
    end
  else Panic.

(** [delete(b, id)]; deleting from a nil map does nothing. *)
Definition mapDelete (id : Identifier) (b : option (gset Identifier))
  : option (gset Identifier) :=
  match b with
  | Some s => Some (s ∖ {[id]})
  | None => None
  end.

(** [newRecomputeHeap]; [make] with a negative length panics. *)
Definition newRecomputeHeap (maxHeight : Z) : run t :=
  if decide (0 <= maxHeight) then
    Ret (mk 0 0 (replicate (Z.to_nat maxHeight) None) ∅)
  else Panic.

Definition clear (rh : t) : t :=
  mk 0 0 (replicate (length (heights rh)) None) ∅.

Definition len (rh : t) : nat := size (lookup rh).

Definition has (s : Identifier) (rh : t) : bool := bool_decide (s ∈ lookup rh).

(** The loop [for x := from; x <= rh.maxHeight; x++] that stops at the first
    bucket with [len > 0]; [n] is the number of iterations left. *)
Fixpoint firstNonEmpty (hs : list (option (gset Identifier))) (x : Z) (n : nat)
  : run (option Z) :=
  match n with
  | O => Ret None
  | S n' =>
      b ← index hs x;
      if decide (0 < mapLen b)%nat then Ret (Some x)
      else firstNonEmpty hs (x + 1) n'
  end.

(** Iterations of [for x := rh.minHeight; x <= rh.maxHeight; x++]. *)
Definition span (rh : t) : nat := Z.to_nat (maxHeight rh - minHeight rh + 1).

(** [nextMinHeightUnsafe]: the named result [next] starts at zero. *)
Definition nextMinHeightUnsafe (rh : t) : run Z :=
  if decide (size (lookup rh) = O) then Ret 0
  else
    r ← firstNonEmpty (heights rh) (minHeight rh) (span rh);
    Ret (default 0 r).

Definition maybeUpdateMinMaxHeights (newHeight : Z) (rh : t) : t :=
  if decide (size (lookup rh) = O) then
    set_maxHeight newHeight (set_minHeight newHeight rh)
  else
    let rh1 :=
      if decide (minHeight rh > newHeight) then set_minHeight newHeight rh
      else rh in
    if decide (maxHeight rh1 < newHeight) then set_maxHeight newHeight rh1
    else rh1.

Definition maybeAddNewHeights (newHeight : Z) (rh : t) : t :=
  if decide (Z.of_nat (length (heights rh)) <= newHeight) then
    let required := (newHeight - Z.of_nat (length (heights rh))) + 1 in
    set_heights (heights rh ++ replicate (Z.to_nat required) None) rh
  else rh.

Section Ops.
Context {World UserError : Type} `{MapIter}.
Implicit Types m : Mem World UserError.

Definition addNodeUnsafe (s : Identifier) (m : Mem World UserError) (rh : t)
  : run (Mem World UserError * t) :=
  let height := height (m s) in
  let m1 := alter (set_heightInRecomputeHeap height) s m in
  let rh1 := maybeUpdateMinMaxHeights height rh in
  let rh2 := maybeAddNewHeights height rh1 in
  b ← index (heights rh2) height;
  let bucket := default ∅ b in
  Ret (m1, set_lookup ({[s]} ∪ lookup rh2)
             (set_heights (<[Z.to_nat height := Some ({[s]} ∪ bucket)]> (heights rh2)) rh2)).

Fixpoint addUnsafe (nodes : list Identifier) (m : Mem World UserError) (rh : t)
  : run (Mem World UserError * t) :=
  match nodes with
  | [] => Ret (m, rh)
  | s :: rest => '(m1, rh1) ← addNodeUnsafe s m rh; addUnsafe rest m1 rh1
  end.

Definition add (nodes : list Identifier) (m : Mem World UserError) (rh : t)
  : run (Mem World UserError * t) :=
  addUnsafe nodes m rh.

(** Modelled from the spec: [popMap] is declared outside the files at hand;
    [removeMin] "pops an arbitrary element of the smallest non-empty bucket".
    The element taken is the first one in the map's iteration order. *)
Definition popMap (s : gset Identifier) : option (Identifier * gset Identifier) :=
  match mapOrder s with
  | [] => None
  | k :: _ => Some (k, s ∖ {[k]})
  end.

(** The loop of [removeMinUnsafe], from height [x] with [n] iterations left.
    [popMap] of an empty map yields a nil node, whose dereference panics. *)
Fixpoint removeMinFrom (m : Mem World UserError) (rh : t) (x : Z) (n : nat)
  : run (option Identifier * Mem World UserError * t) :=
  match n with
  | O => Ret (None, m, rh)
  | S n' =>
      b ← index (heights rh) x;
      if decide (0 < mapLen b)%nat then
        match popMap (default ∅ b) with
        | None => Panic
        | Some (node, rest) =>
            let m1 := alter (set_heightInRecomputeHeap heightUnset) node m in
            let rh1 :=
              set_lookup (lookup rh ∖ {[node]})
                (set_heights (<[Z.to_nat x := Some rest]> (heights rh)) rh) in
            if decide (0 < size rest)%nat then
              Ret (Some node, m1, set_minHeight x rh1)
            else
              next ← nextMinHeightUnsafe rh1;
              Ret (Some node, m1, set_minHeight next rh1)
        end
      else removeMinFrom m rh (x + 1) n'
  end.

Definition removeMinUnsafe (m : Mem World UserError) (rh : t)
  : run (option Identifier * Mem World UserError * t) :=
  removeMinFrom m rh (minHeight rh) (span rh).

Definition removeMin (m : Mem World UserError) (rh : t)
  : run (option Identifier * Mem World UserError * t) :=
  removeMinUnsafe m rh.

(** [removeMinHeight]: the body of the [range] over the minimum bucket marks
    each node as out of the heap and deletes it from [lookup]. *)
Definition removeMinHeight (m : Mem World UserError) (rh : t)
  : run (list Identifier * Mem World UserError * t) :=
  b ← index (heights rh) (minHeight rh);
  if decide (0 < mapLen b)%nat then
    let nodes := mapOrder (default ∅ b) in
    let m1 := foldl (fun m0 id => alter (set_heightInRecomputeHeap heightUnset) id m0) m nodes in
    let lookup1 := foldl (fun l id => l ∖ {[id]}) (lookup rh) nodes in
    let rh1 :=
      set_lookup lookup1
        (set_heights (<[Z.to_nat (minHeight rh) := Some ∅]> (heights rh)) rh) in
    next ← nextMinHeightUnsafe rh1;
    Ret (nodes, m1, set_minHeight next rh1)
  else Ret ([], m, rh).

Definition removeItemUnsafe (item : Identifier) (m : Mem World UserError) (rh : t)
  : run (Mem World UserError * t) :=
  let height := heightInRecomputeHeap (m item) in
  let lookup1 := lookup rh ∖ {[item]} in
  b ← index (heights rh) height;
  let b1 := mapDelete item b in
  let rh1 :=
    set_lookup lookup1 (set_heights (<[Z.to_nat height := b1]> (heights rh)) rh) in
  let isLastAtHeight := bool_decide (mapLen b1 = O) in
  rh2 ← (if decide (height = minHeight rh1 ∧ isLastAtHeight = true) then
           next ← nextMinHeightUnsafe rh1; Ret (set_minHeight next rh1)
         else Ret rh1);
  Ret (alter (set_heightInRecomputeHeap heightUnset) item m, rh2).

Definition remove (s : Identifier) (m : Mem World UserError) (rh : t)
  : run (bool * Mem World UserError * t) :=
  if decide (s ∈ lookup rh) then
    '(m1, rh1) ← removeItemUnsafe s m rh; Ret (true, m1, rh1)
  else Ret (false, m, rh).

Fixpoint fixUnsafe (ids : list Identifier) (m : Mem World UserError) (rh : t)
  : run (Mem World UserError * t) :=
  match ids with
  | [] => Ret (m, rh)
  | id :: rest =>
      '(m2, rh2) ←
        (if decide (id ∈ lookup rh) then
           let h := heightInRecomputeHeap (m id) in
           b ← index (heights rh) h;
           let rh1 :=
             set_lookup (lookup rh ∖ {[id]})
               (set_heights (<[Z.to_nat h := mapDelete id b]> (heights rh)) rh) in
           addNodeUnsafe id (alter (set_heightInRecomputeHeap heightUnset) id m) rh1
         else Ret (m, rh));
      fixUnsafe rest m2 rh2
  end.

Definition fix_ (ids : list Identifier) (m : Mem World UserError) (rh : t)
  : run (Mem World UserError * t) :=
  fixUnsafe ids m rh.

(** The three failures [sanityCheck] reports. *)
Inductive sanityError : Type :=
  | MinHeightBlockEmpty
  | ItemAtOtherHeight (heightIndex itemHeight : Z)
  | ItemHeightDiffers (heightIndex itemHeight nodeHeight : Z)
  | ItemNotInLookup (heightIndex : Z).

Fixpoint firstError {A : Type} (f : A -> option sanityError) (l : list A)
  : option sanityError :=
  match l with
  | [] => None
  | x :: rest =>
      match f x with
      | Some e => Some e
      | None => firstError f rest
      end
  end.

Definition checkItem (m : Mem World UserError) (rh : t) (heightIndex : Z) (item : Identifier)
  : option sanityError :=
  if decide (heightInRecomputeHeap (m item) ≠ heightIndex) then
    Some (ItemAtOtherHeight heightIndex (heightInRecomputeHeap (m item)))
  else if decide (heightInRecomputeHeap (m item) ≠ height (m item)) then
    Some (ItemHeightDiffers heightIndex (heightInRecomputeHeap (m item)) (height (m item)))
  else if decide (item ∈ lookup rh) then None
  else Some (ItemNotInLookup heightIndex).

Definition checkBlock (m : Mem World UserError) (rh : t) (ib : nat * option (gset Identifier))
  : option sanityError :=
  match ib.2 with
  | None => None
  | Some s => firstError (checkItem m rh (Z.of_nat ib.1)) (mapOrder s)
  end.

(** [sanityCheck]; [None] is the nil error. *)
Definition sanityCheck (m : Mem World UserError) (rh : t) : run (option sanityError) :=
  minEmpty ←
    (if decide (0 < size (lookup rh))%nat then
       b ← index (heights rh) (minHeight rh); Ret (bool_decide (mapLen b = O))
     else Ret false);
  if minEmpty : bool then Ret (Some MinHeightBlockEmpty)
  else Ret (firstError (checkBlock m rh) (imap pair (heights rh))).

End Ops.

End recomputeHeap.

(** ** The graph (graph.go, stabilize.go) *)

Section GraphTypes.
Variables World UserError : Type.

(** [type Graph struct], the fields the stabilization pass reads or writes,
    together with what the graph's pointers reach: the memory of node structs
    [mem] and the callbacks' [world].  [stabilizationStarted] is wall-clock
    time and is left out. *)
Record Graph : Type := mkGraph {
  mem : Mem World UserError;
  world : World;
  recomputeHeap : recomputeHeap.t;
  setDuringStabilization : gset Identifier;
  handleAfterStabilization : gmap Identifier (list (World -> World));
  stabilizationNum : Z;
  status : Status;
  numNodesRecomputed : Z;
  numNodesChanged : Z;
  onStabilizationStart : list (World -> World);
  onStabilizationEnd : list (option (error UserError) -> World -> World)
}.

Definition set_mem (v : Mem World UserError) (g : Graph) : Graph :=
  mkGraph v (world g) (recomputeHeap g) (setDuringStabilization g)
    (handleAfterStabilization g) (stabilizationNum g) (status g)
    (numNodesRecomputed g) (numNodesChanged g) (onStabilizationStart g)
    (onStabilizationEnd g).

Definition set_world (v : World) (g : Graph) : Graph :=
  mkGraph (mem g) v (recomputeHeap g) (setDuringStabilization g)
    (handleAfterStabilization g) (stabilizationNum g) (status g)
    (numNodesRecomputed g) (numNodesChanged g) (onStabilizationStart g)
    (onStabilizationEnd g).

Definition set_recomputeHeap (v : recomputeHeap.t) (g : Graph) : Graph :=
  mkGraph (mem g) (world g) v (setDuringStabilization g)
    (handleAfterStabilization g) (stabilizationNum g) (status g)
    (numNodesRecomputed g) (numNodesChanged g) (onStabilizationStart g)
    (onStabilizationEnd g).

Definition set_setDuringStabilization (v : gset Identifier) (g : Graph) : Graph :=
  mkGraph (mem g) (world g) (recomputeHeap g) v
    (handleAfterStabilization g) (stabilizationNum g) (status g)
    (numNodesRecomputed g) (numNodesChanged g) (onStabilizationStart g)
    (onStabilizationEnd g).

Definition set_handleAfterStabilization
    (v : gmap Identifier (list (World -> World))) (g : Graph) : Graph :=
  mkGraph (mem g) (world g) (recomputeHeap g) (setDuringStabilization g)
    v (stabilizationNum g) (status g)
    (numNodesRecomputed g) (numNodesChanged g) (onStabilizationStart g)
    (onStabilizationEnd g).

Definition set_stabilizationNum (v : Z) (g : Graph) : Graph :=
  mkGraph (mem g) (world g) (recomputeHeap g) (setDuringStabilization g)
    (handleAfterStabilization g) v (status g)
    (numNodesRecomputed g) (numNodesChanged g) (onStabilizationStart g)
    (onStabilizationEnd g).

Definition set_status (v : Status) (g : Graph) : Graph :=
  mkGraph (mem g) (world g) (recomputeHeap g) (setDuringStabilization g)
    (handleAfterStabilization g) (stabilizationNum g) v
    (numNodesRecomputed g) (numNodesChanged g) (onStabilizationStart g)
    (onStabilizationEnd g).

Definition set_numNodesRecomputed (v : Z) (g : Graph) : Graph :=
  mkGraph (mem g) (world g) (recomputeHeap g) (setDuringStabilization g)
    (handleAfterStabilization g) (stabilizationNum g) (status g)
    v (numNodesChanged g) (onStabilizationStart g)
    (onStabilizationEnd g).

Definition set_numNodesChanged (v : Z) (g : Graph) : Graph :=
  mkGraph (mem g) (world g) (recomputeHeap g) (setDuringStabilization g)
    (handleAfterStabilization g) (stabilizationNum g) (status g)
    (numNodesRecomputed g) v (onStabilizationStart g)
    (onStabilizationEnd g).

(** [Node.isNecessary] and [Node.isStale] are declared outside the files at
    hand.  They are parameters of the model: reads of the node structs. *)
Class NodePredicates := {
  isNecessary : Mem World UserError -> Identifier -> bool;
  isStale : Mem World UserError -> Identifier -> bool
}.

End GraphTypes.

Arguments mkGraph {World UserError}.
Arguments mem {World UserError} g.
Arguments world {World UserError} g.
Arguments recomputeHeap {World UserError} g.
Arguments setDuringStabilization {World UserError} g.
Arguments handleAfterStabilization {World UserError} g.
Arguments stabilizationNum {World UserError} g.
Arguments status {World UserError} g.
Arguments numNodesRecomputed {World UserError} g.
Arguments numNodesChanged {World UserError} g.
Arguments onStabilizationStart {World UserError} g.
Arguments onStabilizationEnd {World UserError} g.
Arguments set_mem {World UserError} v g.
Arguments set_world {World UserError} v g.
Arguments set_recomputeHeap {World UserError} v g.
Arguments set_setDuringStabilization {World UserError} v g.
Arguments set_handleAfterStabilization {World UserError} v g.
Arguments set_stabilizationNum {World UserError} v g.
Arguments set_status {World UserError} v g.
Arguments set_numNodesRecomputed {World UserError} v g.
Arguments set_numNodesChanged {World UserError} v g.
Arguments isNecessary {World UserError NodePredicates} m n.
Arguments isStale {World UserError NodePredicates} m n.

Section GraphOps.
Context {World UserError : Type} `{MapIter} `{NodePredicates World UserError}.
#[local] Abbreviation Graph := (Graph World UserError).
#[local] Abbreviation error := (error UserError).

(** node.go, [maybeCutoff]. *)
Definition maybeCutoff (n : Node World UserError) (w : World)
  : World * (bool * option error) :=
  match cutoff n with
  | Some f => f w
  | None => (w, (false, None))
  end.

(** node.go, [maybeStabilize]. *)
Definition maybeStabilize (n : Node World UserError) (w : World)
  : World * option error :=
  match stabilize n with
  | Some f => f w
  | None => (w, None)
  end.

(** [graph.recomputeHeap.add(n)], on the graph's heap and memory. *)
Definition heapAdd (nodes : list Identifier) (g : Graph) : run Graph :=
  '(m1, rh1) ← recomputeHeap.add nodes (mem g) (recomputeHeap g);
  Ret (set_recomputeHeap rh1 (set_mem m1 g)).

(** [SetStale]. *)
Definition SetStale (gn : Identifier) (g : Graph) : run Graph :=
  let g1 := set_mem (alter (set_setAt (stabilizationNum g)) gn (mem g)) g in
  if decide (heightInRecomputeHeap (mem g1 gn) = heightUnset) then heapAdd [gn] g1
  else Ret g1.

(** [ensureNotStabilizing]; [None] is the nil error. *)
Definition ensureNotStabilizing (g : Graph) : option error :=
  if decide (status g ≠ StatusNotStabilizing) then Some ErrAlreadyStabilizing
  else None.

(** Calling a slice of handlers in order. *)
Definition runHandlers (hs : list (World -> World)) (w : World) : World :=
  foldl (fun w0 h => h w0) w hs.

(** [stabilizeStart]. *)
Definition stabilizeStart (g : Graph) : Graph :=
  let g1 := set_status StatusStabilizing g in
  set_world (runHandlers (onStabilizationStart g1) (world g1)) g1.

(** [stabilizeEndRunUpdateHandlers]: the groups are visited in the map's
    iteration order, each group's handlers in slice order. *)
Definition stabilizeEndRunUpdateHandlers (g : Graph) : Graph :=
  let g1 := set_status StatusRunningUpdateHandlers g in
  let groups :=
    omap (fun id => handleAfterStabilization g1 !! id)
         (mapOrder (dom (handleAfterStabilization g1))) in
  let w := foldl (fun w0 uhGroup => runHandlers uhGroup w0) (world g1) groups in
  set_handleAfterStabilization ∅ (set_world w g1).

(** The body of the loop of [stabilizeEndHandleSetDuringStabilization]: the
    error of [maybeStabilize] is dropped. *)
Definition handleSetDuringStabilization (n : Identifier) (g : Graph) : run Graph :=
  let '(w, _) := maybeStabilize (mem g n) (world g) in
  SetStale n (set_world w g).

Fixpoint handleAllSetDuringStabilization (ns : list Identifier) (g : Graph)
  : run Graph :=
  match ns with
  | [] => Ret g
  | n :: rest =>
      g1 ← handleSetDuringStabilization n g;
      handleAllSetDuringStabilization rest g1
  end.

(** [stabilizeEndHandleSetDuringStabilization]. *)
Definition stabilizeEndHandleSetDuringStabilization (g : Graph) : run Graph :=
  g1 ← handleAllSetDuringStabilization (mapOrder (setDuringStabilization g)) g;
  Ret (set_setDuringStabilization ∅ g1).

(** [stabilizeEnd]; the deferred function runs last. *)
Definition stabilizeEnd (err : option error) (g : Graph) : run Graph :=
  let g1 :=
    set_world (foldl (fun w0 handler => handler err w0) (world g)
                 (onStabilizationEnd g)) g in
  let g2 := stabilizeEndRunUpdateHandlers g1 in
  let g3 := set_stabilizationNum (uint64 (stabilizationNum g2 + 1)) g2 in
  g4 ← stabilizeEndHandleSetDuringStabilization g3;
  Ret (set_status StatusNotStabilizing g4).

(** Calling a node's error handlers with [err]. *)
Definition runErrorHandlers (hs : list (error -> World -> World)) (err : error)
    (w : World) : World :=
  foldl (fun w0 eh => eh err w0) w hs.

(** The two closing loops of [recompute]: each child (each observer) that is
    necessary, stale and not in the heap is added to it. *)
Fixpoint enqueue (cs : list Identifier) (g : Graph) : run Graph :=
  match cs with
  | [] => Ret g
  | c :: rest =>
      g1 ← (if isNecessary (mem g) c && isStale (mem g) c
               && bool_decide (heightInRecomputeHeap (mem g c) = heightUnset)
            then heapAdd [c] g else Ret g);
      enqueue rest g1
  end.

(** [recompute]. *)
Definition recompute (n : Identifier) (g : Graph) : run (Graph * option error) :=
  let g1 := set_numNodesRecomputed (uint64 (numNodesRecomputed g + 1)) g in
  let g2 :=
    set_mem (alter (fun nn => set_recomputedAt (stabilizationNum g1)
                      (set_numRecomputes (uint64 (numRecomputes nn + 1)) nn))
               n (mem g1)) g1 in
  let '(w3, (shouldCutoff, err)) := maybeCutoff (mem g2 n) (world g2) in
  let g3 := set_world w3 g2 in
  match err with
  | Some e =>
      Ret (set_world (runErrorHandlers (onErrorHandlers (mem g3 n)) e (world g3)) g3,
           Some e)
  | None =>
      if shouldCutoff then Ret (g3, None)
      else
        let g4 := set_numNodesChanged (uint64 (numNodesChanged g3 + 1)) g3 in
        let g5 :=
          set_mem (alter (fun nn => set_numChanges (uint64 (numChanges nn + 1)) nn)
                     n (mem g4)) g4 in
        let '(w6, err) := maybeStabilize (mem g5 n) (world g5) in
        let g6 := set_world w6 g5 in
        match err with
        | Some e =>
            Ret (set_world
                   (runErrorHandlers (onErrorHandlers (mem g6 n)) e (world g6)) g6,
                 Some e)
        | None =>
            let g7 :=
              set_mem (alter (set_changedAt (stabilizationNum g6)) n (mem g6)) g6 in
            let g8 :=
              if decide (0 < length (onUpdateHandlers (mem g7 n)))%nat then
                set_handleAfterStabilization
                  (<[n := default [] (handleAfterStabilization g7 !! n)
                            ++ onUpdateHandlers (mem g7 n)]>
                     (handleAfterStabilization g7)) g7
              else g7 in
            g9 ← enqueue (children (mem g8 n)) g8;
            g10 ← enqueue (mapOrder (observers (mem g9 n))) g9;
            Ret (g10, None)
        end
  end.

(** stabilize.go: the inner loop of [Stabilize] over one batch. *)
Fixpoint recomputeBatch (next : list Identifier) (g : Graph)
    (immediateRecompute : list Identifier)
  : run (Graph * option error * list Identifier) :=
  match next with
  | [] => Ret (g, None, immediateRecompute)
  | n :: rest =>
      '(g1, err) ← recompute n g;
      match err with
      | Some e => Ret (g1, Some e, immediateRecompute)
      | None =>
          recomputeBatch rest g1
            (if always (mem g1 n) then immediateRecompute ++ [n]
             else immediateRecompute)
      end
  end.

(** The drain loop [for len(graph.recomputeHeap.lookup) > 0] of [Stabilize]. *)
Fixpoint drain (fuel : nat) (g : Graph) (immediateRecompute : list Identifier)
  : run (Graph * option error * list Identifier) :=
  if decide (0 < size (recomputeHeap.lookup (recomputeHeap g)))%nat then
    match fuel with
    | O => OutOfFuel
    | S fuel' =>
        '(next, m1, rh1) ← recomputeHeap.removeMinHeight (mem g) (recomputeHeap g);
        '(g2, err, imm) ←
          recomputeBatch next (set_recomputeHeap rh1 (set_mem m1 g)) immediateRecompute;
        match err with
        | Some e => Ret (g2, Some e, imm)
        | None => drain fuel' g2 imm
        end
    end
  else Ret (g, None, immediateRecompute).

(** [Stabilize]: the guard returns before the deferred [stabilizeEnd] is
    registered. *)
Definition Stabilize (fuel : nat) (g : Graph) : run (Graph * option error) :=
  match ensureNotStabilizing g with
  | Some e => Ret (g, Some e)
  | None =>
      let g1 := stabilizeStart g in
      '(g2, err, immediateRecompute) ← drain fuel g1 [];
      g3 ← heapAdd immediateRecompute g2;
      g4 ← stabilizeEnd err g3;
      Ret (g4, err)
  end.

End GraphOps.

#[local] Set Warnings "-clear-no-such-hyp".

(** ** Linking nodes *)

Section Linking.
Context {World UserError : Type}.
Implicit Types (m : Mem World UserError).

(** Modelled from the spec: the node list type is declared outside the files
    at hand; section 4.A makes it an insertion-ordered set keyed by
    identifier, with push and remove-by-id. *)
Definition Push (id : Identifier) (l : list Identifier) : list Identifier :=
  if decide (id ∈ l) then l else l ++ [id].

Definition RemoveKey (id : Identifier) (l : list Identifier) : list Identifier :=
  filter (fun k => k ≠ id) l.

(** node.go: [addChildren], [addParents], [removeChild], [removeParent]. *)
Definition addChildren (c : Identifier) (n : Node World UserError) :=
  set_children (Push c (children n)) n.
Definition addParents (p : Identifier) (n : Node World UserError) :=
  set_parents (Push p (parents n)) n.
Definition removeChild (id : Identifier) (n : Node World UserError) :=
  set_children (RemoveKey id (children n)) n.
Definition removeParent (id : Identifier) (n : Node World UserError) :=
  set_parents (RemoveKey id (parents n)) n.

(** [Link(child, input)] is declared outside the files at hand.  graph.go
    links a child to a parent by the two calls between its [start_link] and
    [end_link] marks, [parent.addChildren(child)] and
    [child.addParents(parent)]; the spec's Link "adds parent-child edges". *)
Definition Link (child input : Identifier) m : Mem World UserError :=
  alter (addParents input) child (alter (addChildren child) input m).

(** graph.go, [unlink]; [Unlink(child, parent)] of bind.go is this function. *)
Definition Unlink (child parent : Identifier) m : Mem World UserError :=
  alter (removeChild child) parent (alter (removeParent parent) child m).

(** ** DiffMapByKeys (diff_map_by_keys.go) *)

(** The node structs in use, and the identifiers they carry. *)
Record Store : Type := mkStore {
  live : gset Identifier;
  structs : Mem World UserError
}.

(** node.go, [NewNode]: every field not listed there has Go's zero value.
    Modelled from the spec: [NewIdentifier] is declared outside the files at
    hand; an identifier is "process-unique" and "never reused", so the new one
    is an identifier no node in use carries. *)
Definition zeroNode : Node World UserError :=
  mkNode [] [] ∅ 0 0 0 0 0 0 [] [] None None false 0 0.

Definition NewNode (s : Store) : Identifier * Store :=
  let id := fresh (live s) in
  (id, mkStore ({[id]} ∪ live s) (<[id := zeroNode]> (structs s))).

Definition linkIn (child input : Identifier) (s : Store) : Store :=
  mkStore (live s) (Link child input (structs s)).

(** [DiffMapByKeys]: both calls to [Link] name [add], the node called
    [added] here; [removed] is [rem]. *)
Definition DiffMapByKeys (i : Identifier) (s : Store)
  : Identifier * Identifier * Store :=
  let '(added, s1) := NewNode s in
  let s2 := linkIn added i s1 in
  let '(removed, s3) := NewNode s2 in
  let s4 := linkIn added i s3 in
  (added, removed, s4).

(** [DiffMapByKeysAdded] and [DiffMapByKeysRemoved]: the one-result
    constructors link their node. *)
Definition DiffMapByKeysAdded (i : Identifier) (s : Store) : Identifier * Store :=
  let '(o, s1) := NewNode s in (o, linkIn o i s1).

Definition DiffMapByKeysRemoved (i : Identifier) (s : Store) : Identifier * Store :=
  let '(o, s1) := NewNode s in (o, linkIn o i s1).

(** Every identifier a node of the store refers to is in use. *)
Definition closedStore (s : Store) : Prop :=
  ∀ id k, id ∈ live s →
    (k ∈ children (structs s id) ∨ k ∈ parents (structs s id)) → k ∈ live s.

End Linking.

(** ** The bind node (bind.go) *)

Module bindIncr.

(** [UndiscoverNodes], [DiscoverNodes] and [RecomputeHeights] are declared
    outside the files at hand, and the spec names them without saying what
    they write.  A call to one of them is recorded, in order; its effect on
    the graph is not part of the model. *)
Inductive Call : Type :=
  | UndiscoverNodes (o oldIncr : Identifier)
  | RecomputeHeights (c : Identifier)
  | DiscoverNodes (o newIncr : Identifier).

Section Defs.
Context {World UserError : Type} `{MapIter}.

(** The graph of the bind node with the record of the calls made. *)
Record State : Type := mkState {
  graph : Graph World UserError;
  calls : list Call
}.

(** [type bindIncr struct]: the node [n], the bound node, and the bind
    function applied to the value of the input [a]; the function may build
    nodes, so it acts on the graph. *)
Record t : Type := mk {
  n : Identifier;
  bound : option Identifier;
  fn : Graph World UserError ->
       Graph World UserError * (option Identifier * option (error UserError))
}.

Definition set_bound (v : option Identifier) (b : t) : t := mk (n b) v (fn b).

Definition onMem (f : Mem World UserError -> Mem World UserError) (st : State) : State :=
  mkState (set_mem (f (mem (graph st))) (graph st)) (calls st).

Definition record (c : Call) (st : State) : State :=
  mkState (graph st) (calls st ++ [c]).

(** [unlinkOld]. *)
Definition unlinkOld (b : t) (oldIncr : Identifier) (st : State) : t * State :=
  let st1 :=
    foldl (fun s c => onMem (Unlink c oldIncr) s) st
          (children (mem (graph st) (n b))) in
  let st2 :=
    foldl (fun s o => record (UndiscoverNodes o oldIncr) s) st1
          (mapOrder (observers (mem (graph st1) (n b)))) in
  (set_bound None b, st2).

(** [linkNew]; [recomputeHeap.Add] of this revision is the heap's [add]. *)
Definition linkNew (b : t) (newIncr : Identifier) (st : State) : run (t * State) :=
  let st1 :=
    foldl (fun s c => record (RecomputeHeights c) (onMem (Link c newIncr) s)) st
          (children (mem (graph st) (n b))) in
  let st2 :=
    foldl (fun s o => record (DiscoverNodes o newIncr) s) st1
          (mapOrder (observers (mem (graph st1) (n b)))) in
  let st3 :=
    onMem (alter (set_changedAt (stabilizationNum (graph st2))) newIncr) st2 in
  g4 ← heapAdd [newIncr] (graph st3);
  Ret (set_bound (Some newIncr) b, mkState g4 (calls st3)).

(** [Bind]; the last component is the error, [None] for nil. *)
Definition Bind (b : t) (st : State) : run (t * State * option (error UserError)) :=
  let oldIncr := bound b in
  let '(g1, (newIncr, err)) := fn b (graph st) in
  let st1 := mkState g1 (calls st) in
  match err with
  | Some e => Ret (b, st1, Some e)
  | None =>
      '(b2, st2, bindChanged) ←
        match oldIncr, newIncr with
        | Some o, Some nw =>
            if decide (o ≠ nw) then
              let '(b', st') := unlinkOld b o st1 in
              '(b'', st'') ← linkNew b' nw st';
              Ret (b'', st'', true)
            else Ret (b, st1, false)
        | None, Some nw => '(b', st') ← linkNew b nw st1; Ret (b', st', true)
        | Some o, None => let '(b', st') := unlinkOld b o st1 in Ret (b', st', true)
        | None, None => Ret (b, st1, false)
        end;
      let st3 :=
        if bindChanged : bool then
          onMem (alter (set_boundAt (stabilizationNum (graph st2))) (n b2)) st2
        else st2 in
      Ret (b2, st3, None)
  end.

End Defs.

End bindIncr.

(** ** Reading the heap *)

(** The nodes queued at height [x]: the bucket [rh.heights[x]], empty when the
    bucket is nil or [x] is no index of the slice. *)
Definition bucket (rh : recomputeHeap.t) (x : Z) : gset Identifier :=
  if decide (0 <= x) then default ∅ (mjoin (recomputeHeap.heights rh !! Z.to_nat x))
  else ∅.

(** [rh.minHeight] is where a removal must leave it: zero on an empty heap, and
    otherwise the smallest height whose bucket is not empty. *)
Definition minHeightSettled (rh : recomputeHeap.t) : Prop :=
  (recomputeHeap.lookup rh = ∅ ∧ recomputeHeap.minHeight rh = 0) ∨
  (recomputeHeap.lookup rh ≠ ∅ ∧ bucket rh (recomputeHeap.minHeight rh) ≠ ∅ ∧
   ∀ x, x < recomputeHeap.minHeight rh → bucket rh x = ∅).

Section HeapInvariant.
Context {World UserError : Type}.

(** Consistency of the lookup table with the buckets: a node is in [lookup]
    iff it is in the bucket of its [heightInRecomputeHeap], it is in no other
    bucket, and the heights in use lie between [minHeight] and [maxHeight]. *)
Record heapOK (m : Mem World UserError) (rh : recomputeHeap.t) : Prop := mkHeapOK {
  ok_min : 0 <= recomputeHeap.minHeight rh;
  ok_lookup : ∀ id, id ∈ recomputeHeap.lookup rh →
                id ∈ bucket rh (heightInRecomputeHeap (m id));
  ok_bucket : ∀ x id, id ∈ bucket rh x →
                id ∈ recomputeHeap.lookup rh ∧ heightInRecomputeHeap (m id) = x;
  ok_range : ∀ id, id ∈ recomputeHeap.lookup rh →
               recomputeHeap.minHeight rh <= heightInRecomputeHeap (m id)
               <= recomputeHeap.maxHeight rh
}.

End HeapInvariant.

(** ** The end of the pass in the order of the spec's words *)

Section SpecOrder.
Context {World UserError : Type} `{MapIter} `{NodePredicates World UserError}.


End SpecOrder.

(** ** The invariant of a stabilization pass *)

Section PassInvariant.
Context {World UserError : Type}.
Implicit Types (m : Mem World UserError) (rh : recomputeHeap.t).

(** A node struct with its heap mark blanked: what [recomputeHeap.add] leaves
    untouched. *)
Definition unmarked (n : Node World UserError) : Node World UserError :=
  set_heightInRecomputeHeap 0 n.

(** The fields linking never writes. *)
Definition unlinked (a : Node World UserError) : Node World UserError :=
  set_parents [] (set_children [] a).

(** The memory after the loop of [unlinkOld] and after the loop of [linkNew]. *)
Definition unlinkAll (oldIncr : Identifier) (cs : list Identifier) m :=
  foldl (fun m0 c => Unlink c oldIncr m0) m cs.
Definition linkAll (newIncr : Identifier) (cs : list Identifier) m :=
  foldl (fun m0 c => Link c newIncr m0) m cs.

(** What a pass never writes in a node struct. *)
Definition shape (n : Node World UserError)
  : list Identifier * gset Identifier * Z * bool :=
  (children n, observers n, height n, always n).

(** A graph the scheduler can run on: the heap is consistent, queued nodes sit
    at their height, nodes out of the heap carry [heightUnset] as their mark,
    and heights grow strictly from a node to its children and observers. *)
Record graphOK m rh : Prop := mkGraphOK {
  gok_heap : heapOK m rh;
  gok_height : ∀ id, id ∈ recomputeHeap.lookup rh →
                 height (m id) = heightInRecomputeHeap (m id);
  gok_unset : ∀ id, id ∉ recomputeHeap.lookup rh →
                heightInRecomputeHeap (m id) = heightUnset;
  gok_children : ∀ p c, c ∈ children (m p) → height (m p) < height (m c);
  gok_observers : ∀ p o, o ∈ observers (m p) → height (m p) < height (m o)
}.

(** The state of a pass that started from memory [m0]: no node above height
    [mh], and no node of [todo] (the rest of the batch at height [mh]), was
    recomputed yet; no node was recomputed twice; every queued node is above
    [mh]. *)
Record passInv m0 m rh (mh : Z) (todo : list Identifier) : Prop := mkPassInv {
  pi_ok : graphOK m rh;
  pi_shape : ∀ id, shape (m id) = shape (m0 id);
  pi_fresh : ∀ id, mh < height (m0 id) ∨ id ∈ todo →
               numRecomputes (m id) = numRecomputes (m0 id);
  pi_once : ∀ id, numRecomputes (m id) = numRecomputes (m0 id) ∨
                  numRecomputes (m id) = uint64 (numRecomputes (m0 id) + 1);
  pi_queued : ∀ id, id ∈ recomputeHeap.lookup rh → mh < height (m0 id);
  pi_todo : ∀ id, id ∈ todo → height (m0 id) = mh;
  pi_nodup : NoDup todo;
  pi_level : -1 <= mh
}.

(** Every always-node recomputed so far is remembered for the re-add. *)
Definition remembered m0 m (immediateRecompute : list Identifier) : Prop :=
  ∀ id, always (m0 id) = true →
        numRecomputes (m id) ≠ numRecomputes (m0 id) → id ∈ immediateRecompute.

(** A write to node [n] that keeps its shape and its heap mark. *)
Definition quiet (f : Node World UserError → Node World UserError) : Prop :=
  ∀ nn, shape (f nn) = shape nn ∧
        heightInRecomputeHeap (f nn) = heightInRecomputeHeap nn.

End PassInvariant.

(** ** Example data *)

(** One admissible iteration order: the order of [elements]. *)
Definition elementsOrder : MapIter :=
  {| mapOrder := elements; mapOrder_perm := fun s => reflexivity (elements s) |}.

Section ExampleHeap.
#[local] Existing Instance elementsOrder.

(** A node that was never linked, scheduled or computed. *)
Definition blankNode : Node unit unit :=
  mkNode [] [] ∅ heightUnset heightUnset 0 0 0 0 [] [] None None false 0 0.

(** A heap of capacity four holding the single node [1] at height [3]. *)
Definition memOne : Mem unit unit :=
  <[1%positive := mkNode [] [] ∅ 3 3 0 0 0 0 [] [] None None false 0 0]> (fun _ => blankNode).

Definition heapOne : recomputeHeap.t :=
  recomputeHeap.mk 3 3 [None; None; None; Some {[1%positive]}] {[1%positive]}.



End ExampleHeap.

(** An input node [1] alone in the store. *)
Definition storeOne : @Store unit unit :=
  mkStore {[1%positive]} (<[1%positive := zeroNode]> (fun _ => zeroNode)).

(** ** An example graph *)

(** Modelled from the spec: staleness, invariant 5 of the data model: a node
    is stale iff it was never computed, is [always], was set or re-bound
    after its last compute, or a parent's [changedAt] exceeds its
    [recomputedAt]. *)
Definition staleBySpec {World UserError : Type} (m : Mem World UserError)
    (n : Identifier) : bool :=
  bool_decide (recomputedAt (m n) = 0) || always (m n)
  || bool_decide (setAt (m n) > recomputedAt (m n))
  || bool_decide (boundAt (m n) > recomputedAt (m n))
  || existsb (fun p => bool_decide (changedAt (m p) > recomputedAt (m n)))
       (parents (m n)).

(** In the example graph every node is observed. *)
Definition examplePredicates : NodePredicates (list nat) nat :=
  {| isNecessary := fun _ _ => true; isStale := staleBySpec |}.

Section ExampleGraph.
#[local] Existing Instance elementsOrder.
#[local] Existing Instance examplePredicates.

(** The world of the example is the log of the callbacks that ran, newest
    first.  Node [1] is a variable read by the cutoff node [2] and by the
    always-node [4]; node [3] reads [2] and its stabilize callback fails. *)
Definition unlinkedNode : Node (list nat) nat :=
  mkNode [] [] ∅ heightUnset heightUnset 0 0 0 0 [] [] None None false 0 0.

Definition varNode : Node (list nat) nat :=
  mkNode [] [2%positive; 4%positive] ∅ 0 heightUnset 0 0 0 0 [] []
    (Some (fun w => (1%nat :: w, None))) None false 0 0.

Definition cutoffNode : Node (list nat) nat :=
  mkNode [1%positive] [3%positive] ∅ 1 heightUnset 0 0 0 0 [] []
    (Some (fun w => (2%nat :: w, None)))
    (Some (fun w => (20%nat :: w, (true, None)))) false 0 0.

Definition failingNode : Node (list nat) nat :=
  mkNode [2%positive] [] ∅ 2 heightUnset 0 0 0 0
    [fun w => 31%nat :: w] [fun _ w => 30%nat :: w]
    (Some (fun w => (3%nat :: w, Some (ErrUser 7%nat)))) None false 0 0.

Definition alwaysNode : Node (list nat) nat :=
  mkNode [1%positive] [] ∅ 1 heightUnset 0 0 0 0
    [fun w => 41%nat :: w] []
    (Some (fun w => (4%nat :: w, None))) None true 0 0.

Definition exampleMem : Mem (list nat) nat :=
  <[1%positive := varNode]> (<[2%positive := cutoffNode]>
    (<[3%positive := failingNode]> (<[4%positive := alwaysNode]> (fun _ => unlinkedNode)))).

(** Nothing queued, first stabilization not yet run. *)
Definition graphBare : Graph (list nat) nat :=
  mkGraph exampleMem [] (recomputeHeap.mk 0 0 [None; None; None; None] ∅)
    ∅ ∅ 1 StatusNotStabilizing 0 0 [] [].

(** Nodes [1], [2] and [4] queued. *)
Definition graphQueued : Graph (list nat) nat :=
  match heapAdd [1%positive; 2%positive; 4%positive] graphBare with
  | Ret g => g
  | _ => graphBare
  end.

(** [graphQueued] after one call to [Stabilize]. *)
Definition graphStabilized : Graph (list nat) nat :=
  match Stabilize 5 graphQueued with
  | Ret (g, _) => g
  | _ => graphQueued
  end.

(** A pass in flight. *)
Definition graphBusy : Graph (list nat) nat := set_status StatusStabilizing graphQueued.


(** A bind node [2] bound to node [1], read by [3] and observed by [9], whose
    bind function now answers node [4]. *)
Definition bindExample : @bindIncr.t (list nat) nat :=
  bindIncr.mk 2%positive (Some 1%positive) (fun g => (g, (Some 4%positive, None))).

Definition bindState : @bindIncr.State (list nat) nat :=
  bindIncr.mkState
    (set_mem (<[2%positive := mkNode [1%positive] [3%positive] {[9%positive]} 1
                                heightUnset 0 0 0 0 [] [] None None false 0 0]> exampleMem)
       graphBare)
    [].

End ExampleGraph.

(** ** What a pass owes the queue *)

Section PassService.
Context {World UserError : Type}.

(** The nodes queued when the pass began, [queued0], have each been taken
    care of: still queued, in the batch at hand, or recomputed once at
    stabilization number [num]. *)
Definition served (m0 : Mem World UserError) (queued0 : gset Identifier)
    (m : Mem World UserError) (rh : recomputeHeap.t) (todo : list Identifier)
    (num : Z) : Prop :=
  ∀ id, id ∈ queued0 →
    id ∈ recomputeHeap.lookup rh ∨ id ∈ todo ∨
    (recomputedAt (m id) = num ∧
     numRecomputes (m id) = uint64 (numRecomputes (m0 id) + 1)).

End PassService.

(** ** Staleness, ordering and pseudo-height of a node (node.go) *)

Section NodeFunctions.
Context {World UserError : Type}.
Implicit Types (m : Mem World UserError).

(** node.go, [ShouldRecompute]; the loop over the parents returns at the
    first parent that changed or was bound after the node's last recompute. *)
Definition ShouldRecompute m (n : Identifier) : bool :=
  if decide (recomputedAt (m n) = 0) then true
  else if always (m n) then true
  else
    match stabilize (m n) with
    | None => false
    | Some _ =>
        if decide (setAt (m n) > recomputedAt (m n)) then true
        else if decide (boundAt (m n) > recomputedAt (m n)) then true
        else if decide (changedAt (m n) > recomputedAt (m n)) then true
        else
          existsb (fun p => bool_decide (changedAt (m p) > recomputedAt (m n))
                            || bool_decide (boundAt (m p) > recomputedAt (m n)))
                  (parents (m n))
    end.

(** node.go, [nodeSorter].  [Identifier.String] is declared outside the files
    at hand: the string of an identifier is the parameter [idString]; Go
    compares strings byte by byte, as [String.compare] does. *)
Definition nodeSorter (idString : Identifier -> String.string) m (a b : Identifier) : Z :=
  if decide (height (m a) = height (m b)) then
    let aID := idString a in
    let bID := idString b in
    if decide (aID = bID) then 0
    else if decide (String.compare aID bID = Gt) then -1
    else 1
  else if decide (height (m a) > height (m b)) then -1
  else 1.

(** node.go, [computePseudoHeight]: the recursion follows the parents and
    need not end on a cyclic graph, so it runs on fuel. *)
Fixpoint computePseudoHeight (fuel : nat) m (n : Identifier) : run Z :=
  match fuel with
  | O => OutOfFuel
  | S fuel' =>
      maxParentHeight ←
        (fix each (ps : list Identifier) (maxParentHeight : Z) : run Z :=
           match ps with
           | [] => Ret maxParentHeight
           | p :: rest =>
               parentHeight ← computePseudoHeight fuel' m p;
               each rest (if decide (parentHeight > maxParentHeight) then parentHeight
                          else maxParentHeight)
           end) (parents (m n)) 0;
      if decide (height (m n) > maxParentHeight) then Ret (height (m n))
      else Ret (maxParentHeight + 1)
  end.

(** The loop of [computePseudoHeight] over the parents, by name. *)
Fixpoint maxPseudoHeight (fuel : nat) m (ps : list Identifier) (maxParentHeight : Z)
  : run Z :=
  match ps with
  | [] => Ret maxParentHeight
  | p :: rest =>
      parentHeight ← computePseudoHeight fuel m p;
      maxPseudoHeight fuel m rest
        (if decide (parentHeight > maxParentHeight) then parentHeight else maxParentHeight)
  end.

End NodeFunctions.

(** ** The key diffs of two maps (diff_map_by_keys.go) *)

(** Go's iteration order over a map from [K] to [V]. *)
Class RangeOrder (K V : Type) `{Countable K} := {
  rangeOrder : gmap K V -> list (K * V);
  rangeOrder_perm : forall m, rangeOrder m ≡ₚ map_to_list m
}.

Section DiffMaps.
Context {K V : Type} `{Countable K} `{!RangeOrder K V}.

(** A Go map value is nil ([None]) or a map; [m[k]] on a nil map finds
    nothing and [range] over it does not iterate. *)
Definition mapIndex (m : option (gmap K V)) (k : K) : option V := mm ← m; mm !! k.

Definition rangeOf (m : option (gmap K V)) : list (K * V) :=
  match m with
  | Some mm => rangeOrder mm
  | None => []
  end.

(** [diffMapByKeysAdded]. *)
Definition diffMapByKeysAdded (m0 m1 : option (gmap K V)) : option (gmap K V) :=
  match m0 with
  | Some mm0 =>
      Some (foldl (fun add kv =>
                     match mm0 !! kv.1 with
                     | Some _ => add
                     | None => <[kv.1 := kv.2]> add
                     end) ∅ (rangeOf m1))
  | None => Some (foldl (fun add kv => <[kv.1 := kv.2]> add) ∅ (rangeOf m1))
  end.

(** [diffMapByKeysRemoved]. *)
Definition diffMapByKeysRemoved (m0 m1 : option (gmap K V)) : option (gmap K V) :=
  match m1 with
  | Some mm1 =>
      Some (foldl (fun removed kv =>
                     match mm1 !! kv.1 with
                     | Some _ => removed
                     | None => <[kv.1 := kv.2]> removed
                     end) ∅ (rangeOf m0))
  | None =>
      match m0 with
      | Some mm0 => Some (foldl (fun removed kv => <[kv.1 := kv.2]> removed) ∅ (rangeOrder mm0))
      | None => Some ∅
      end
  end.

End DiffMaps.

(** [diffMapByKeysAddedIncr.Stabilize] and [diffMapByKeysRemovedIncr.Stabilize]:
    the node's value [val] is replaced by the diff of [val] itself against the
    value of the input; the result is the new [val]. *)
Module diffMapByKeysAddedIncr.
Definition Stabilize {K V : Type} `{Countable K} `{!RangeOrder K V}
    (val input : option (gmap K V)) : option (gmap K V) :=
  diffMapByKeysAdded val input.
End diffMapByKeysAddedIncr.

Module diffMapByKeysRemovedIncr.
Definition Stabilize {K V : Type} `{Countable K} `{!RangeOrder K V}
    (val input : option (gmap K V)) : option (gmap K V) :=
  diffMapByKeysRemoved val input.
End diffMapByKeysRemovedIncr.

(** ** The cutoff node (cutoff.go) *)

Module cutoffIncr.

Section Defs.
Context {A UserError : Type}.

(** [type cutoffIncr struct]: the node's own [value] and the cutoff function
    [fn]; [latest] is what [c.i.Value()] answers, the present value of the
    input node. *)
Record t : Type := mk {
  value : A;
  latest : A;
  fn : A -> A -> bool
}.

(** [Stabilize]. *)
Definition Stabilize (c : t) : t * option (error UserError) :=
  (mk (latest c) (latest c) (fn c), None).

(** [Cutoff]. *)
Definition Cutoff (c : t) : bool := fn c (value c) (latest c).

End Defs.

End cutoffIncr.

(** ** Further example data *)

(** One admissible order of [range] over a map: the order of [map_to_list]. *)
Definition toListOrder (K V : Type) `{Countable K} : RangeOrder K V :=
  {| rangeOrder := map_to_list; rangeOrder_perm := fun m => reflexivity (map_to_list m) |}.

Section MoreExamples.
#[local] Existing Instance elementsOrder.
#[local] Existing Instance examplePredicates.

(** [graphBare] with a cutoff callback at node [2] that fails. *)
Definition graphCutoffFails : Graph (list nat) nat :=
  set_mem (<[2%positive := mkNode [1%positive] [3%positive] ∅ 1 heightUnset 0 0 0 0
                             [] [fun _ w => 22%nat :: w]
                             (Some (fun w => (2%nat :: w, None)))
                             (Some (fun w => (20%nat :: w, (false, Some (ErrUser 9%nat)))))
                             false 0 0]> exampleMem)
    graphBare.

(** In [exampleMem] the parents of a node sit at a lower height. *)
Definition exampleRank (id : Identifier) : nat := Z.to_nat (height (exampleMem id) + 1).

(** Bind nodes on [bindState]: one not bound yet whose function answers node
    [4], one bound to [1] whose function answers nil, and one bound to [1]
    whose function answers [1] again. *)
Definition bindFresh : @bindIncr.t (list nat) nat :=
  bindIncr.mk 2%positive None (fun g => (g, (Some 4%positive, None))).

Definition bindToNil : @bindIncr.t (list nat) nat :=
  bindIncr.mk 2%positive (Some 1%positive) (fun g => (g, (None, None))).

Definition bindSame : @bindIncr.t (list nat) nat :=
  bindIncr.mk 2%positive (Some 1%positive) (fun g => (g, (Some 1%positive, None))).

End MoreExamples.

(** A graph whose world is the struct of the cutoff node [1]: the node holds
    [5], its input has moved to [7], and the cutoff function calls a move of
    at most three insignificant. *)
Definition cutoffPredicates : NodePredicates (@cutoffIncr.t nat) nat :=
  {| isNecessary := fun _ _ => true; isStale := staleBySpec |}.

Definition graphCutoff : Graph (@cutoffIncr.t nat) nat :=
  mkGraph
    (<[1%positive := mkNode [] [] ∅ 1 heightUnset 0 0 0 0 [] []
                       (Some cutoffIncr.Stabilize)
                       (Some (fun c => (c, (cutoffIncr.Cutoff c, None))))
                       false 0 0]>
       (fun _ => mkNode [] [] ∅ heightUnset heightUnset 0 0 0 0 [] [] None None false 0 0))
    (cutoffIncr.mk 5%nat 7%nat (fun value latest => Nat.leb latest (value + 3)))
    (recomputeHeap.mk 0 0 [None; None] ∅)
    ∅ ∅ 1 StatusNotStabilizing 0 0 [] [].

(** ** Facts about the heap *)

Lemma run_bind_ret {A B} (m : run A) (k : A → run B) b :
  m ≫= k = Ret b → ∃ a, m = Ret a ∧ k a = Ret b.
Proof. destruct m; simpl; intros; try discriminate; eauto. Qed.

Lemma index_ret hs x b :
  recomputeHeap.index hs x = Ret b ↔ 0 <= x ∧ hs !! Z.to_nat x = Some b.
Proof.
  unfold recomputeHeap.index. case_decide.
  - destruct (hs !! Z.to_nat x) eqn:E; split; intros; destruct_and?; simplify_eq; auto.
  - split; [discriminate | lia].
Qed.

Lemma bucket_of_index rh x b :
  recomputeHeap.index (recomputeHeap.heights rh) x = Ret b → bucket rh x = default ∅ b.
Proof.
  intros [Hx Hb]%index_ret. unfold bucket. rewrite decide_True by done. by rewrite Hb.
Qed.

Lemma index_of_bucket rh x :
  bucket rh x ≠ ∅ →
  ∃ b, recomputeHeap.index (recomputeHeap.heights rh) x = Ret b ∧ default ∅ b = bucket rh x.
Proof.
  unfold bucket. case_decide; [|done].
  destruct (recomputeHeap.heights rh !! Z.to_nat x) as [b|] eqn:E; [|done].
  intros _. exists b. split; [by apply index_ret|done].
Qed.

Lemma mapLen_pos b : (0 < recomputeHeap.mapLen b)%nat ↔ default ∅ b ≠ ∅.
Proof.
  destruct b as [s|]; simpl.
  - split.
    + intros Hs ->. rewrite size_empty in Hs. lia.
    + intros Hs. destruct (decide (size s = O)) as [Hz|]; [|lia].
      apply size_empty_inv, leibniz_equiv in Hz. done.
  - split; [lia|done].
Qed.

Lemma size_zero_empty (s : gset Identifier) : size s = O ↔ s = ∅.
Proof. rewrite size_empty_iff. by unfold_leibniz. Qed.

(** The scan finds the first non-empty bucket when there is one within reach. *)
Lemma firstNonEmpty_found rh n x y :
  0 <= x → x <= y → y < x + Z.of_nat n → bucket rh y ≠ ∅ →
  ∃ h, recomputeHeap.firstNonEmpty (recomputeHeap.heights rh) x n = Ret (Some h) ∧
       x <= h <= y ∧ bucket rh h ≠ ∅ ∧ ∀ z, x <= z < h → bucket rh z = ∅.
Proof.
  revert x. induction n as [|n IH]; intros x Hx Hxy Hyn Hy; [lia|].
  simpl. destruct (decide (bucket rh x = ∅)) as [Hex|Hnx].
  - assert (x ≠ y) by (intros ->; done).
    assert (∃ b, recomputeHeap.index (recomputeHeap.heights rh) x = Ret b) as [b Hb].
    { destruct (index_of_bucket rh y Hy) as (by_ & [_ Hby]%index_ret & _).
      apply lookup_lt_Some in Hby.
      destruct (lookup_lt_is_Some_2 (recomputeHeap.heights rh) (Z.to_nat x)) as [b Hb]; [lia|].
      exists b. by apply index_ret. }
    rewrite Hb. simpl.
    rewrite decide_False.
    2:{ rewrite mapLen_pos. rewrite <-(bucket_of_index _ _ _ Hb). auto. }
    destruct (IH (x + 1) ltac:(lia) ltac:(lia) ltac:(lia) Hy)
      as (h & Hh & Hr & Hne & Hbelow).
    exists h. split_and!; try done; try lia.
    intros z Hz. destruct (decide (z = x)) as [->|]; [done|]. apply Hbelow. lia.
  - destruct (index_of_bucket rh x Hnx) as (b & Hb & Hbb).
    rewrite Hb. simpl. rewrite decide_True by (rewrite mapLen_pos, Hbb; done).
    exists x. split_and!; try done; lia.
Qed.

Section HeapFacts.
Context {World UserError : Type} `{MapIter}.
Implicit Types (m : Mem World UserError) (rh : recomputeHeap.t).

Lemma mapOrder_elem (s : gset Identifier) id : id ∈ mapOrder s ↔ id ∈ s.
Proof. rewrite (mapOrder_perm s). apply elem_of_elements. Qed.

Lemma mapOrder_NoDup (s : gset Identifier) : NoDup (mapOrder s).
Proof. rewrite (mapOrder_perm s). apply NoDup_elements. Qed.

Lemma mapOrder_nil (s : gset Identifier) : mapOrder s = [] ↔ s = ∅.
Proof.
  split.
  - intros Hnil. apply set_eq. intros id. rewrite <-mapOrder_elem, Hnil. set_solver.
  - intros ->. apply Permutation_nil_r.
    rewrite <-(elements_empty (C := gset Identifier)). apply mapOrder_perm.
Qed.

Lemma foldl_delete_lookup (l : list Identifier) (s : gset Identifier) :
  foldl (fun acc id => acc ∖ {[id]}) s l = s ∖ list_to_set l.
Proof.
  revert s. induction l as [|a l IH]; intros s; simpl; [set_solver|].
  rewrite IH. set_solver.
Qed.

Lemma list_to_set_mapOrder (s : gset Identifier) : list_to_set (mapOrder s) = s.
Proof. apply set_eq. intros id. rewrite elem_of_list_to_set. apply mapOrder_elem. Qed.

Lemma bucket_set_minHeight v rh x : bucket (recomputeHeap.set_minHeight v rh) x = bucket rh x.
Proof. done. Qed.

(** Reading a bucket after the bucket at [i] was overwritten. *)
Lemma bucket_insert rh i b l x :
  0 <= i → (Z.to_nat i < length (recomputeHeap.heights rh))%nat →
  bucket (recomputeHeap.set_lookup l
            (recomputeHeap.set_heights (<[Z.to_nat i := b]> (recomputeHeap.heights rh)) rh)) x
  = if decide (x = i) then default ∅ b else bucket rh x.
Proof.
  intros Hi Hlen. unfold bucket. simpl. case_decide as Hx.
  - case_decide as Hxi.
    + subst. by rewrite list_lookup_insert_eq.
    + rewrite list_lookup_insert_ne by lia. done.
  - rewrite decide_False by lia. done.
Qed.

(** After the bucket at [minHeight] has been emptied and its nodes taken out
    of [lookup], [nextMinHeightUnsafe] settles [minHeight]. *)
Lemma nextMinHeight_after_clearing m rh rh1 :
  heapOK m rh →
  recomputeHeap.lookup rh1 = recomputeHeap.lookup rh ∖ bucket rh (recomputeHeap.minHeight rh) →
  (∀ x, bucket rh1 x = if decide (x = recomputeHeap.minHeight rh) then ∅ else bucket rh x) →
  recomputeHeap.minHeight rh1 = recomputeHeap.minHeight rh →
  recomputeHeap.maxHeight rh1 = recomputeHeap.maxHeight rh →
  ∃ h, recomputeHeap.nextMinHeightUnsafe rh1 = Ret h ∧
       minHeightSettled (recomputeHeap.set_minHeight h rh1).
Proof.
  intros [Hmin Hl Hb Hr] Hlookup Hbucket Hmin1 Hmax1.
  unfold recomputeHeap.nextMinHeightUnsafe. case_decide as Hsz.
  - exists 0. split; [done|]. left. split; [|done]. simpl. by apply size_zero_empty.
  - assert (recomputeHeap.lookup rh1 ≠ ∅) as Hne by (by rewrite <-size_zero_empty).
    assert (∃ id, id ∈ recomputeHeap.lookup rh1) as [id Hid].
    { apply set_choose_L. done. }
    rewrite Hlookup in Hid. apply elem_of_difference in Hid as [Hid Hnot].
    pose proof (Hl id Hid) as Hin. pose proof (Hr id Hid) as Hrange.
    set (y := heightInRecomputeHeap (m id)) in *.
    assert (y ≠ recomputeHeap.minHeight rh) as Hy by (intros E; rewrite E in Hin; done).
    assert (bucket rh1 y ≠ ∅) as Hy1.
    { rewrite Hbucket, decide_False by done. set_solver. }
    destruct (firstNonEmpty_found rh1 (recomputeHeap.span rh1) (recomputeHeap.minHeight rh1) y)
      as (h & Hh & Hhr & Hhne & Hbelow); try done; try lia.
    { unfold recomputeHeap.span. lia. }
    rewrite Hh. simpl. exists h. split; [done|]. right. simpl.
    split; [done|]. split; [by rewrite bucket_set_minHeight|].
    intros x Hx. rewrite bucket_set_minHeight.
    destruct (decide (recomputeHeap.minHeight rh1 <= x)) as [Hge|Hlt]; [apply Hbelow; lia|].
    rewrite Hbucket. case_decide; [done|].
    apply set_eq. intros k. split; [|set_solver]. intros Hk.
    destruct (Hb _ _ Hk) as [Hk1 Hk2]. specialize (Hr k Hk1). lia.
Qed.

Lemma foldl_unset_other (l : list Identifier) m id :
  id ∉ l →
  foldl (fun m0 k => alter (set_heightInRecomputeHeap heightUnset) k m0) m l id = m id.
Proof.
  revert m. induction l as [|a l IH]; intros m Hid; simpl; [done|].
  rewrite IH by set_solver. apply fn_lookup_alter_ne. set_solver.
Qed.

Lemma foldl_unset_in (l : list Identifier) m id :
  id ∈ l →
  foldl (fun m0 k => alter (set_heightInRecomputeHeap heightUnset) k m0) m l id
  = set_heightInRecomputeHeap heightUnset (m id).
Proof.
  revert m. induction l as [|a l IH]; intros m Hid; simpl; [set_solver|].
  destruct (decide (id ∈ l)) as [Hin|Hnin].
  - rewrite IH by done. destruct (decide (a = id)) as [->|Hne].
    + by rewrite fn_lookup_alter.
    + by rewrite fn_lookup_alter_ne.
  - rewrite foldl_unset_other by done.
    assert (a = id) as -> by set_solver. by rewrite fn_lookup_alter.
Qed.

(** [removeMinHeight] on a consistent heap whose minimum bucket is not empty:
    the whole bucket is returned, and [minHeight] is settled. *)
Lemma removeMinHeight_spec m rh :
  heapOK m rh → bucket rh (recomputeHeap.minHeight rh) ≠ ∅ →
  ∃ m' rh',
    recomputeHeap.removeMinHeight m rh
      = Ret (mapOrder (bucket rh (recomputeHeap.minHeight rh)), m', rh') ∧
    minHeightSettled rh' ∧
    recomputeHeap.lookup rh' = recomputeHeap.lookup rh ∖ bucket rh (recomputeHeap.minHeight rh) ∧
    (∀ x, bucket rh' x = if decide (x = recomputeHeap.minHeight rh) then ∅ else bucket rh x) ∧
    recomputeHeap.maxHeight rh' = recomputeHeap.maxHeight rh ∧
    (∀ id, m' id = if decide (id ∈ bucket rh (recomputeHeap.minHeight rh))
                   then set_heightInRecomputeHeap heightUnset (m id) else m id).
Proof.
  intros Hok Hne. pose proof Hok as [Hmin Hl Hb Hr].
  destruct (index_of_bucket rh _ Hne) as (b & Hb0 & Hbb).
  unfold recomputeHeap.removeMinHeight. rewrite Hb0. simpl.
  rewrite decide_True by (rewrite mapLen_pos, Hbb; done).
  rewrite Hbb.
  set (s := bucket rh (recomputeHeap.minHeight rh)) in *.
  match goal with |- context [recomputeHeap.nextMinHeightUnsafe ?r] => set (rh1 := r) end.
  apply index_ret in Hb0 as [_ Hb0]. pose proof (lookup_lt_Some _ _ _ Hb0) as Hlen.
  destruct (nextMinHeight_after_clearing m rh rh1 Hok) as (h & Hh & Hset).
  - unfold rh1. simpl. rewrite foldl_delete_lookup, list_to_set_mapOrder. done.
  - intros x. unfold rh1. rewrite bucket_insert by done. done.
  - done.
  - done.
  - rewrite Hh. simpl. eexists _, _. split; [reflexivity|].
    split; [done|]. split.
    { simpl. rewrite foldl_delete_lookup, list_to_set_mapOrder. done. }
    split.
    { intros x. rewrite bucket_set_minHeight. unfold rh1. rewrite bucket_insert by done. done. }
    split; [done|].
    intros id. case_decide as Hid.
    + apply foldl_unset_in. by apply mapOrder_elem.
    + apply foldl_unset_other. by rewrite mapOrder_elem.
Qed.

Lemma singleton_of_size_1 (s : gset Identifier) : size s = 1%nat → ∃ k, s = {[k]}.
Proof. intros Hs. destruct (size_1_elem_of s Hs) as [k Hk]. exists k. by apply leibniz_equiv. Qed.

Lemma mapOrder_singleton (k : Identifier) : mapOrder {[k]} = [k].
Proof.
  apply Permutation_singleton_r. rewrite <-(elements_singleton (C := gset Identifier)).
  apply mapOrder_perm.
Qed.

(** [removeMinUnsafe] taking the last node of the minimum bucket. *)
Lemma removeMinUnsafe_last m rh k :
  heapOK m rh → bucket rh (recomputeHeap.minHeight rh) = {[k]} →
  ∃ rh',
    recomputeHeap.removeMinUnsafe m rh
      = Ret (Some k, alter (set_heightInRecomputeHeap heightUnset) k m, rh') ∧
    minHeightSettled rh' ∧
    recomputeHeap.lookup rh' = recomputeHeap.lookup rh ∖ {[k]}.
Proof.
  intros Hok Hk. pose proof Hok as [Hmin Hl Hb Hr].
  assert (bucket rh (recomputeHeap.minHeight rh) ≠ ∅) as Hne by (rewrite Hk; set_solver).
  destruct (index_of_bucket rh _ Hne) as (b & Hb0 & Hbb).
  assert (k ∈ recomputeHeap.lookup rh ∧
          heightInRecomputeHeap (m k) = recomputeHeap.minHeight rh) as [Hkl Hkh].
  { apply Hb. rewrite Hk. set_solver. }
  pose proof (Hr k Hkl) as Hrange.
  unfold recomputeHeap.removeMinUnsafe.
  assert (∃ n, recomputeHeap.span rh = S n) as [n ->].
  { unfold recomputeHeap.span. exists (Z.to_nat (recomputeHeap.maxHeight rh - recomputeHeap.minHeight rh)). lia. }
  simpl. rewrite Hb0. simpl.
  rewrite decide_True by (rewrite mapLen_pos, Hbb; done).
  rewrite Hbb, Hk. unfold recomputeHeap.popMap. rewrite mapOrder_singleton.
  assert (({[k]} : gset Identifier) ∖ {[k]} = ∅) as -> by set_solver.
  rewrite decide_False by (rewrite size_empty; lia).
  match goal with |- context [recomputeHeap.nextMinHeightUnsafe ?r] => set (rh1 := r) end.
  apply index_ret in Hb0 as [_ Hb0]. pose proof (lookup_lt_Some _ _ _ Hb0) as Hlen.
  destruct (nextMinHeight_after_clearing m rh rh1 Hok) as (h & Hh & Hset).
  - unfold rh1. simpl. by rewrite Hk.
  - intros x. unfold rh1. rewrite bucket_insert by done. done.
  - done.
  - done.
  - rewrite Hh. simpl. eexists. split; [reflexivity|]. split; done.
Qed.


Lemma bucket_maybeAddNewHeights h rh x :
  bucket (recomputeHeap.maybeAddNewHeights h rh) x = bucket rh x.
Proof.
  unfold recomputeHeap.maybeAddNewHeights. case_decide as Hlen; [|done].
  unfold bucket. simpl. case_decide; [|done].
  destruct (decide (Z.to_nat x < length (recomputeHeap.heights rh))%nat) as [Hlt|Hge].
  - by rewrite lookup_app_l.
  - rewrite lookup_app_r by lia. rewrite (lookup_ge_None_2 (recomputeHeap.heights rh)) by lia.
    simpl. destruct (replicate _ _ !! _) as [b|] eqn:E; [|done].
    apply lookup_replicate in E as [-> _]. done.
Qed.

Lemma bucket_maybeUpdateMinMaxHeights h rh x :
  bucket (recomputeHeap.maybeUpdateMinMaxHeights h rh) x = bucket rh x.
Proof. unfold recomputeHeap.maybeUpdateMinMaxHeights. repeat case_decide; done. Qed.

Lemma length_maybeAddNewHeights h rh :
  0 <= h → (Z.to_nat h < length (recomputeHeap.heights (recomputeHeap.maybeAddNewHeights h rh)))%nat.
Proof.
  intros Hh. unfold recomputeHeap.maybeAddNewHeights. case_decide as Hlen; simpl.
  - rewrite length_app, length_replicate. lia.
  - lia.
Qed.

(** What [addNodeUnsafe] does to a node whose height is an index. *)
Lemma addNodeUnsafe_spec n m rh :
  0 <= height (m n) →
  ∃ rh',
    recomputeHeap.addNodeUnsafe n m rh
      = Ret (alter (set_heightInRecomputeHeap (height (m n))) n m, rh') ∧
    recomputeHeap.lookup rh' = {[n]} ∪ recomputeHeap.lookup rh ∧
    (∀ x, bucket rh' x = if decide (x = height (m n)) then {[n]} ∪ bucket rh x else bucket rh x) ∧
    recomputeHeap.minHeight rh'
      = recomputeHeap.minHeight (recomputeHeap.maybeUpdateMinMaxHeights (height (m n)) rh) ∧
    recomputeHeap.maxHeight rh'
      = recomputeHeap.maxHeight (recomputeHeap.maybeUpdateMinMaxHeights (height (m n)) rh).
Proof.
  intros Hh. unfold recomputeHeap.addNodeUnsafe.
  set (h := height (m n)) in *.
  set (rh1 := recomputeHeap.maybeUpdateMinMaxHeights h rh).
  set (rh2 := recomputeHeap.maybeAddNewHeights h rh1).
  pose proof (length_maybeAddNewHeights h rh1 Hh) as Hlen. fold rh2 in Hlen.
  destruct (lookup_lt_is_Some_2 _ _ Hlen) as [b Hb].
  assert (recomputeHeap.index (recomputeHeap.heights rh2) h = Ret b) as Hidx
    by (by apply index_ret).
  rewrite Hidx. simpl. eexists. split; [reflexivity|]. simpl.
  split.
  { unfold rh2, rh1, recomputeHeap.maybeAddNewHeights, recomputeHeap.maybeUpdateMinMaxHeights.
    repeat case_decide; done. }
  split.
  { intros x.
    change (recomputeHeap.mk (recomputeHeap.minHeight rh2) (recomputeHeap.maxHeight rh2)
              (<[Z.to_nat h:=Some ({[n]} ∪ default ∅ b)]> (recomputeHeap.heights rh2))
              ({[n]} ∪ recomputeHeap.lookup rh2))
      with (recomputeHeap.set_lookup ({[n]} ∪ recomputeHeap.lookup rh2)
              (recomputeHeap.set_heights
                 (<[Z.to_nat h:=Some ({[n]} ∪ default ∅ b)]> (recomputeHeap.heights rh2)) rh2)).
    rewrite bucket_insert by done.
    rewrite <-(bucket_of_index _ _ _ Hidx).
    unfold rh2, rh1. rewrite !bucket_maybeAddNewHeights, !bucket_maybeUpdateMinMaxHeights.
    case_decide; [subst x|]; done. }
  unfold rh2, recomputeHeap.maybeAddNewHeights. case_decide; done.
Qed.

(** Adding a node that is not in the heap keeps the heap consistent. *)
Lemma addNodeUnsafe_heapOK n m rh :
  heapOK m rh → n ∉ recomputeHeap.lookup rh → 0 <= height (m n) →
  ∃ rh',
    recomputeHeap.addNodeUnsafe n m rh
      = Ret (alter (set_heightInRecomputeHeap (height (m n))) n m, rh') ∧
    heapOK (alter (set_heightInRecomputeHeap (height (m n))) n m) rh' ∧
    recomputeHeap.lookup rh' = {[n]} ∪ recomputeHeap.lookup rh ∧
    (∀ x, bucket rh' x = if decide (x = height (m n)) then {[n]} ∪ bucket rh x else bucket rh x).
Proof.
  intros [Hmin Hl Hb Hr] Hn Hh.
  destruct (addNodeUnsafe_spec n m rh Hh) as (rh' & Hrun & Hlk & Hbk & Hmn & Hmx).
  exists rh'. split; [done|]. split; [|done].
  set (h := height (m n)) in *.
  assert (∀ id, id ≠ n →
            heightInRecomputeHeap (alter (set_heightInRecomputeHeap h) n m id)
            = heightInRecomputeHeap (m id)) as Hother.
  { intros id Hid. by rewrite fn_lookup_alter_ne. }
  assert (heightInRecomputeHeap (alter (set_heightInRecomputeHeap h) n m n) = h) as Hself.
  { by rewrite fn_lookup_alter. }
  assert (recomputeHeap.minHeight rh' <= h <= recomputeHeap.maxHeight rh' ∧
          (recomputeHeap.lookup rh ≠ ∅ →
             recomputeHeap.minHeight rh' <= recomputeHeap.minHeight rh ∧
             recomputeHeap.maxHeight rh <= recomputeHeap.maxHeight rh') ∧
          0 <= recomputeHeap.minHeight rh') as (Hhr & Hmono & Hmin').
  { rewrite Hmn, Hmx. unfold recomputeHeap.maybeUpdateMinMaxHeights.
    destruct (decide (size (recomputeHeap.lookup rh) = O)) as [Hsz|Hsz]; simpl.
    - split; [lia|]. split; [|lia]. intros Hne. by apply size_zero_empty in Hsz.
    - destruct (decide (recomputeHeap.minHeight rh > h));
        match goal with |- context [decide (?a < h)] => destruct (decide (a < h)) end;
        simpl in *; (split; [lia|split; [intros _; lia|lia]]). }
  split.
  - done.
  - intros id. rewrite Hlk, Hbk. intros [->%elem_of_singleton|Hid]%elem_of_union.
    + rewrite Hself, decide_True by done. set_solver.
    + assert (id ≠ n) by (intros ->; done). rewrite Hother by done.
      specialize (Hl id Hid). case_decide; set_solver.
  - intros x id. rewrite Hlk, Hbk. intros Hid.
    assert (id = n ∧ x = h ∨ id ∈ bucket rh x) as [[-> ->]|Hin].
    { case_decide; [|by right]. apply elem_of_union in Hid as [->%elem_of_singleton|]; [left|right]; done. }
    + split; [set_solver|done].
    + destruct (Hb _ _ Hin) as [Hin1 Hin2].
      assert (id ≠ n) by (intros ->; done). rewrite Hother by done. split; [set_solver|done].
  - intros id. rewrite Hlk. intros [->%elem_of_singleton|Hid]%elem_of_union.
    + rewrite Hself. done.
    + assert (id ≠ n) by (intros ->; done). rewrite Hother by done.
      specialize (Hr id Hid). assert (recomputeHeap.lookup rh ≠ ∅) as Hne by set_solver.
      specialize (Hmono Hne). lia.
Qed.

Lemma firstError_None {A} (f : A → option recomputeHeap.sanityError) l :
  recomputeHeap.firstError f l = None ↔ ∀ x, x ∈ l → f x = None.
Proof.
  induction l as [|a l IH]; simpl.
  - split; [intros _ x Hx; by apply elem_of_nil in Hx|done].
  - destruct (f a) eqn:E.
    + split; [done|]. intros Hall. rewrite Hall in E; [done|left].
    + rewrite IH. split.
      * intros Hall x [->|Hx]%elem_of_cons; auto.
      * intros Hall x Hx. apply Hall. by right.
Qed.

(** What a passing [sanityCheck] says of every queued node. *)
Lemma sanityCheck_passes m rh x id :
  recomputeHeap.sanityCheck m rh = Ret None → id ∈ bucket rh x →
  heightInRecomputeHeap (m id) = x ∧ height (m id) = x ∧ id ∈ recomputeHeap.lookup rh.
Proof.
  unfold recomputeHeap.sanityCheck. intros Hs Hid.
  apply run_bind_ret in Hs as (minEmpty & _ & Hs).
  destruct minEmpty; [done|]. injection Hs as Hs.
  unfold bucket in Hid. case_decide as Hx; [|set_solver].
  destruct (recomputeHeap.heights rh !! Z.to_nat x) as [[s|]|] eqn:E; simpl in Hid; try set_solver.
  rewrite firstError_None in Hs.
  specialize (Hs (Z.to_nat x, Some s)). simpl in Hs.
  unfold recomputeHeap.checkBlock in Hs. simpl in Hs.
  rewrite firstError_None in Hs.
  assert (recomputeHeap.checkItem m rh (Z.of_nat (Z.to_nat x)) id = None) as Hc.
  { apply Hs; [|by apply mapOrder_elem].
    apply elem_of_lookup_imap. eauto. }
  unfold recomputeHeap.checkItem in Hc. repeat case_decide; try done.
  rewrite Z2Nat.id in * by done.
  split_and!; [done|congruence|done].
Qed.

End HeapFacts.

(** ** The heap: removal and re-adding *)

Section HeapTheorems.
Context {World UserError : Type} `{MapIter}.
Implicit Types (m : Mem World UserError) (rh : recomputeHeap.t).



End HeapTheorems.

(** The example heap is consistent and passes the sanity check. *)
Lemma heapOne_ok : heapOK memOne heapOne.
Proof.
  split.
  - simpl. lia.
  - intros id Hid. change (id ∈ ({[1%positive]} : gset Identifier)) in Hid.
    apply elem_of_singleton in Hid as ->. vm_compute. set_solver.
  - intros x id Hid. unfold bucket in Hid. case_decide as Hx; [|set_solver].
    destruct (decide (x = 3)) as [->|Hne].
    + simpl in Hid. apply elem_of_singleton in Hid as ->. split; [set_solver|done].
    + assert (Z.to_nat x ≠ 3%nat) by lia.
      destruct (Z.to_nat x) as [|[|[|[|k]]]]; simpl in Hid; try set_solver.
  - intros id Hid. change (id ∈ ({[1%positive]} : gset Identifier)) in Hid.
    apply elem_of_singleton in Hid as ->. vm_compute. split; discriminate.
Qed.



(** ** Facts about the graph *)

Section GraphFacts.
Context {World UserError : Type} `{MapIter} `{NodePredicates World UserError}.
Implicit Types (g : Graph World UserError) (m : Mem World UserError).

Lemma addNodeUnsafe_ret s m rh m' rh' :
  recomputeHeap.addNodeUnsafe s m rh = Ret (m', rh') →
  m' = alter (set_heightInRecomputeHeap (height (m s))) s m ∧
  recomputeHeap.lookup rh' = {[s]} ∪ recomputeHeap.lookup rh.
Proof.
  unfold recomputeHeap.addNodeUnsafe. intros (b & _ & Hr)%run_bind_ret.
  injection Hr as <- <-. split; [done|]. simpl.
  unfold recomputeHeap.maybeAddNewHeights, recomputeHeap.maybeUpdateMinMaxHeights.
  repeat case_decide; done.
Qed.

Lemma addUnsafe_ret nodes m rh m' rh' :
  recomputeHeap.addUnsafe nodes m rh = Ret (m', rh') →
  (∀ id, unmarked (m' id) = unmarked (m id)) ∧
  (∀ id, id ∉ nodes → m' id = m id) ∧
  recomputeHeap.lookup rh' = list_to_set nodes ∪ recomputeHeap.lookup rh.
Proof.
  revert m rh. induction nodes as [|s nodes IH]; intros m rh; simpl.
  - intros [= <- <-]. split_and!; [done|done|set_solver].
  - intros ([m1 rh1] & Hadd & Hrest)%run_bind_ret.
    apply addNodeUnsafe_ret in Hadd as [-> Hl1].
    apply IH in Hrest as (Hu & Ho & Hl). split_and!.
    + intros id. rewrite Hu. destruct (decide (s = id)) as [->|Hne].
      * by rewrite fn_lookup_alter.
      * by rewrite fn_lookup_alter_ne.
    + intros id Hid. rewrite Ho by set_solver. rewrite fn_lookup_alter_ne; [done|set_solver].
    + rewrite Hl, Hl1. set_solver.
Qed.

Lemma heapAdd_ret nodes g g' :
  heapAdd nodes g = Ret g' →
  (∀ id, unmarked (mem g' id) = unmarked (mem g id)) ∧
  (∀ id, id ∉ nodes → mem g' id = mem g id) ∧
  recomputeHeap.lookup (recomputeHeap g')
    = list_to_set nodes ∪ recomputeHeap.lookup (recomputeHeap g) ∧
  world g' = world g ∧
  setDuringStabilization g' = setDuringStabilization g ∧
  handleAfterStabilization g' = handleAfterStabilization g ∧
  stabilizationNum g' = stabilizationNum g ∧
  status g' = status g ∧
  numNodesRecomputed g' = numNodesRecomputed g ∧
  numNodesChanged g' = numNodesChanged g.
Proof.
  unfold heapAdd. intros ([m1 rh1] & Hadd & [= <-])%run_bind_ret.
  apply addUnsafe_ret in Hadd as (Hu & Ho & Hl). simpl. split_and!; done.
Qed.

(** Fields of a node struct read through [unmarked]. *)
Lemma unmarked_fields (a b : Node World UserError) :
  unmarked a = unmarked b →
  parents a = parents b ∧ children a = children b ∧ observers a = observers b ∧
  height a = height b ∧ changedAt a = changedAt b ∧ setAt a = setAt b ∧
  boundAt a = boundAt b ∧ recomputedAt a = recomputedAt b ∧
  onUpdateHandlers a = onUpdateHandlers b ∧ onErrorHandlers a = onErrorHandlers b ∧
  stabilize a = stabilize b ∧ cutoff a = cutoff b ∧ always a = always b ∧
  numRecomputes a = numRecomputes b ∧ numChanges a = numChanges b.
Proof. destruct a, b. unfold unmarked. simpl. intros [=]. subst. split_and!; done. Qed.

Lemma SetStale_ret n g g' :
  SetStale n g = Ret g' →
  setAt (mem g' n) = stabilizationNum g ∧
  (∀ id, id ≠ n → unmarked (mem g' id) = unmarked (mem g id)) ∧
  recomputeHeap.lookup (recomputeHeap g) ⊆ recomputeHeap.lookup (recomputeHeap g') ∧
  world g' = world g ∧
  setDuringStabilization g' = setDuringStabilization g ∧
  stabilizationNum g' = stabilizationNum g ∧
  status g' = status g ∧
  handleAfterStabilization g' = handleAfterStabilization g.
Proof.
  unfold SetStale.
  set (g1 := set_mem _ g).
  assert (setAt (mem g1 n) = stabilizationNum g) as Hset.
  { unfold g1. simpl. by rewrite fn_lookup_alter. }
  assert (∀ id, id ≠ n → mem g1 id = mem g id) as Hother.
  { intros id Hid. unfold g1. simpl. by rewrite fn_lookup_alter_ne. }
  case_decide.
  - intros Hadd. apply heapAdd_ret in Hadd
      as (Hu & Ho & Hl & Hw & Hs & Hh & Hn & Hst & _).
    split_and!; try done.
    + destruct (unmarked_fields _ _ (Hu n)) as (_&_&_&_&_&->&_). done.
    + intros id Hid. rewrite Hu, Hother by done. done.
    + rewrite Hl. set_solver.
  - intros [= <-]. split_and!; try done. intros id Hid. by rewrite Hother.
Qed.

Lemma handleAllSetDuringStabilization_ret ns g g' :
  handleAllSetDuringStabilization ns g = Ret g' →
  (∀ n, n ∈ ns → setAt (mem g' n) = stabilizationNum g) ∧
  (∀ n, n ∉ ns → unmarked (mem g' n) = unmarked (mem g n)) ∧
  recomputeHeap.lookup (recomputeHeap g) ⊆ recomputeHeap.lookup (recomputeHeap g') ∧
  setDuringStabilization g' = setDuringStabilization g ∧
  stabilizationNum g' = stabilizationNum g ∧
  status g' = status g ∧
  handleAfterStabilization g' = handleAfterStabilization g.
Proof.
  revert g. induction ns as [|a ns IH]; intros g; simpl.
  - intros [= <-]. split_and!; try done. intros n Hn. by apply elem_of_nil in Hn.
  - intros (g1 & Hone & Hrest)%run_bind_ret.
    unfold handleSetDuringStabilization in Hone.
    destruct (maybeStabilize (mem g a) (world g)) as [w e].
    apply SetStale_ret in Hone as (Hset & Hu1 & Hl1 & _ & Hs1 & Hn1 & Hst1 & Hh1).
    apply IH in Hrest as (Hin & Hout & Hl & Hs & Hn & Hst & Hh).
    simpl in *. split_and!.
    + intros n Hn'. destruct (decide (n ∈ ns)) as [Hns|Hns].
      * rewrite Hin by done. done.
      * assert (n = a) as -> by set_solver.
        destruct (unmarked_fields _ _ (Hout a Hns)) as (_&_&_&_&_&->&_). done.
    + intros n Hn'. rewrite Hout by set_solver. apply Hu1. set_solver.
    + set_solver.
    + congruence.
    + congruence.
    + congruence.
    + congruence.
Qed.

Lemma stabilizeEnd_ret err g g' :
  stabilizeEnd err g = Ret g' →
  stabilizationNum g' = uint64 (stabilizationNum g + 1) ∧
  (∀ n, n ∈ setDuringStabilization g → setAt (mem g' n) = uint64 (stabilizationNum g + 1)) ∧
  (∀ n, n ∉ setDuringStabilization g → unmarked (mem g' n) = unmarked (mem g n)) ∧
  recomputeHeap.lookup (recomputeHeap g) ⊆ recomputeHeap.lookup (recomputeHeap g') ∧
  setDuringStabilization g' = ∅ ∧
  handleAfterStabilization g' = ∅ ∧
  status g' = StatusNotStabilizing.
Proof.
  unfold stabilizeEnd, stabilizeEndHandleSetDuringStabilization.
  intros (g4 & (g5 & Hall & [= <-])%run_bind_ret & [= <-])%run_bind_ret.
  apply handleAllSetDuringStabilization_ret in Hall as (Hin & Hout & Hl & Hs & Hn & Hst & Hh).
  simpl in *. split_and!; try done.
  - intros n Hn'. apply Hin. by apply mapOrder_elem.
  - intros n Hn'. apply Hout. by rewrite mapOrder_elem.
Qed.

(** Adding nodes whose heights are indices does not panic. *)
Lemma addUnsafe_total nodes m rh :
  (∀ c, c ∈ nodes → 0 <= height (m c)) →
  ∃ m' rh', recomputeHeap.addUnsafe nodes m rh = Ret (m', rh').
Proof.
  revert m rh. induction nodes as [|c nodes IH]; intros m rh Hh; simpl.
  - eauto.
  - destruct (addNodeUnsafe_spec c m rh (Hh c ltac:(left))) as (rh1 & -> & _).
    simpl. apply IH. intros c' Hc'.
    assert (height (alter (set_heightInRecomputeHeap (height (m c))) c m c')
            = height (m c')) as ->.
    { destruct (decide (c = c')) as [->|Hne].
      - by rewrite fn_lookup_alter.
      - by rewrite fn_lookup_alter_ne. }
    apply Hh. by right.
Qed.

Lemma heapAdd_total nodes g :
  (∀ c, c ∈ nodes → 0 <= height (mem g c)) → ∃ g', heapAdd nodes g = Ret g'.
Proof.
  intros Hh. unfold heapAdd, recomputeHeap.add.
  destruct (addUnsafe_total nodes (mem g) (recomputeHeap g) Hh) as (m' & rh' & ->).
  simpl. eauto.
Qed.

Lemma SetStale_total n g :
  0 <= height (mem g n) → ∃ g', SetStale n g = Ret g'.
Proof.
  intros Hh. unfold SetStale. case_decide; [|eauto].
  apply heapAdd_total. intros c Hc. apply elem_of_cons in Hc as [->|Hc]; [|by apply elem_of_nil in Hc]. simpl.
  by rewrite fn_lookup_alter.
Qed.

Lemma SetStale_height n g g' :
  SetStale n g = Ret g' → ∀ id, height (mem g' id) = height (mem g id).
Proof.
  unfold SetStale.
  set (g1 := set_mem _ g).
  assert (∀ id, height (mem g1 id) = height (mem g id)) as H1.
  { intros id. unfold g1. simpl. destruct (decide (n = id)) as [->|Hne].
    - by rewrite fn_lookup_alter.
    - by rewrite fn_lookup_alter_ne. }
  case_decide.
  - intros (Hu & _)%heapAdd_ret id.
    destruct (unmarked_fields _ _ (Hu id)) as (_&_&_&->&_). done.
  - intros [= <-]. done.
Qed.

Lemma handleAllSetDuringStabilization_total ns g :
  (∀ n, n ∈ ns → 0 <= height (mem g n)) →
  ∃ g', handleAllSetDuringStabilization ns g = Ret g'.
Proof.
  revert g. induction ns as [|a ns IH]; intros g Hh; simpl; [eauto|].
  unfold handleSetDuringStabilization.
  destruct (maybeStabilize (mem g a) (world g)) as [w e].
  destruct (SetStale_total a (set_world w g)) as [g1 Hg1]; [apply Hh; left|].
  rewrite Hg1. simpl. apply IH. intros n Hn.
  rewrite (SetStale_height _ _ _ Hg1). simpl. apply Hh. by right.
Qed.

(** The closing steps return when the variables set during the pass have
    heights that are indices. *)
Lemma stabilizeEnd_total err g :
  (∀ n, n ∈ setDuringStabilization g → 0 <= height (mem g n)) →
  ∃ g', stabilizeEnd err g = Ret g'.
Proof.
  intros Hh. unfold stabilizeEnd, stabilizeEndHandleSetDuringStabilization.
  match goal with |- context [handleAllSetDuringStabilization ?ns ?g0] =>
    destruct (handleAllSetDuringStabilization_total ns g0) as [g1 ->] end.
  { intros n Hn%mapOrder_elem. simpl in *. by apply Hh. }
  simpl. eauto.
Qed.

(** The counters of [recompute] leave the callbacks of the node in place. *)
Lemma maybeCutoff_counters n (f : Node World UserError → Node World UserError) m w :
  (∀ nn, cutoff (f nn) = cutoff nn) →
  maybeCutoff (alter f n m n) w = maybeCutoff (m n) w.
Proof. intros Hf. unfold maybeCutoff. by rewrite fn_lookup_alter, Hf. Qed.

Lemma maybeStabilize_counters n (f : Node World UserError → Node World UserError) m w :
  (∀ nn, stabilize (f nn) = stabilize nn) →
  maybeStabilize (alter f n m n) w = maybeStabilize (m n) w.
Proof. intros Hf. unfold maybeStabilize. by rewrite fn_lookup_alter, Hf. Qed.

(** [recompute] when the cutoff holds. *)
Lemma recompute_cutoff g n w :
  maybeCutoff (mem g n) (world g) = (w, (true, None)) →
  recompute n g =
    Ret (set_world w
           (set_mem (alter (fun nn => set_recomputedAt (stabilizationNum g)
                              (set_numRecomputes (uint64 (numRecomputes nn + 1)) nn))
                       n (mem g))
              (set_numNodesRecomputed (uint64 (numNodesRecomputed g + 1)) g)), None).
Proof.
  intros Hc. unfold recompute. simpl.
  rewrite maybeCutoff_counters by done. rewrite Hc. done.
Qed.

(** [recompute] when the cutoff lets the node through and its stabilize
    callback fails with [e]. *)
Lemma recompute_stabilize_error g n w3 w6 e :
  maybeCutoff (mem g n) (world g) = (w3, (false, None)) →
  maybeStabilize (mem g n) w3 = (w6, Some e) →
  recompute n g =
    Ret (set_world (runErrorHandlers (onErrorHandlers (mem g n)) e w6)
           (set_mem (alter (fun nn => set_numChanges (uint64 (numChanges nn + 1)) nn) n
                       (alter (fun nn => set_recomputedAt (stabilizationNum g)
                                 (set_numRecomputes (uint64 (numRecomputes nn + 1)) nn))
                          n (mem g)))
              (set_numNodesChanged (uint64 (numNodesChanged g + 1))
                 (set_numNodesRecomputed (uint64 (numNodesRecomputed g + 1)) g))),
         Some e).
Proof.
  intros Hc Hs. unfold recompute. simpl.
  rewrite maybeCutoff_counters by done. rewrite Hc. simpl.
  rewrite maybeStabilize_counters by done.
  rewrite maybeStabilize_counters by done. rewrite Hs. simpl.
  rewrite !fn_lookup_alter. done.
Qed.

End GraphFacts.

(** ** The pass: guard, cutoff, errors, end of pass *)

Section PassTheorems.
Context {World UserError : Type} `{MapIter} `{NodePredicates World UserError}.
Implicit Types (g : Graph World UserError) (m : Mem World UserError).

Lemma recomputeBatch_app_error pre n post g0 imm0 g imm g' e :
  recomputeBatch pre g0 imm0 = Ret (g, None, imm) →
  recompute n g = Ret (g', Some e) →
  recomputeBatch (pre ++ n :: post) g0 imm0 = Ret (g', Some e, imm).
Proof.
  revert g0 imm0. induction pre as [|a pre IH]; intros g0 imm0; simpl.
  - intros [= <- <-] ->. done.
  - intros ([g1 err] & Hrec & Hrest)%run_bind_ret Hn. rewrite Hrec. simpl.
    destruct err as [e1|]; [done|]. eapply IH; done.
Qed.

(** C1: a call to [Stabilize] made while the status is not
    [StatusNotStabilizing] returns [ErrAlreadyStabilizing] and hands back the
    graph as it was: no node is recomputed, whatever the fuel. *)
Theorem Stabilize_while_stabilizing fuel g :
  status g ≠ StatusNotStabilizing →
  Stabilize fuel g = Ret (g, Some ErrAlreadyStabilizing).
Proof.
  intros Hst. unfold Stabilize, ensureNotStabilizing. by rewrite decide_True.
Qed.

(** C2: when the cutoff of a recomputed node returns true, [recompute] stops
    there: [changedAt] of the node keeps its value, the recompute heap (lookup
    and buckets) and every heap mark are as before, so no child and no
    observer is enqueued, no update handler is queued, and no other node
    struct is written; if the node was the last one queued, the drain loop
    ends without recomputing anything downstream. *)
Theorem recompute_cutoff_stops g n w :
  maybeCutoff (mem g n) (world g) = (w, (true, None)) →
  ∃ g',
    recompute n g = Ret (g', None) ∧
    changedAt (mem g' n) = changedAt (mem g n) ∧
    recomputeHeap g' = recomputeHeap g ∧
    (∀ c, heightInRecomputeHeap (mem g' c) = heightInRecomputeHeap (mem g c)) ∧
    (∀ c, c ≠ n → mem g' c = mem g c) ∧
    handleAfterStabilization g' = handleAfterStabilization g ∧
    (∀ fuel imm, recomputeHeap.lookup (recomputeHeap g) = ∅ →
       drain fuel g' imm = Ret (g', None, imm)).
Proof.
  intros Hc. eexists. split; [by apply recompute_cutoff|]. simpl.
  split_and!; try done.
  - by rewrite fn_lookup_alter.
  - intros c. destruct (decide (n = c)) as [->|Hne].
    + by rewrite fn_lookup_alter.
    + by rewrite fn_lookup_alter_ne.
  - intros c Hne. by rewrite fn_lookup_alter_ne.
  - intros fuel imm Hempty. destruct fuel; simpl; rewrite Hempty, size_empty; done.
Qed.

(** C3: when the stabilize callback of a node fails during a pass, the error
    handlers of the node run (in order, on the error), its update handlers are
    not queued, the batch and the drain loop stop at that node, the heap is
    left as it was when the node failed, and the closing steps of [Stabilize]
    (the re-add of [immediateRecompute] and [stabilizeEnd]) return with every
    node queued at that moment still queued. *)
Theorem stabilize_error_aborts_pass g n w3 w6 e :
  maybeCutoff (mem g n) (world g) = (w3, (false, None)) →
  maybeStabilize (mem g n) w3 = (w6, Some e) →
  ∃ g',
    recompute n g = Ret (g', Some e) ∧
    world g' = runErrorHandlers (onErrorHandlers (mem g n)) e w6 ∧
    handleAfterStabilization g' = handleAfterStabilization g ∧
    recomputeHeap g' = recomputeHeap g ∧
    (∀ pre post g0 imm0 imm,
       recomputeBatch pre g0 imm0 = Ret (g, None, imm) →
       recomputeBatch (pre ++ n :: post) g0 imm0 = Ret (g', Some e, imm)) ∧
    (∀ fuel pre post g0 m1 rh1 imm0 imm,
       (0 < size (recomputeHeap.lookup (recomputeHeap g0)))%nat →
       recomputeHeap.removeMinHeight (mem g0) (recomputeHeap g0)
         = Ret (pre ++ n :: post, m1, rh1) →
       recomputeBatch pre (set_recomputeHeap rh1 (set_mem m1 g0)) imm0 = Ret (g, None, imm) →
       drain (S fuel) g0 imm0 = Ret (g', Some e, imm)) ∧
    (∀ imm,
       (∀ id, id ∈ imm → 0 <= height (mem g' id)) →
       (∀ id, id ∈ setDuringStabilization g' → 0 <= height (mem g' id)) →
       ∃ g3 g4,
         heapAdd imm g' = Ret g3 ∧ stabilizeEnd (Some e) g3 = Ret g4 ∧
         recomputeHeap.lookup (recomputeHeap g') ⊆ recomputeHeap.lookup (recomputeHeap g4)).
Proof.
  intros Hc Hs. pose proof (recompute_stabilize_error g n w3 w6 e Hc Hs) as Hrec.
  eexists. split; [exact Hrec|]. split_and!; try done.
  - intros pre post g0 imm0 imm Hpre. by eapply recomputeBatch_app_error.
  - intros fuel pre post g0 m1 rh1 imm0 imm Hsz Hpop Hpre. simpl.
    rewrite decide_True by done. rewrite Hpop. simpl.
    erewrite recomputeBatch_app_error by done. done.
  - intros imm Himm Hset.
    destruct (heapAdd_total imm _ Himm) as [g3 Hadd].
    pose proof (heapAdd_ret _ _ _ Hadd) as (Hu & _ & Hl & _ & Hsd & _).
    destruct (stabilizeEnd_total (Some e) g3) as [g4 Hend].
    { intros id Hid. destruct (unmarked_fields _ _ (Hu id)) as (_&_&_&->&_).
      apply Hset. by rewrite <-Hsd. }
    exists g3, g4. split; [done|]. split; [done|].
    apply stabilizeEnd_ret in Hend as (_ & _ & _ & Hl' & _).
    etrans; [|exact Hl']. rewrite Hl. set_solver.
Qed.


(** C10: when the stabilize callback fails, the counters of this recompute
    are already written: [numRecomputes], [numChanges] and [recomputedAt] of
    the node, [numNodesRecomputed] and [numNodesChanged] of the graph; what is
    skipped is the write of [changedAt], the queuing of update handlers and
    the enqueuing of children and observers. *)
Theorem recompute_error_keeps_counters g n w3 w6 e :
  maybeCutoff (mem g n) (world g) = (w3, (false, None)) →
  maybeStabilize (mem g n) w3 = (w6, Some e) →
  ∃ g',
    recompute n g = Ret (g', Some e) ∧
    numRecomputes (mem g' n) = uint64 (numRecomputes (mem g n) + 1) ∧
    numChanges (mem g' n) = uint64 (numChanges (mem g n) + 1) ∧
    recomputedAt (mem g' n) = stabilizationNum g ∧
    numNodesRecomputed g' = uint64 (numNodesRecomputed g + 1) ∧
    numNodesChanged g' = uint64 (numNodesChanged g + 1) ∧
    changedAt (mem g' n) = changedAt (mem g n) ∧
    handleAfterStabilization g' = handleAfterStabilization g ∧
    recomputeHeap g' = recomputeHeap g ∧
    (∀ c, heightInRecomputeHeap (mem g' c) = heightInRecomputeHeap (mem g c)).
Proof.
  intros Hc Hs. pose proof (recompute_stabilize_error g n w3 w6 e Hc Hs) as Hrec.
  eexists. split; [exact Hrec|]. simpl. rewrite !fn_lookup_alter. split_and!; try done.
  intros c. destruct (decide (n = c)) as [->|Hne].
  - by rewrite !fn_lookup_alter.
  - by rewrite !fn_lookup_alter_ne.
Qed.

End PassTheorems.

(** ** The pass invariant is kept *)

Section PassFacts.
Context {World UserError : Type} `{MapIter} `{NodePredicates World UserError}.
Implicit Types (g : Graph World UserError) (m : Mem World UserError)
  (rh : recomputeHeap.t).

Lemma shape_fields (a b : Node World UserError) :
  shape a = shape b →
  children a = children b ∧ observers a = observers b ∧ height a = height b ∧
  always a = always b.
Proof. unfold shape. intros [=]. done. Qed.

Lemma unmarked_shape (a b : Node World UserError) :
  unmarked a = unmarked b → shape a = shape b ∧ numRecomputes a = numRecomputes b.
Proof.
  intros Hu. destruct (unmarked_fields a b Hu) as (_&Hc&Ho&Hh&_&_&_&_&_&_&_&_&Ha&Hn&_).
  unfold shape. by rewrite Hc, Ho, Hh, Ha.
Qed.

(** A write that leaves shapes and marks alone keeps the graph well formed. *)
Lemma graphOK_frame m m' rh :
  graphOK m rh →
  (∀ id, shape (m' id) = shape (m id)) →
  (∀ id, heightInRecomputeHeap (m' id) = heightInRecomputeHeap (m id)) →
  graphOK m' rh.
Proof.
  intros [[Hmin Hl Hb Hr] Hh Hu Hc Ho] Hs Hm.
  assert (∀ id, height (m' id) = height (m id)) as Hht
    by (intros id; by destruct (shape_fields _ _ (Hs id)) as (_&_&->&_)).
  split; [split|..].
  - done.
  - intros id Hid. rewrite Hm. auto.
  - intros x id Hid. rewrite Hm. auto.
  - intros id Hid. rewrite Hm. auto.
  - intros id Hid. rewrite Hht, Hm. auto.
  - intros id Hid. rewrite Hm. auto.
  - intros p c Hpc. rewrite !Hht. apply Hc.
    by destruct (shape_fields _ _ (Hs p)) as (<-&_).
  - intros p o Hpo. rewrite !Hht. apply Ho.
    by destruct (shape_fields _ _ (Hs p)) as (_&<-&_).
Qed.

Lemma shape_set_mark v (n : Node World UserError) :
  shape (set_heightInRecomputeHeap v n) = shape n.
Proof. done. Qed.

Lemma shape_alter_mark v c m id :
  shape (alter (set_heightInRecomputeHeap v) c m id) = shape (m id).
Proof.
  destruct (decide (c = id)) as [->|Hne].
  - by rewrite fn_lookup_alter.
  - by rewrite fn_lookup_alter_ne.
Qed.

(** A node whose mark is [heightUnset] is not queued in a consistent heap. *)
Lemma unset_not_queued m rh c :
  heapOK m rh → heightInRecomputeHeap (m c) = heightUnset → c ∉ recomputeHeap.lookup rh.
Proof.
  intros [_ Hl _ _] Hc Hin. specialize (Hl c Hin). rewrite Hc in Hl.
  unfold bucket, heightUnset in Hl. rewrite decide_False in Hl by lia. set_solver.
Qed.

(** Enqueuing one node that is out of the heap. *)
Lemma graphOK_add c m rh m' rh' :
  graphOK m rh → heightInRecomputeHeap (m c) = heightUnset → 0 <= height (m c) →
  recomputeHeap.add [c] m rh = Ret (m', rh') →
  graphOK m' rh' ∧
  recomputeHeap.lookup rh' = {[c]} ∪ recomputeHeap.lookup rh ∧
  (∀ id, unmarked (m' id) = unmarked (m id)).
Proof.
  intros [Hok Hh Hu Hc Ho] Hmark Hheight Hadd.
  pose proof (unset_not_queued m rh c Hok Hmark) as Hnq.
  destruct (addNodeUnsafe_heapOK c m rh Hok Hnq Hheight) as (rh1 & Hrun & Hok1 & Hl1 & Hb1).
  unfold recomputeHeap.add in Hadd. simpl in Hadd. rewrite Hrun in Hadd. simpl in Hadd.
  injection Hadd as <- <-.
  assert (∀ id, height (alter (set_heightInRecomputeHeap (height (m c))) c m id)
                = height (m id)) as Hht.
  { intros id. by destruct (shape_fields _ _ (shape_alter_mark (height (m c)) c m id))
      as (_&_&->&_). }
  split; [split|split].
  - done.
  - intros id. rewrite Hl1, Hht. intros [->%elem_of_singleton|Hid]%elem_of_union.
    + by rewrite fn_lookup_alter.
    + rewrite fn_lookup_alter_ne by (intros ->; done). auto.
  - intros id. rewrite Hl1. intros Hid.
    rewrite fn_lookup_alter_ne by set_solver. apply Hu. set_solver.
  - intros p c' Hpc. rewrite !Hht. apply Hc.
    by destruct (shape_fields _ _ (shape_alter_mark (height (m c)) c m p)) as (<-&_).
  - intros p o Hpo. rewrite !Hht. apply Ho.
    by destruct (shape_fields _ _ (shape_alter_mark (height (m c)) c m p)) as (_&<-&_).
  - done.
  - intros id. destruct (decide (c = id)) as [->|Hne].
    + by rewrite fn_lookup_alter.
    + by rewrite fn_lookup_alter_ne.
Qed.

(** The memory after [removeMinHeight] differs by heap marks only. *)
Lemma removeMinHeight_frame m rh nodes m1 rh1 :
  recomputeHeap.removeMinHeight m rh = Ret (nodes, m1, rh1) →
  ∀ id, unmarked (m1 id) = unmarked (m id).
Proof.
  unfold recomputeHeap.removeMinHeight. intros (b & _ & Hr)%run_bind_ret.
  case_decide.
  - apply run_bind_ret in Hr as (next & _ & [= <- <- <-]).
    intros id. generalize (mapOrder (default ∅ b)). intros l. revert m.
    induction l as [|a l IH]; intros m; simpl; [done|].
    rewrite IH. destruct (decide (a = id)) as [->|Hne].
    + by rewrite fn_lookup_alter.
    + by rewrite fn_lookup_alter_ne.
  - injection Hr as <- <- <-. done.
Qed.

(** Popping the minimum batch: the batch becomes the to-do list of the pass at
    the height of the batch. *)
Lemma removeMinHeight_pass m0 m rh mh nodes m1 rh1 :
  passInv m0 m rh mh [] →
  recomputeHeap.removeMinHeight m rh = Ret (nodes, m1, rh1) →
  ∃ mh', passInv m0 m1 rh1 mh' nodes.
Proof.
  intros Hinv Hpop. pose proof Hinv as [[Hok Hh Hu Hc Ho] Hs Hf Honce Hq _ _ Hlev].
  destruct (decide (bucket rh (recomputeHeap.minHeight rh) = ∅)) as [Hempty|Hne].
  - exists mh. unfold recomputeHeap.removeMinHeight in Hpop.
    apply run_bind_ret in Hpop as (b & Hb & Hr).
    rewrite decide_False in Hr.
    + injection Hr as <- <- <-. done.
    + rewrite mapLen_pos, <-(bucket_of_index _ _ _ Hb). auto.
  - destruct (removeMinHeight_spec m rh Hok Hne)
      as (m' & rh' & Hrun & Hset & Hl' & Hb' & Hmax & Hm').
    rewrite Hrun in Hpop. injection Hpop as <- <- <-.
    set (s := bucket rh (recomputeHeap.minHeight rh)) in *.
    pose proof Hok as [Hmin Hl Hb Hr].
    assert (∀ id, id ∈ s → id ∈ recomputeHeap.lookup rh ∧
                           heightInRecomputeHeap (m id) = recomputeHeap.minHeight rh) as Hs_in
      by (intros id Hid; by apply Hb).
    assert (∀ id, shape (m' id) = shape (m id)) as Hshape.
    { intros id. rewrite Hm'. by case_decide. }
    assert (∀ id, numRecomputes (m' id) = numRecomputes (m id)) as Hnum.
    { intros id. rewrite Hm'. by case_decide. }
    assert (∀ id, height (m' id) = height (m id)) as Hht.
    { intros id. rewrite Hm'. by case_decide. }
    assert (∀ id, id ∈ recomputeHeap.lookup rh' →
              m' id = m id ∧ id ∈ recomputeHeap.lookup rh ∧
              recomputeHeap.minHeight rh < heightInRecomputeHeap (m id)) as Hstay.
    { intros id. rewrite Hl'. intros [Hid Hns]%elem_of_difference.
      split; [by rewrite Hm', decide_False|]. split; [done|].
      pose proof (Hr id Hid) as Hrange. pose proof (Hl id Hid) as Hin.
      destruct (decide (heightInRecomputeHeap (m id) = recomputeHeap.minHeight rh)) as [E|E].
      - rewrite E in Hin. done.
      - lia. }
    assert (mh < recomputeHeap.minHeight rh) as Hmh.
    { destruct (set_choose_L s Hne) as [k Hk]. destruct (Hs_in k Hk) as [Hk1 Hk2].
      rewrite <-Hk2, <-Hh by done.
      destruct (shape_fields _ _ (Hs k)) as (_&_&->&_). by apply Hq. }
    exists (recomputeHeap.minHeight rh). split; [split; [split|..]|..].
    + destruct Hset as [[_ ->]|(_ & Hne' & _)]; [done|].
      destruct (decide (0 <= recomputeHeap.minHeight rh')); [done|].
      unfold bucket in Hne'. rewrite decide_False in Hne' by done. done.
    + intros id Hid. destruct (Hstay id Hid) as (-> & Hid' & Hgt).
      rewrite Hb', decide_False by lia. by apply Hl.
    + intros x id. rewrite Hb'. case_decide; [set_solver|]. intros Hid.
      destruct (Hb x id Hid) as [Hid1 Hid2].
      assert (id ∉ s) as Hns.
      { intros Hin. destruct (Hs_in id Hin) as [_ E]. congruence. }
      rewrite Hl', Hm', decide_False by done. split; [set_solver|done].
    + intros id Hid. destruct (Hstay id Hid) as (Heq & Hid' & Hgt).
      rewrite Heq, Hmax. split; [|by apply Hr].
      destruct Hset as [[Hemp _]|(_ & Hne' & Hbelow)]; [rewrite Hemp in Hid; set_solver|].
      destruct (decide (recomputeHeap.minHeight rh' <= heightInRecomputeHeap (m id)));
        [done|].
      assert (id ∈ bucket rh' (heightInRecomputeHeap (m id))) as Hin.
      { rewrite Hb', decide_False by lia. by apply Hl. }
      rewrite Hbelow in Hin by lia. set_solver.
    + intros id Hid. destruct (Hstay id Hid) as (-> & Hid' & _). by apply Hh.
    + intros id Hid. rewrite Hm'. case_decide as Hin; [done|].
      apply Hu. rewrite Hl' in Hid. set_solver.
    + intros p c Hpc. rewrite !Hht. apply Hc.
      by destruct (shape_fields _ _ (Hshape p)) as (<-&_).
    + intros p o Hpo. rewrite !Hht. apply Ho.
      by destruct (shape_fields _ _ (Hshape p)) as (_&<-&_).
    + intros id. by rewrite Hshape.
    + intros id Hid. rewrite Hnum. apply Hf. left.
      destruct Hid as [Hid|Hid]; [lia|].
      apply mapOrder_elem in Hid. destruct (Hs_in id Hid) as [Hid1 _]. by apply Hq.
    + intros id. rewrite Hnum. apply Honce.
    + intros id Hid. destruct (Hstay id Hid) as (_ & Hid' & Hgt).
      destruct (shape_fields _ _ (Hs id)) as (_&_&<-&_). by rewrite Hh.
    + intros id Hid. apply mapOrder_elem in Hid. destruct (Hs_in id Hid) as [Hid1 Hid2].
      destruct (shape_fields _ _ (Hs id)) as (_&_&<-&_). by rewrite Hh.
    + apply mapOrder_NoDup.
    + lia.
Qed.

End PassFacts.

Section PassSteps.
Context {World UserError : Type} `{MapIter} `{NodePredicates World UserError}.
Implicit Types (g : Graph World UserError) (m : Mem World UserError)
  (rh : recomputeHeap.t).

Lemma quiet_alter f n m :
  quiet f →
  (∀ id, shape (alter f n m id) = shape (m id)) ∧
  (∀ id, heightInRecomputeHeap (alter f n m id) = heightInRecomputeHeap (m id)).
Proof.
  intros Hq. split; intros id; (destruct (decide (n = id)) as [->|Hne];
    [rewrite fn_lookup_alter; apply Hq|by rewrite fn_lookup_alter_ne]).
Qed.

(** Writing timestamps or change counters of a node keeps the invariant. *)
Lemma passInv_touch f n m0 m rh mh todo :
  quiet f → (∀ nn, numRecomputes (f nn) = numRecomputes nn) →
  passInv m0 m rh mh todo → passInv m0 (alter f n m) rh mh todo.
Proof.
  intros Hq Hnum [Hok Hs Hf Honce Hqd Htodo Hnd Hlev].
  destruct (quiet_alter f n m Hq) as [Hshape Hmark].
  assert (∀ id, numRecomputes (alter f n m id) = numRecomputes (m id)) as Hn.
  { intros id. destruct (decide (n = id)) as [->|Hne].
    - by rewrite fn_lookup_alter.
    - by rewrite fn_lookup_alter_ne. }
  split; try done.
  - by eapply graphOK_frame.
  - intros id. by rewrite Hshape.
  - intros id Hid. rewrite Hn. auto.
  - intros id. rewrite Hn. auto.
Qed.

(** Counting the recompute of the head of the to-do list. *)
Lemma passInv_count f n m0 m rh mh rest :
  quiet f → (∀ nn, numRecomputes (f nn) = uint64 (numRecomputes nn + 1)) →
  passInv m0 m rh mh (n :: rest) → passInv m0 (alter f n m) rh mh rest.
Proof.
  intros Hq Hnum [Hok Hs Hf Honce Hqd Htodo Hnd Hlev].
  destruct (quiet_alter f n m Hq) as [Hshape Hmark].
  pose proof (NoDup_cons_1_1 _ _ Hnd) as Hn. apply NoDup_cons_1_2 in Hnd.
  assert (height (m0 n) = mh) as Hhn by (apply Htodo; left).
  split; try done.
  - by eapply graphOK_frame.
  - intros id. by rewrite Hshape.
  - intros id Hid. rewrite fn_lookup_alter_ne.
    + apply Hf. destruct Hid; [by left|right; by right].
    + intros <-. destruct Hid as [Hid|Hid]; [lia|done].
  - intros id. destruct (decide (n = id)) as [<-|Hne].
    + right. rewrite fn_lookup_alter, Hnum. f_equal. f_equal. apply Hf. right; left.
    + rewrite fn_lookup_alter_ne by done. auto.
  - intros id Hid. apply Htodo. by right.
Qed.

(** The enqueuing loops of [recompute] write heap marks only. *)
Lemma enqueue_frame cs g g' :
  enqueue cs g = Ret g' →
  (∀ id, unmarked (mem g' id) = unmarked (mem g id)) ∧
  recomputeHeap.lookup (recomputeHeap g) ⊆ recomputeHeap.lookup (recomputeHeap g').
Proof.
  revert g. induction cs as [|c cs IH]; intros g; simpl.
  - intros [= <-]. done.
  - intros (g1 & Hone & Hrest)%run_bind_ret.
    apply IH in Hrest as [Hu Hl].
    destruct (isNecessary (mem g) c && isStale (mem g) c
              && bool_decide (heightInRecomputeHeap (mem g c) = heightUnset)).
    + apply heapAdd_ret in Hone as (Hu1 & _ & Hl1 & _).
      split; [intros id; by rewrite Hu, Hu1|]. rewrite Hl1 in Hl. set_solver.
    + injection Hone as <-. done.
Qed.

(** Enqueuing nodes that lie above the current height keeps the invariant. *)
Lemma enqueue_pass cs m0 g mh todo g' :
  passInv m0 (mem g) (recomputeHeap g) mh todo →
  (∀ c, c ∈ cs → mh < height (m0 c)) →
  enqueue cs g = Ret g' →
  passInv m0 (mem g') (recomputeHeap g') mh todo.
Proof.
  revert g. induction cs as [|c cs IH]; intros g Hinv Hcs; simpl.
  - intros [= <-]. done.
  - intros (g1 & Hone & Hrest)%run_bind_ret.
    apply (IH g1); [|intros c' Hc'; apply Hcs; by right|done].
    destruct (isNecessary (mem g) c && isStale (mem g) c) eqn:Hguard; simpl in Hone;
      [|by injection Hone as <-].
    case_bool_decide as Hmark; [|by injection Hone as <-].
    unfold heapAdd in Hone. apply run_bind_ret in Hone as ([m1 rh1] & Hadd & [= <-]). simpl.
    destruct Hinv as [Hok Hs Hf Honce Hqd Htodo Hnd Hlev].
    assert (mh < height (m0 c)) as Hc by (apply Hcs; left).
    assert (0 <= height (mem g c)) as Hh.
    { destruct (shape_fields _ _ (Hs c)) as (_&_&->&_). lia. }
    destruct (graphOK_add c _ _ _ _ Hok Hmark Hh Hadd) as (Hok1 & Hl1 & Hu1).
    split; try done.
    + intros id. destruct (unmarked_shape _ _ (Hu1 id)) as [-> _]. done.
    + intros id Hid. destruct (unmarked_shape _ _ (Hu1 id)) as [_ ->]. auto.
    + intros id. destruct (unmarked_shape _ _ (Hu1 id)) as [_ ->]. auto.
    + intros id. rewrite Hl1. intros [->%elem_of_singleton|Hid]%elem_of_union; auto.
Qed.

(** One [recompute] of the head of the to-do list keeps the invariant, whether
    it ends at the cutoff, fails, or enqueues children and observers. *)
Lemma recompute_pass n rest m0 g mh g' err :
  passInv m0 (mem g) (recomputeHeap g) mh (n :: rest) →
  recompute n g = Ret (g', err) →
  passInv m0 (mem g') (recomputeHeap g') mh rest.
Proof.
  intros Hinv. unfold recompute. simpl.
  match goal with |- context [alter ?f n (mem g)] => set (f1 := f) end.
  assert (passInv m0 (alter f1 n (mem g)) (recomputeHeap g) mh rest) as Hinv1.
  { apply passInv_count; [done|done|exact Hinv]. }
  destruct (maybeCutoff (alter f1 n (mem g) n) (world g)) as [w3 [shouldCutoff e3]].
  destruct e3 as [e3|]; [intros [= <- <-]; exact Hinv1|].
  destruct shouldCutoff; [intros [= <- <-]; exact Hinv1|].
  simpl.
  match goal with |- context [alter ?f n (alter f1 n (mem g))] => set (f2 := f) end.
  assert (passInv m0 (alter f2 n (alter f1 n (mem g))) (recomputeHeap g) mh rest) as Hinv2.
  { apply passInv_touch; [done|done|exact Hinv1]. }
  destruct (maybeStabilize (alter f2 n (alter f1 n (mem g)) n) w3) as [w6 e6].
  destruct e6 as [e6|]; [intros [= <- <-]; exact Hinv2|].
  simpl.
  match goal with |- context [alter ?f n (alter f2 n (alter f1 n (mem g)))] =>
    set (f3 := f) end.
  set (m3 := alter f3 n (alter f2 n (alter f1 n (mem g)))).
  assert (passInv m0 m3 (recomputeHeap g) mh rest) as Hinv3.
  { apply passInv_touch; [done|done|exact Hinv2]. }
  match goal with |- context [enqueue (children (mem _ n)) ?gb] => set (g8 := gb) end.
  assert (mem g8 = m3 ∧ recomputeHeap g8 = recomputeHeap g) as [Hm8 Hr8].
  { unfold g8. case_decide; done. }
  intros (g9 & Hc & (g10 & Ho & [= <- <-])%run_bind_ret)%run_bind_ret.
  assert (height (m0 n) = mh) as Hhn by (apply (pi_todo _ _ _ _ _ Hinv); left).
  assert (passInv m0 (mem g9) (recomputeHeap g9) mh rest) as Hinv9.
  { eapply enqueue_pass; [|  |exact Hc].
    - rewrite Hm8, Hr8. exact Hinv3.
    - intros c Hcin. rewrite Hm8 in Hcin.
      pose proof (gok_children _ _ (pi_ok _ _ _ _ _ Hinv3) n c Hcin) as Hlt.
      destruct (shape_fields _ _ (pi_shape _ _ _ _ _ Hinv3 n)) as (_&_&Hh1&_).
      destruct (shape_fields _ _ (pi_shape _ _ _ _ _ Hinv3 c)) as (_&_&Hh2&_).
      lia. }
  eapply enqueue_pass; [exact Hinv9| |exact Ho].
  intros o Hoin. apply mapOrder_elem in Hoin.
  pose proof (gok_observers _ _ (pi_ok _ _ _ _ _ Hinv9) n o Hoin) as Hlt.
  destruct (shape_fields _ _ (pi_shape _ _ _ _ _ Hinv9 n)) as (_&_&Hh1&_).
  destruct (shape_fields _ _ (pi_shape _ _ _ _ _ Hinv9 o)) as (_&_&Hh2&_).
  lia.
Qed.

(** What [recompute] writes, whatever the state of the graph: shapes stay, and
    only the recomputed node is counted. *)
Lemma recompute_frame n g g' err :
  recompute n g = Ret (g', err) →
  (∀ id, shape (mem g' id) = shape (mem g id)) ∧
  (∀ id, id ≠ n → numRecomputes (mem g' id) = numRecomputes (mem g id)) ∧
  numRecomputes (mem g' n) = uint64 (numRecomputes (mem g n) + 1).
Proof.
  unfold recompute. simpl.
  match goal with |- context [alter ?f n (mem g)] => set (f1 := f) end.
  assert ((∀ id, shape (alter f1 n (mem g) id) = shape (mem g id)) ∧
          (∀ id, id ≠ n → numRecomputes (alter f1 n (mem g) id) = numRecomputes (mem g id)) ∧
          numRecomputes (alter f1 n (mem g) n) = uint64 (numRecomputes (mem g n) + 1)) as H1.
  { split_and!.
    - apply (quiet_alter f1 n (mem g)). done.
    - intros id Hid. by rewrite fn_lookup_alter_ne.
    - by rewrite fn_lookup_alter. }
  destruct (maybeCutoff (alter f1 n (mem g) n) (world g)) as [w3 [shouldCutoff e3]].
  destruct e3 as [e3|]; [intros [= <- <-]; exact H1|].
  destruct shouldCutoff; [intros [= <- <-]; exact H1|].
  simpl.
  match goal with |- context [alter ?f n (alter f1 n (mem g))] => set (f2 := f) end.
  set (m2 := alter f2 n (alter f1 n (mem g))).
  assert ((∀ id, shape (m2 id) = shape (mem g id)) ∧
          (∀ id, id ≠ n → numRecomputes (m2 id) = numRecomputes (mem g id)) ∧
          numRecomputes (m2 n) = uint64 (numRecomputes (mem g n) + 1)) as H2.
  { destruct H1 as (Ha & Hb & Hc). unfold m2. split_and!.
    - intros id. rewrite <-Ha. apply (quiet_alter f2 n _). done.
    - intros id Hid. rewrite fn_lookup_alter_ne by done. auto.
    - rewrite fn_lookup_alter. exact Hc. }
  destruct (maybeStabilize (m2 n) w3) as [w6 e6].
  destruct e6 as [e6|]; [intros [= <- <-]; exact H2|].
  simpl.
  match goal with |- context [alter ?f n m2] => set (f3 := f) end.
  set (m3 := alter f3 n m2).
  assert ((∀ id, shape (m3 id) = shape (mem g id)) ∧
          (∀ id, id ≠ n → numRecomputes (m3 id) = numRecomputes (mem g id)) ∧
          numRecomputes (m3 n) = uint64 (numRecomputes (mem g n) + 1)) as H3.
  { destruct H2 as (Ha & Hb & Hc). unfold m3. split_and!.
    - intros id. rewrite <-Ha. apply (quiet_alter f3 n _). done.
    - intros id Hid. rewrite fn_lookup_alter_ne by done. auto.
    - rewrite fn_lookup_alter. exact Hc. }
  match goal with |- context [enqueue (children (mem _ n)) ?gb] => set (g8 := gb) end.
  assert (mem g8 = m3) as Hm8 by (unfold g8; case_decide; done).
  intros (g9 & Hc & (g10 & Ho & [= <- <-])%run_bind_ret)%run_bind_ret.
  apply enqueue_frame in Hc as [Hu9 _]. apply enqueue_frame in Ho as [Hu10 _].
  destruct H3 as (Ha & Hb & Hcn).
  assert (∀ id, unmarked (mem g10 id) = unmarked (m3 id)) as Hu.
  { intros id. by rewrite Hu10, Hu9, Hm8. }
  split_and!.
  - intros id. destruct (unmarked_shape _ _ (Hu id)) as [-> _]. done.
  - intros id Hid. destruct (unmarked_shape _ _ (Hu id)) as [_ ->]. auto.
  - destruct (unmarked_shape _ _ (Hu n)) as [_ ->]. done.
Qed.

End PassSteps.

Section PassRun.
Context {World UserError : Type} `{MapIter} `{NodePredicates World UserError}.
Implicit Types (g : Graph World UserError) (m : Mem World UserError)
  (rh : recomputeHeap.t).

Lemma recomputeBatch_pass todo m0 g mh imm g' err imm' :
  passInv m0 (mem g) (recomputeHeap g) mh todo →
  recomputeBatch todo g imm = Ret (g', err, imm') →
  ∃ rest, passInv m0 (mem g') (recomputeHeap g') mh rest ∧ (err = None → rest = []).
Proof.
  revert g imm. induction todo as [|n todo IH]; intros g imm Hinv; simpl.
  - intros [= <- <- <-]. eauto.
  - intros ([g1 e1] & Hrec & Hrest)%run_bind_ret.
    pose proof (recompute_pass _ _ _ _ _ _ _ Hinv Hrec) as Hinv1.
    destruct e1 as [e1|].
    + injection Hrest as <- <- <-. exists todo. split; [done|discriminate].
    + eapply IH; done.
Qed.

Lemma drain_pass fuel m0 g mh imm g' err imm' :
  passInv m0 (mem g) (recomputeHeap g) mh [] →
  drain fuel g imm = Ret (g', err, imm') →
  ∃ mh' rest, passInv m0 (mem g') (recomputeHeap g') mh' rest.
Proof.
  revert g mh imm. induction fuel as [|fuel IH]; intros g mh imm Hinv; simpl.
  - case_decide; [done|]. intros [= <- <- <-]. eauto.
  - case_decide; [|intros [= <- <- <-]; eauto].
    intros ([[next m1] rh1] & Hpop & Hrest)%run_bind_ret.
    apply run_bind_ret in Hrest as ([[g2 e2] imm2] & Hbatch & Hrest).
    destruct (removeMinHeight_pass _ _ _ _ _ _ _ Hinv Hpop) as [mh1 Hinv1].
    destruct (recomputeBatch_pass next m0 (set_recomputeHeap rh1 (set_mem m1 g)) mh1
                _ _ _ _ Hinv1 Hbatch) as (rest & Hinv2 & Hnil).
    destruct e2 as [e2|].
    + injection Hrest as <- <- <-. eauto.
    + rewrite Hnil in Hinv2 by done. eapply IH; done.
Qed.

Lemma recomputeBatch_remembered todo m0 g imm g' err imm' :
  (∀ id, shape (mem g id) = shape (m0 id)) →
  remembered m0 (mem g) imm →
  recomputeBatch todo g imm = Ret (g', err, imm') →
  (∀ id, shape (mem g' id) = shape (m0 id)) ∧
  (err = None → remembered m0 (mem g') imm').
Proof.
  revert g imm. induction todo as [|n todo IH]; intros g imm Hs Hrem; simpl.
  - intros [= <- <- <-]. done.
  - intros ([g1 e1] & Hrec & Hrest)%run_bind_ret.
    apply recompute_frame in Hrec as (Hs1 & Hn1 & _).
    assert (∀ id, shape (mem g1 id) = shape (m0 id)) as Hs1'
      by (intros id; by rewrite Hs1).
    destruct e1 as [e1|].
    + injection Hrest as <- <- <-. split; [done|discriminate].
    + eapply IH; [done| |exact Hrest].
      intros id Ha Hne. destruct (decide (id = n)) as [->|Hid].
      * destruct (shape_fields _ _ (Hs1' n)) as (_&_&_&->). rewrite Ha. set_solver.
      * rewrite Hn1 in Hne by done. specialize (Hrem id Ha Hne).
        destruct (always (mem g1 n)); set_solver.
Qed.

Lemma drain_remembered fuel m0 g imm g' err imm' :
  (∀ id, shape (mem g id) = shape (m0 id)) →
  remembered m0 (mem g) imm →
  drain fuel g imm = Ret (g', err, imm') →
  err = None → remembered m0 (mem g') imm'.
Proof.
  revert g imm. induction fuel as [|fuel IH]; intros g imm Hs Hrem; simpl.
  - case_decide; [done|]. intros [= <- <- <-]. done.
  - case_decide; [|intros [= <- <- <-]; done].
    intros ([[next m1] rh1] & Hpop & Hrest)%run_bind_ret.
    apply run_bind_ret in Hrest as ([[g2 e2] imm2] & Hbatch & Hrest).
    pose proof (removeMinHeight_frame _ _ _ _ _ Hpop) as Hu.
    apply recomputeBatch_remembered with (m0 := m0) in Hbatch as [Hs2 Hrem2].
    + destruct e2 as [e2|].
      * injection Hrest as <- <- <-. done.
      * eapply IH; [exact Hs2|by apply Hrem2|exact Hrest].
    + intros id. simpl. destruct (unmarked_shape _ _ (Hu id)) as [-> _]. done.
    + intros id Ha. simpl. destruct (unmarked_shape _ _ (Hu id)) as [_ ->]. by apply Hrem.
Qed.

Lemma SetStale_numRecomputes n g g' :
  SetStale n g = Ret g' →
  ∀ id, numRecomputes (mem g' id) = numRecomputes (mem g id).
Proof.
  unfold SetStale.
  set (g1 := set_mem _ g).
  assert (∀ id, numRecomputes (mem g1 id) = numRecomputes (mem g id)) as H1.
  { intros id. unfold g1. simpl. destruct (decide (n = id)) as [->|Hne].
    - by rewrite fn_lookup_alter.
    - by rewrite fn_lookup_alter_ne. }
  case_decide.
  - intros (Hu & _)%heapAdd_ret id. destruct (unmarked_shape _ _ (Hu id)) as [_ ->]. done.
  - intros [= <-]. done.
Qed.

Lemma handleAllSetDuringStabilization_numRecomputes ns g g' :
  handleAllSetDuringStabilization ns g = Ret g' →
  ∀ id, numRecomputes (mem g' id) = numRecomputes (mem g id).
Proof.
  revert g. induction ns as [|a ns IH]; intros g; simpl.
  - intros [= <-]. done.
  - intros (g1 & Hone & Hrest)%run_bind_ret.
    unfold handleSetDuringStabilization in Hone.
    destruct (maybeStabilize (mem g a) (world g)) as [w e].
    pose proof (SetStale_numRecomputes _ _ _ Hone) as H1. simpl in H1.
    intros id. rewrite (IH _ Hrest). apply H1.
Qed.

Lemma stabilizeEnd_numRecomputes err g g' :
  stabilizeEnd err g = Ret g' →
  ∀ id, numRecomputes (mem g' id) = numRecomputes (mem g id).
Proof.
  unfold stabilizeEnd, stabilizeEndHandleSetDuringStabilization.
  intros (g4 & (g5 & Hall & [= <-])%run_bind_ret & [= <-])%run_bind_ret. simpl.
  intros id. rewrite (handleAllSetDuringStabilization_numRecomputes _ _ _ Hall). done.
Qed.

(** A well-formed graph satisfies the invariant before the first batch. *)
Lemma passInv_start m rh : graphOK m rh → passInv m m rh (-1) [].
Proof.
  intros Hok. split; try done.
  - intros id. by left.
  - intros id Hid. rewrite (gok_height _ _ Hok id Hid).
    pose proof (ok_range _ _ (gok_heap _ _ Hok) id Hid).
    pose proof (ok_min _ _ (gok_heap _ _ Hok)). lia.
  - intros id Hid. by apply elem_of_nil in Hid.
  - apply NoDup_nil_2.
Qed.

(** Enqueuing nodes that are out of the heap keeps the graph well formed. *)
Lemma heapAdd_graphOK nodes g g' :
  graphOK (mem g) (recomputeHeap g) →
  NoDup nodes →
  (∀ c, c ∈ nodes → heightInRecomputeHeap (mem g c) = heightUnset ∧ 0 <= height (mem g c)) →
  heapAdd nodes g = Ret g' →
  graphOK (mem g') (recomputeHeap g').
Proof.
  unfold heapAdd. intros Hok Hnd Hall ([m1 rh1] & Hadd & [= <-])%run_bind_ret. simpl.
  revert Hok Hall Hadd. generalize (mem g) (recomputeHeap g). clear g.
  induction nodes as [|c nodes IH]; intros m rh Hok Hall; simpl.
  - intros [= <- <-]. done.
  - intros ([m2 rh2] & Hone & Hrest)%run_bind_ret.
    destruct (Hall c ltac:(left)) as [Hmark Hh].
    destruct (graphOK_add c m rh m2 rh2 Hok Hmark Hh) as (Hok2 & Hl2 & Hu2).
    { unfold recomputeHeap.add. simpl. by rewrite Hone. }
    apply (IH (NoDup_cons_1_2 _ _ Hnd) m2 rh2 Hok2); [|done].
    intros c' Hc'. destruct (Hall c' ltac:(by right)) as [Hmark' Hh'].
    apply addNodeUnsafe_ret in Hone as [-> _].
    rewrite fn_lookup_alter_ne; [done|].
    intros ->. by apply (NoDup_cons_1_1 _ _ Hnd).
Qed.

(** Whatever [Stabilize] returns on a well-formed graph, a node marked
    [always] was recomputed at most once; once recomputed it is out of the
    heap until the drain loop has ended, and the nodes remembered in
    [immediateRecompute] are in the heap again at the end. *)
Lemma Stabilize_recomputes_once fuel g g' err n :
  graphOK (mem g) (recomputeHeap g) →
  status g = StatusNotStabilizing →
  always (mem g n) = true →
  Stabilize fuel g = Ret (g', err) →
  (numRecomputes (mem g' n) = numRecomputes (mem g n) ∨
   numRecomputes (mem g' n) = uint64 (numRecomputes (mem g n) + 1)) ∧
  ∃ g2 immediateRecompute,
    drain fuel (stabilizeStart g) [] = Ret (g2, err, immediateRecompute) ∧
    numRecomputes (mem g' n) = numRecomputes (mem g2 n) ∧
    (numRecomputes (mem g2 n) ≠ numRecomputes (mem g n) →
       n ∉ recomputeHeap.lookup (recomputeHeap g2)) ∧
    (err = None → numRecomputes (mem g2 n) ≠ numRecomputes (mem g n) →
       n ∈ immediateRecompute) ∧
    (n ∈ immediateRecompute → n ∈ recomputeHeap.lookup (recomputeHeap g')).
Proof.
  intros Hok Hst Halways. unfold Stabilize, ensureNotStabilizing.
  rewrite decide_False by (rewrite Hst; auto).
  intros ([[g2 e2] imm] & Hdrain & Hrest)%run_bind_ret.
  apply run_bind_ret in Hrest as (g3 & Hadd & Hrest).
  apply run_bind_ret in Hrest as (g4 & Hend & [= <- <-]).
  destruct (drain_pass fuel (mem g) (stabilizeStart g) (-1) [] g2 e2 imm) as (mh & rest & Hinv).
  { simpl. by apply passInv_start. }
  { done. }
  pose proof (drain_remembered fuel (mem g) (stabilizeStart g) [] g2 e2 imm) as Hrem.
  pose proof (heapAdd_ret _ _ _ Hadd) as (Hu3 & _ & Hl3 & _).
  pose proof (stabilizeEnd_numRecomputes _ _ _ Hend) as Hn4.
  pose proof (stabilizeEnd_ret _ _ _ Hend) as (_ & _ & _ & Hl4 & _).
  assert (numRecomputes (mem g4 n) = numRecomputes (mem g2 n)) as Hsame.
  { rewrite Hn4. by destruct (unmarked_shape _ _ (Hu3 n)) as [_ ->]. }
  split; [rewrite Hsame; apply (pi_once _ _ _ _ _ Hinv)|].
  exists g2, imm. split_and!; try done.
  - intros Hne Hin. apply Hne, (pi_fresh _ _ _ _ _ Hinv). left.
    by apply (pi_queued _ _ _ _ _ Hinv).
  - intros -> Hne. apply Hrem; try done. intros id _ Hid. done.
  - intros Hin. apply Hl4. rewrite Hl3. set_solver.
Qed.

(** *** The pass returns *)

(** In a consistent heap with an empty lookup table every bucket is empty. *)
Lemma bucket_of_empty_heap m rh x :
  heapOK m rh → recomputeHeap.lookup rh = ∅ → bucket rh x = ∅.
Proof.
  intros Hok Hemp. apply leibniz_equiv, elem_of_equiv_empty. intros id Hid.
  destruct (ok_bucket _ _ Hok x id Hid) as [Hin _]. rewrite Hemp in Hin.
  by apply not_elem_of_empty in Hin.
Qed.

(** Enqueuing a node keeps [minHeight] at the smallest height in use. *)
Lemma add_settled c m rh m' rh' :
  heapOK m rh → minHeightSettled rh → 0 <= height (m c) →
  recomputeHeap.add [c] m rh = Ret (m', rh') →
  minHeightSettled rh'.
Proof.
  intros Hok Hset Hh Hadd.
  destruct (addNodeUnsafe_spec c m rh Hh) as (rh1 & Hrun & Hl & Hb & Hmin & _).
  unfold recomputeHeap.add in Hadd. simpl in Hadd. rewrite Hrun in Hadd. simpl in Hadd.
  injection Hadd as _ <-.
  right. split; [rewrite Hl; set_solver|].
  rewrite Hmin. unfold recomputeHeap.maybeUpdateMinMaxHeights.
  destruct Hset as [[Hemp _]|(Hne & Hbne & Hbelow)].
  - rewrite decide_True by (by rewrite Hemp, size_empty). simpl. split.
    + rewrite Hb, decide_True by done. set_solver.
    + intros x Hx. rewrite Hb, decide_False by lia.
      by eapply bucket_of_empty_heap.
  - rewrite decide_False by (by rewrite size_zero_empty).
    destruct (decide (recomputeHeap.minHeight rh > height (m c))) as [Hgt|Hle]; simpl.
    + assert (recomputeHeap.minHeight
                (if decide (recomputeHeap.maxHeight rh < height (m c))
                 then recomputeHeap.set_maxHeight (height (m c))
                        (recomputeHeap.set_minHeight (height (m c)) rh)
                 else recomputeHeap.set_minHeight (height (m c)) rh) = height (m c)) as ->
        by (by case_decide).
      split.
      * rewrite Hb, decide_True by done. set_solver.
      * intros x Hx. rewrite Hb, decide_False by lia. apply Hbelow. lia.
    + assert (recomputeHeap.minHeight
                (if decide (recomputeHeap.maxHeight rh < height (m c))
                 then recomputeHeap.set_maxHeight (height (m c)) rh
                 else rh) = recomputeHeap.minHeight rh) as ->
        by (by case_decide).
      split.
      * rewrite Hb. case_decide; [|done]. set_solver.
      * intros x Hx. rewrite Hb, decide_False by lia. by apply Hbelow.
Qed.

(** The enqueuing loops of [recompute] return. *)
Lemma enqueue_progress cs m0 g mh todo :
  passInv m0 (mem g) (recomputeHeap g) mh todo →
  minHeightSettled (recomputeHeap g) →
  (∀ c, c ∈ cs → mh < height (m0 c)) →
  ∃ g', enqueue cs g = Ret g' ∧
        minHeightSettled (recomputeHeap g') ∧
        setDuringStabilization g' = setDuringStabilization g.
Proof.
  revert g. induction cs as [|c cs IH]; intros g Hinv Hset Hcs; simpl; [eauto|].
  assert (∃ g1, (if isNecessary (mem g) c && isStale (mem g) c
                    && bool_decide (heightInRecomputeHeap (mem g c) = heightUnset)
                 then heapAdd [c] g else Ret g) = Ret g1 ∧
                minHeightSettled (recomputeHeap g1) ∧
                setDuringStabilization g1 = setDuringStabilization g)
    as (g1 & Hstep & Hset1 & Hsd1).
  { destruct (isNecessary (mem g) c && isStale (mem g) c
              && bool_decide (heightInRecomputeHeap (mem g c) = heightUnset)); [|eauto].
    assert (0 <= height (mem g c)) as Hh.
    { destruct (shape_fields _ _ (pi_shape _ _ _ _ _ Hinv c)) as (_&_&->&_).
      pose proof (pi_level _ _ _ _ _ Hinv). pose proof (Hcs c ltac:(left)). lia. }
    destruct (heapAdd_total [c] g) as [g1 Hadd].
    { intros c' Hc'. apply elem_of_cons in Hc' as [->|Hc']; [done|].
      by apply elem_of_nil in Hc'. }
    exists g1. split; [done|].
    pose proof (heapAdd_ret _ _ _ Hadd) as (_ & _ & _ & _ & Hsd & _).
    split; [|done].
    unfold heapAdd in Hadd. apply run_bind_ret in Hadd as ([m1 rh1] & Hadd & [= <-]).
    simpl. eapply add_settled; [|done|done|exact Hadd].
    apply (gok_heap _ _ (pi_ok _ _ _ _ _ Hinv)). }
  rewrite Hstep. simpl.
  destruct (IH g1) as (g' & Hrun & Hset' & Hsd'); [|done|intros c' Hc'; apply Hcs; by right|].
  - apply (enqueue_pass [c] m0 g mh todo g1 Hinv).
    + intros c' Hc'. apply Hcs. apply elem_of_cons in Hc' as [->|Hc']; [by left|].
      by apply elem_of_nil in Hc'.
    + simpl. rewrite Hstep. done.
  - exists g'. split; [done|]. split; [done|]. congruence.
Qed.

(** One [recompute] of the head of the to-do list returns. *)
Lemma recompute_progress n rest m0 g mh :
  passInv m0 (mem g) (recomputeHeap g) mh (n :: rest) →
  minHeightSettled (recomputeHeap g) →
  ∃ g' err, recompute n g = Ret (g', err) ∧
            minHeightSettled (recomputeHeap g') ∧
            setDuringStabilization g' = setDuringStabilization g.
Proof.
  intros Hinv Hset. unfold recompute. simpl.
  match goal with |- context [alter ?f n (mem g)] => set (f1 := f) end.
  assert (passInv m0 (alter f1 n (mem g)) (recomputeHeap g) mh rest) as Hinv1.
  { apply passInv_count; [done|done|exact Hinv]. }
  destruct (maybeCutoff (alter f1 n (mem g) n) (world g)) as [w3 [shouldCutoff e3]].
  destruct e3 as [e3|]; [eexists _, _; split; [reflexivity|done]|].
  destruct shouldCutoff; [eexists _, _; split; [reflexivity|done]|].
  simpl.
  match goal with |- context [alter ?f n (alter f1 n (mem g))] => set (f2 := f) end.
  assert (passInv m0 (alter f2 n (alter f1 n (mem g))) (recomputeHeap g) mh rest) as Hinv2.
  { apply passInv_touch; [done|done|exact Hinv1]. }
  destruct (maybeStabilize (alter f2 n (alter f1 n (mem g)) n) w3) as [w6 e6].
  destruct e6 as [e6|]; [eexists _, _; split; [reflexivity|done]|].
  simpl.
  match goal with |- context [alter ?f n (alter f2 n (alter f1 n (mem g)))] =>
    set (f3 := f) end.
  set (m3 := alter f3 n (alter f2 n (alter f1 n (mem g)))).
  assert (passInv m0 m3 (recomputeHeap g) mh rest) as Hinv3.
  { apply passInv_touch; [done|done|exact Hinv2]. }
  match goal with |- context [enqueue (children (mem _ n)) ?gb] => set (g8 := gb) end.
  assert (mem g8 = m3 ∧ recomputeHeap g8 = recomputeHeap g ∧
          setDuringStabilization g8 = setDuringStabilization g) as (Hm8 & Hr8 & Hsd8).
  { unfold g8. case_decide; done. }
  assert (height (m0 n) = mh) as Hhn by (apply (pi_todo _ _ _ _ _ Hinv); left).
  assert (∀ c, c ∈ children (mem g8 n) → mh < height (m0 c)) as Hcs.
  { intros c Hcin. rewrite Hm8 in Hcin.
    pose proof (gok_children _ _ (pi_ok _ _ _ _ _ Hinv3) n c Hcin) as Hlt.
    destruct (shape_fields _ _ (pi_shape _ _ _ _ _ Hinv3 n)) as (_&_&Hh1&_).
    destruct (shape_fields _ _ (pi_shape _ _ _ _ _ Hinv3 c)) as (_&_&Hh2&_).
    lia. }
  destruct (enqueue_progress (children (mem g8 n)) m0 g8 mh rest)
    as (g9 & Hc & Hset9 & Hsd9); [by rewrite Hm8, Hr8|by rewrite Hr8|done|].
  rewrite Hc. simpl.
  assert (passInv m0 (mem g9) (recomputeHeap g9) mh rest) as Hinv9.
  { eapply enqueue_pass; [|exact Hcs|exact Hc]. rewrite Hm8, Hr8. exact Hinv3. }
  destruct (enqueue_progress (mapOrder (observers (mem g9 n))) m0 g9 mh rest)
    as (g10 & Ho & Hset10 & Hsd10); [done|done| |].
  { intros o Hoin. apply mapOrder_elem in Hoin.
    pose proof (gok_observers _ _ (pi_ok _ _ _ _ _ Hinv9) n o Hoin) as Hlt.
    destruct (shape_fields _ _ (pi_shape _ _ _ _ _ Hinv9 n)) as (_&_&Hh1&_).
    destruct (shape_fields _ _ (pi_shape _ _ _ _ _ Hinv9 o)) as (_&_&Hh2&_).
    lia. }
  rewrite Ho. simpl. eexists _, _. split; [reflexivity|]. split; [done|]. congruence.
Qed.

(** A batch returns; what it remembers comes from the batch. *)
Lemma recomputeBatch_progress todo m0 g mh imm :
  passInv m0 (mem g) (recomputeHeap g) mh todo →
  minHeightSettled (recomputeHeap g) →
  ∃ g' err imm',
    recomputeBatch todo g imm = Ret (g', err, imm') ∧
    minHeightSettled (recomputeHeap g') ∧
    setDuringStabilization g' = setDuringStabilization g ∧
    (∀ id, id ∈ imm' → id ∈ imm ∨ id ∈ todo).
Proof.
  revert g imm. induction todo as [|n todo IH]; intros g imm Hinv Hset; simpl.
  - eexists _, _, _. split; [reflexivity|]. split_and!; auto.
  - destruct (recompute_progress n todo m0 g mh Hinv Hset) as (g1 & e1 & Hrec & Hset1 & Hsd1).
    rewrite Hrec. simpl.
    pose proof (recompute_pass _ _ _ _ _ _ _ Hinv Hrec) as Hinv1.
    destruct e1 as [e1|].
    + eexists _, _, _. split; [reflexivity|]. split_and!; auto.
    + destruct (IH g1 (if always (mem g1 n) then imm ++ [n] else imm) Hinv1 Hset1)
        as (g' & err & imm' & Hrun & Hset' & Hsd' & Himm').
      exists g', err, imm'. split; [done|]. split; [done|]. split; [congruence|].
      intros id Hid. destruct (Himm' id Hid) as [Hin|Hin]; [|right; by right].
      destruct (always (mem g1 n)); [|by left].
      apply elem_of_app in Hin as [Hin|Hin]; [by left|].
      apply elem_of_cons in Hin as [->|Hin]; [right; by left|].
      by apply elem_of_nil in Hin.
Qed.

(** The drain loop returns within [top - mh] batches, [top] being a bound on
    the heights of the graph. *)
Lemma drain_progress fuel m0 g mh imm top :
  passInv m0 (mem g) (recomputeHeap g) mh [] →
  minHeightSettled (recomputeHeap g) →
  (∀ id, height (m0 id) <= top) →
  (∀ id, id ∈ imm → 0 <= height (m0 id)) →
  (Z.to_nat (top - mh) <= fuel)%nat →
  ∃ g' err imm',
    drain fuel g imm = Ret (g', err, imm') ∧
    setDuringStabilization g' = setDuringStabilization g ∧
    (∀ id, id ∈ imm' → 0 <= height (m0 id)).
Proof.
  revert g mh imm. induction fuel as [|fuel IH]; intros g mh imm Hinv Hset Htop Himm Hfuel.
  - simpl. case_decide as Hsz; [|eexists _, _, _; split; [reflexivity|done]].
    exfalso. destruct Hset as [[Hemp _]|(Hne & _)].
    + rewrite Hemp, size_empty in Hsz. lia.
    + destruct (set_choose_L _ Hne) as [k Hk].
      pose proof (pi_queued _ _ _ _ _ Hinv k Hk). pose proof (Htop k). lia.
  - simpl. case_decide as Hsz; [|eexists _, _, _; split; [reflexivity|done]].
    destruct Hset as [[Hemp _]|(Hne & Hbne & _)].
    { rewrite Hemp, size_empty in Hsz. lia. }
    pose proof (gok_heap _ _ (pi_ok _ _ _ _ _ Hinv)) as Hok.
    destruct (removeMinHeight_spec (mem g) (recomputeHeap g) Hok Hbne)
      as (m1 & rh1 & Hpop & Hset1 & _).
    rewrite Hpop. simpl.
    destruct (removeMinHeight_pass _ _ _ _ _ _ _ Hinv Hpop) as [mh1 Hinv1].
    assert (mh < mh1 <= top) as Hmh.
    { destruct (set_choose_L _ Hbne) as [k Hk].
      assert (height (m0 k) = mh1) as <-
        by (apply (pi_todo _ _ _ _ _ Hinv1); by apply mapOrder_elem).
      split; [|apply Htop]. apply (pi_queued _ _ _ _ _ Hinv).
      by destruct (ok_bucket _ _ Hok _ _ Hk). }
    destruct (recomputeBatch_progress _ m0 (set_recomputeHeap rh1 (set_mem m1 g)) mh1 imm
                Hinv1 Hset1) as (g2 & e2 & imm2 & Hbatch & Hset2 & Hsd2 & Himm2).
    rewrite Hbatch. simpl.
    assert (∀ id, id ∈ imm2 → 0 <= height (m0 id)) as Himm2'.
    { intros id Hid. destruct (Himm2 id Hid) as [Hin|Hin]; [by apply Himm|].
      rewrite (pi_todo _ _ _ _ _ Hinv1 id Hin).
      pose proof (pi_level _ _ _ _ _ Hinv). lia. }
    destruct e2 as [e2|]; [eexists _, _, _; split; [reflexivity|done]|].
    destruct (recomputeBatch_pass _ m0 (set_recomputeHeap rh1 (set_mem m1 g)) mh1 _ _ _ _
                Hinv1 Hbatch) as (rest & Hinv2 & Hnil).
    rewrite Hnil in Hinv2 by done.
    destruct (IH g2 mh1 imm2 Hinv2 Hset2 Htop Himm2' ltac:(lia))
      as (g' & err & imm' & Hrun & Hsd' & Himm').
    exists g', err, imm'. split; [done|]. split; [rewrite Hsd'; exact Hsd2|done].
Qed.

(** [Stabilize] returns on a well-formed graph of bounded height. *)
Lemma Stabilize_total fuel g top :
  graphOK (mem g) (recomputeHeap g) →
  minHeightSettled (recomputeHeap g) →
  status g = StatusNotStabilizing →
  (∀ id, height (mem g id) <= top) →
  (∀ id, id ∈ setDuringStabilization g → 0 <= height (mem g id)) →
  (Z.to_nat (top + 1) <= fuel)%nat →
  ∃ g' err, Stabilize fuel g = Ret (g', err).
Proof.
  intros Hok Hset Hst Htop Hsd Hfuel. unfold Stabilize, ensureNotStabilizing.
  rewrite decide_False by (rewrite Hst; auto).
  destruct (drain_progress fuel (mem g) (stabilizeStart g) (-1) [] top)
    as (g2 & e2 & imm & Hdrain & Hsd2 & Himm).
  { simpl. by apply passInv_start. }
  { exact Hset. }
  { exact Htop. }
  { intros id Hid. by apply elem_of_nil in Hid. }
  { replace (top - -1) with (top + 1) by lia. exact Hfuel. }
  rewrite Hdrain. simpl.
  destruct (drain_pass fuel (mem g) (stabilizeStart g) (-1) [] g2 e2 imm) as (mh & rest & Hinv).
  { simpl. by apply passInv_start. }
  { done. }
  assert (∀ id, height (mem g2 id) = height (mem g id)) as Hh2.
  { intros id. by destruct (shape_fields _ _ (pi_shape _ _ _ _ _ Hinv id)) as (_&_&->&_). }
  destruct (heapAdd_total imm g2) as [g3 Hadd].
  { intros id Hid. rewrite Hh2. by apply Himm. }
  rewrite Hadd. simpl.
  pose proof (heapAdd_ret _ _ _ Hadd) as (Hu3 & _ & _ & _ & Hsd3 & _).
  destruct (stabilizeEnd_total e2 g3) as [g4 Hend].
  { intros id Hid. destruct (unmarked_fields _ _ (Hu3 id)) as (_&_&_&->&_).
    rewrite Hh2. apply Hsd. rewrite Hsd3, Hsd2 in Hid. exact Hid. }
  rewrite Hend. simpl. eauto.
Qed.

(** C8: on a well-formed graph of bounded height, one call to [Stabilize]
    returns, and a node marked [always] is recomputed at most once in it
    ([numRecomputes] advances by zero or one), whatever its inputs do during
    the pass; once recomputed it is out of the heap until the drain loop has
    ended, and the nodes remembered in [immediateRecompute] (every always-node
    recomputed in a pass that did not fail) are in the heap again when
    [Stabilize] returns. *)
Theorem always_node_recomputed_at_most_once fuel g n top :
  graphOK (mem g) (recomputeHeap g) →
  minHeightSettled (recomputeHeap g) →
  status g = StatusNotStabilizing →
  (∀ id, height (mem g id) <= top) →
  (∀ id, id ∈ setDuringStabilization g → 0 <= height (mem g id)) →
  (Z.to_nat (top + 1) <= fuel)%nat →
  always (mem g n) = true →
  ∃ g' err g2 immediateRecompute,
    Stabilize fuel g = Ret (g', err) ∧
    (numRecomputes (mem g' n) = numRecomputes (mem g n) ∨
     numRecomputes (mem g' n) = uint64 (numRecomputes (mem g n) + 1)) ∧
    drain fuel (stabilizeStart g) [] = Ret (g2, err, immediateRecompute) ∧
    numRecomputes (mem g' n) = numRecomputes (mem g2 n) ∧
    (numRecomputes (mem g2 n) ≠ numRecomputes (mem g n) →
       n ∉ recomputeHeap.lookup (recomputeHeap g2)) ∧
    (err = None → numRecomputes (mem g2 n) ≠ numRecomputes (mem g n) →
       n ∈ immediateRecompute) ∧
    (n ∈ immediateRecompute → n ∈ recomputeHeap.lookup (recomputeHeap g')).
Proof.
  intros Hok Hset Hst Htop Hsd Hfuel Halways.
  destruct (Stabilize_total fuel g top Hok Hset Hst Htop Hsd Hfuel) as (g' & err & Hrun).
  destruct (Stabilize_recomputes_once fuel g g' err n Hok Hst Halways Hrun)
    as (Honce & g2 & imm & Hrest).
  exists g', err, g2, imm. split; [done|]. split; [done|]. exact Hrest.
Qed.

End PassRun.

(** ** Facts about linking *)

Section LinkingFacts.
Context {World UserError : Type}.
Implicit Types (m : Mem World UserError) (s : @Store World UserError).

Lemma elem_of_Push id k l : k ∈ Push id l ↔ k = id ∨ k ∈ l.
Proof. unfold Push. case_decide; set_solver. Qed.

Lemma elem_of_RemoveKey id k l : k ∈ RemoveKey id l ↔ k ≠ id ∧ k ∈ l.
Proof. unfold RemoveKey. rewrite list_elem_of_filter. done. Qed.

Lemma Link_children child input m p :
  children (Link child input m p)
  = if decide (p = input) then Push child (children (m p)) else children (m p).
Proof.
  unfold Link. destruct (decide (child = p)) as [->|Hc].
  - rewrite fn_lookup_alter. simpl. destruct (decide (input = p)) as [->|Hi].
    + rewrite fn_lookup_alter, decide_True by done. done.
    + rewrite fn_lookup_alter_ne by done. by rewrite decide_False.
  - rewrite fn_lookup_alter_ne by done. destruct (decide (input = p)) as [->|Hi].
    + rewrite fn_lookup_alter, decide_True by done. done.
    + rewrite fn_lookup_alter_ne by done. by rewrite decide_False.
Qed.

Lemma Link_parents child input m c :
  parents (Link child input m c)
  = if decide (c = child) then Push input (parents (m c)) else parents (m c).
Proof.
  unfold Link. destruct (decide (child = c)) as [->|Hc].
  - rewrite fn_lookup_alter, decide_True by done. simpl.
    destruct (decide (input = c)) as [->|Hi].
    + by rewrite fn_lookup_alter.
    + by rewrite fn_lookup_alter_ne.
  - rewrite fn_lookup_alter_ne, decide_False by done.
    destruct (decide (input = c)) as [->|Hi].
    + by rewrite fn_lookup_alter.
    + by rewrite fn_lookup_alter_ne.
Qed.

(** What [DiffMapByKeys] leaves behind: [added] reads from the input, [removed] is
    linked to nothing. *)
Lemma DiffMapByKeys_links s i :
  closedStore s → i ∈ live s →
  ∃ added removed s',
    DiffMapByKeys i s = (added, removed, s') ∧ added ≠ removed ∧
    added ∈ children (structs s' i) ∧ i ∈ parents (structs s' added) ∧
    (removed ∉ children (structs s' i)) ∧ parents (structs s' removed) = [].
Proof.
  intros Hclosed Hi. unfold DiffMapByKeys, NewNode, linkIn. simpl.
  set (added := fresh (live s)).
  set (removed := fresh ({[added]} ∪ live s)).
  assert (added ∉ live s) as Hadd by apply is_fresh.
  assert (removed ∉ {[added]} ∪ live s) as Hrem by apply is_fresh.
  assert (added ≠ i) by (intros ->; done).
  assert (removed ≠ i ∧ removed ≠ added) as [Hri Hra] by set_solver.
  eexists added, removed, _. split; [reflexivity|]. simpl. split; [done|].
  rewrite !Link_children, !Link_parents. rewrite !decide_True by done.
  rewrite decide_False by done.
  rewrite !fn_lookup_insert, !fn_lookup_insert_ne by done.
  rewrite !Link_children, !Link_parents. rewrite !decide_True by done.
  rewrite !fn_lookup_insert, !fn_lookup_insert_ne by done.
  split_and!.
  - rewrite !elem_of_Push. auto.
  - rewrite !elem_of_Push. auto.
  - rewrite !elem_of_Push. intros [?|[?|Hin]]; [done|done|].
    apply Hrem. apply elem_of_union_r. apply (Hclosed i removed Hi). by left.
  - done.
Qed.

End LinkingFacts.

(** C9, the code at a concrete input: from the input node [1] alone,
    [DiffMapByKeys] makes [add = 2] and [rem = 3]; the input's children are
    [add] only, and [rem] has no parent, where the claim wants [rem] among
    the children of the input.  The one-result constructor
    [DiffMapByKeysRemoved] does link its node. *)
Lemma DiffMapByKeys_leaves_rem_unlinked :
  (let '(added, removed, s') := DiffMapByKeys 1%positive storeOne in
   (added, removed, children (structs s' 1%positive), parents (structs s' added),
    parents (structs s' removed)))
  = (2%positive, 3%positive, [2%positive], [1%positive], []) ∧
  (let '(removed, s') := DiffMapByKeysRemoved 1%positive storeOne in
   (removed, children (structs s' 1%positive), parents (structs s' removed)))
  = (2%positive, [2%positive], [1%positive]).
Proof. split; vm_compute; reflexivity. Qed.

(** ** Facts about the bind node *)

Section BindFacts.
Context {World UserError : Type} `{MapIter} `{NodePredicates World UserError}.
Implicit Types (m : Mem World UserError) (g : Graph World UserError)
  (st : @bindIncr.State World UserError).

Lemma Unlink_parents c p m x :
  parents (Unlink c p m x)
  = if decide (x = c) then RemoveKey p (parents (m x)) else parents (m x).
Proof.
  unfold Unlink. destruct (decide (p = x)) as [->|Hp].
  - rewrite fn_lookup_alter. simpl. destruct (decide (c = x)) as [->|Hc].
    + rewrite fn_lookup_alter, decide_True by done. done.
    + rewrite fn_lookup_alter_ne by done. by rewrite decide_False.
  - rewrite fn_lookup_alter_ne by done. destruct (decide (c = x)) as [->|Hc].
    + rewrite fn_lookup_alter, decide_True by done. done.
    + rewrite fn_lookup_alter_ne by done. by rewrite decide_False.
Qed.

Lemma Unlink_children c p m x :
  children (Unlink c p m x)
  = if decide (x = p) then RemoveKey c (children (m x)) else children (m x).
Proof.
  unfold Unlink. destruct (decide (p = x)) as [->|Hp].
  - rewrite fn_lookup_alter, decide_True by done. simpl.
    destruct (decide (c = x)) as [->|Hc].
    + by rewrite fn_lookup_alter.
    + by rewrite fn_lookup_alter_ne.
  - rewrite fn_lookup_alter_ne, decide_False by done.
    destruct (decide (c = x)) as [->|Hc].
    + by rewrite fn_lookup_alter.
    + by rewrite fn_lookup_alter_ne.
Qed.

Lemma Unlink_rest c p m x : unlinked (Unlink c p m x) = unlinked (m x).
Proof.
  unfold Unlink. destruct (decide (p = x)) as [->|Hp];
    [rewrite fn_lookup_alter|rewrite fn_lookup_alter_ne by done];
    (destruct (decide (c = x)) as [->|Hc];
       [rewrite fn_lookup_alter|rewrite fn_lookup_alter_ne by done]); done.
Qed.

Lemma Link_rest c p m x : unlinked (Link c p m x) = unlinked (m x).
Proof.
  unfold Link. destruct (decide (c = x)) as [->|Hp];
    [rewrite fn_lookup_alter|rewrite fn_lookup_alter_ne by done];
    (destruct (decide (p = x)) as [->|Hc];
       [rewrite fn_lookup_alter|rewrite fn_lookup_alter_ne by done]); done.
Qed.

Lemma unlinked_fields (a b : Node World UserError) :
  unlinked a = unlinked b →
  observers a = observers b ∧ height a = height b ∧
  heightInRecomputeHeap a = heightInRecomputeHeap b ∧
  changedAt a = changedAt b ∧ boundAt a = boundAt b.
Proof. destruct a, b. unfold unlinked. simpl. intros [=]. subst. done. Qed.

Lemma unlinkAll_parents old cs m x k :
  k ∈ parents (unlinkAll old cs m x) ↔ k ∈ parents (m x) ∧ ¬ (k = old ∧ x ∈ cs).
Proof.
  revert m. induction cs as [|c cs IH]; intros m; simpl.
  - set_solver.
  - unfold unlinkAll in *. simpl. rewrite IH, Unlink_parents. case_decide.
    + rewrite elem_of_RemoveKey. set_solver.
    + set_solver.
Qed.

Lemma unlinkAll_children old cs m x k :
  k ∈ children (unlinkAll old cs m x) ↔ k ∈ children (m x) ∧ ¬ (x = old ∧ k ∈ cs).
Proof.
  revert m. induction cs as [|c cs IH]; intros m; simpl.
  - set_solver.
  - unfold unlinkAll in *. simpl. rewrite IH, Unlink_children. case_decide.
    + rewrite elem_of_RemoveKey. set_solver.
    + set_solver.
Qed.

Lemma unlinkAll_children_other old cs m x :
  x ≠ old → children (unlinkAll old cs m x) = children (m x).
Proof.
  intros Hx. revert m. induction cs as [|c cs IH]; intros m; simpl; [done|].
  unfold unlinkAll in *. simpl. rewrite IH, Unlink_children. by rewrite decide_False.
Qed.

Lemma unlinkAll_rest old cs m x : unlinked (unlinkAll old cs m x) = unlinked (m x).
Proof.
  revert m. induction cs as [|c cs IH]; intros m; simpl; [done|].
  unfold unlinkAll in *. simpl. by rewrite IH, Unlink_rest.
Qed.

Lemma linkAll_parents new cs m x k :
  k ∈ parents (linkAll new cs m x) ↔ k ∈ parents (m x) ∨ (k = new ∧ x ∈ cs).
Proof.
  revert m. induction cs as [|c cs IH]; intros m; simpl.
  - set_solver.
  - unfold linkAll in *. simpl. rewrite IH, Link_parents. case_decide.
    + rewrite elem_of_Push. set_solver.
    + set_solver.
Qed.

Lemma linkAll_children new cs m x k :
  k ∈ children (linkAll new cs m x) ↔ k ∈ children (m x) ∨ (x = new ∧ k ∈ cs).
Proof.
  revert m. induction cs as [|c cs IH]; intros m; simpl.
  - set_solver.
  - unfold linkAll in *. simpl. rewrite IH, Link_children. case_decide.
    + rewrite elem_of_Push. set_solver.
    + set_solver.
Qed.

Lemma linkAll_rest new cs m x : unlinked (linkAll new cs m x) = unlinked (m x).
Proof.
  revert m. induction cs as [|c cs IH]; intros m; simpl; [done|].
  unfold linkAll in *. simpl. by rewrite IH, Link_rest.
Qed.

(** The loops of [unlinkOld] and [linkNew], read field by field. *)
Lemma unlink_loop old cs st :
  let st' := foldl (fun s c => bindIncr.onMem (Unlink c old) s) st cs in
  mem (bindIncr.graph st') = unlinkAll old cs (mem (bindIncr.graph st)) ∧
  bindIncr.calls st' = bindIncr.calls st ∧
  stabilizationNum (bindIncr.graph st') = stabilizationNum (bindIncr.graph st) ∧
  recomputeHeap (bindIncr.graph st') = recomputeHeap (bindIncr.graph st).
Proof.
  revert st. induction cs as [|c cs IH]; intros st; simpl; [done|].
  destruct (IH (bindIncr.onMem (Unlink c old) st)) as (-> & -> & -> & ->). done.
Qed.

Lemma link_loop new cs st :
  let st' := foldl (fun s c => bindIncr.record (bindIncr.RecomputeHeights c)
                                 (bindIncr.onMem (Link c new) s)) st cs in
  mem (bindIncr.graph st') = linkAll new cs (mem (bindIncr.graph st)) ∧
  bindIncr.calls st' = bindIncr.calls st ++ map bindIncr.RecomputeHeights cs ∧
  stabilizationNum (bindIncr.graph st') = stabilizationNum (bindIncr.graph st) ∧
  recomputeHeap (bindIncr.graph st') = recomputeHeap (bindIncr.graph st).
Proof.
  revert st. induction cs as [|c cs IH]; intros st; simpl.
  - by rewrite app_nil_r.
  - destruct (IH (bindIncr.record (bindIncr.RecomputeHeights c)
                    (bindIncr.onMem (Link c new) st))) as (-> & -> & -> & ->).
    simpl. by rewrite <-app_assoc.
Qed.

Lemma record_loop (f : Identifier → bindIncr.Call) os st :
  let st' := foldl (fun s o => bindIncr.record (f o) s) st os in
  bindIncr.graph st' = bindIncr.graph st ∧
  bindIncr.calls st' = bindIncr.calls st ++ map f os.
Proof.
  revert st. induction os as [|o os IH]; intros st; simpl.
  - by rewrite app_nil_r.
  - destruct (IH (bindIncr.record (f o) st)) as (-> & ->). simpl. by rewrite <-app_assoc.
Qed.

Lemma unlinkOld_spec b old st :
  ∃ st',
    bindIncr.unlinkOld b old st = (bindIncr.set_bound None b, st') ∧
    mem (bindIncr.graph st')
      = unlinkAll old (children (mem (bindIncr.graph st) (bindIncr.n b)))
          (mem (bindIncr.graph st)) ∧
    bindIncr.calls st'
      = bindIncr.calls st
        ++ map (fun o => bindIncr.UndiscoverNodes o old)
               (mapOrder (observers (mem (bindIncr.graph st) (bindIncr.n b)))) ∧
    stabilizationNum (bindIncr.graph st') = stabilizationNum (bindIncr.graph st) ∧
    recomputeHeap (bindIncr.graph st') = recomputeHeap (bindIncr.graph st).
Proof.
  unfold bindIncr.unlinkOld. eexists. split; [reflexivity|].
  set (cs := children (mem (bindIncr.graph st) (bindIncr.n b))).
  destruct (unlink_loop old cs st) as (Hm & Hc & Hn & Hr).
  set (st1 := foldl _ st cs) in *.
  destruct (record_loop (fun o => bindIncr.UndiscoverNodes o old)
              (mapOrder (observers (mem (bindIncr.graph st1) (bindIncr.n b)))) st1)
    as (Hg2 & Hc2).
  rewrite Hg2, Hc2, Hm, Hc, Hn, Hr.
  destruct (unlinked_fields _ _ (unlinkAll_rest old cs (mem (bindIncr.graph st)) (bindIncr.n b)))
    as (-> & _).
  done.
Qed.

Lemma linkNew_spec b new st :
  0 <= height (mem (bindIncr.graph st) new) →
  ∃ g4,
    bindIncr.linkNew b new st
      = Ret (bindIncr.set_bound (Some new) b,
             bindIncr.mkState g4
               (bindIncr.calls st
                ++ map bindIncr.RecomputeHeights
                       (children (mem (bindIncr.graph st) (bindIncr.n b)))
                ++ map (fun o => bindIncr.DiscoverNodes o new)
                       (mapOrder (observers (mem (bindIncr.graph st) (bindIncr.n b)))))) ∧
    (∀ x, unmarked (mem g4 x)
          = unmarked (alter (set_changedAt (stabilizationNum (bindIncr.graph st))) new
                        (linkAll new (children (mem (bindIncr.graph st) (bindIncr.n b)))
                           (mem (bindIncr.graph st))) x)) ∧
    new ∈ recomputeHeap.lookup (recomputeHeap g4) ∧
    stabilizationNum g4 = stabilizationNum (bindIncr.graph st).
Proof.
  intros Hh. unfold bindIncr.linkNew.
  set (cs := children (mem (bindIncr.graph st) (bindIncr.n b))).
  destruct (link_loop new cs st) as (Hm & Hc & Hn & Hr).
  set (st1 := foldl _ st cs) in *.
  destruct (record_loop (fun o => bindIncr.DiscoverNodes o new)
              (mapOrder (observers (mem (bindIncr.graph st1) (bindIncr.n b)))) st1)
    as (Hg2 & Hc2).
  set (st2 := foldl _ st1 _) in *.
  assert (observers (mem (bindIncr.graph st1) (bindIncr.n b))
          = observers (mem (bindIncr.graph st) (bindIncr.n b))) as Hobs.
  { rewrite Hm.
    by destruct (unlinked_fields _ _ (linkAll_rest new cs (mem (bindIncr.graph st)) (bindIncr.n b)))
      as (-> & _). }
  set (st3 := bindIncr.onMem _ st2).
  assert (mem (bindIncr.graph st3)
          = alter (set_changedAt (stabilizationNum (bindIncr.graph st))) new
              (linkAll new cs (mem (bindIncr.graph st)))) as Hm3.
  { unfold st3. simpl. by rewrite Hg2, Hm, Hn. }
  assert (0 <= height (mem (bindIncr.graph st3) new)) as Hh3.
  { rewrite Hm3, fn_lookup_alter. simpl.
    by destruct (unlinked_fields _ _ (linkAll_rest new cs (mem (bindIncr.graph st)) new))
      as (_ & -> & _). }
  destruct (addNodeUnsafe_spec new (mem (bindIncr.graph st3)) (recomputeHeap (bindIncr.graph st3)) Hh3)
    as (rh' & Hadd & Hl & _).
  unfold heapAdd, recomputeHeap.add. simpl. 
  change (mem (bindIncr.graph st3)) with
    (alter (set_changedAt (stabilizationNum (bindIncr.graph st2))) new (mem (bindIncr.graph st2)))
    in Hadd.
  change (recomputeHeap (bindIncr.graph st3)) with (recomputeHeap (bindIncr.graph st2)) in Hadd.
  rewrite Hadd. simpl. eexists. split.
  { do 3 f_equal. unfold st3. simpl. rewrite Hc2, Hc, Hobs, <-app_assoc. done. }
  simpl. split_and!.
  - intros x. rewrite <-Hm3. simpl. destruct (decide (new = x)) as [->|Hne].
    + by rewrite fn_lookup_alter.
    + by rewrite fn_lookup_alter_ne.
  - rewrite Hl. set_solver.
  - by rewrite Hg2, Hn.
Qed.

(** C4: when the bind function returns a node other than the bound one, every
    child of the bind node is unlinked from the old node and linked to the
    new one, [UndiscoverNodes] is called for each observer on the old node
    and [DiscoverNodes] on the new one (with [RecomputeHeights] on each child
    in between), [changedAt] of the new node is the stabilization number, the
    new node is in the recompute heap, it is the bound node, and [boundAt] of
    the bind node is the stabilization number. *)
Theorem Bind_swaps_bound_node b st g1 old new :
  bindIncr.bound b = Some old →
  bindIncr.fn b (bindIncr.graph st) = (g1, (Some new, None)) →
  old ≠ new →
  old ≠ bindIncr.n b →
  0 <= height (mem g1 new) →
  ∃ b' st',
    bindIncr.Bind b st = Ret (b', st', None) ∧
    bindIncr.bound b' = Some new ∧
    (∀ c, c ∈ children (mem g1 (bindIncr.n b)) →
       (old ∉ parents (mem (bindIncr.graph st') c)) ∧
       (c ∉ children (mem (bindIncr.graph st') old)) ∧
       new ∈ parents (mem (bindIncr.graph st') c) ∧
       c ∈ children (mem (bindIncr.graph st') new)) ∧
    bindIncr.calls st'
      = bindIncr.calls st
        ++ map (fun o => bindIncr.UndiscoverNodes o old)
               (mapOrder (observers (mem g1 (bindIncr.n b))))
        ++ map bindIncr.RecomputeHeights (children (mem g1 (bindIncr.n b)))
        ++ map (fun o => bindIncr.DiscoverNodes o new)
               (mapOrder (observers (mem g1 (bindIncr.n b)))) ∧
    changedAt (mem (bindIncr.graph st') new) = stabilizationNum g1 ∧
    new ∈ recomputeHeap.lookup (recomputeHeap (bindIncr.graph st')) ∧
    boundAt (mem (bindIncr.graph st') (bindIncr.n b)) = stabilizationNum g1.
Proof.
  intros Hbound Hfn Hon Hob Hh.
  unfold bindIncr.Bind. rewrite Hbound, Hfn. cbv beta iota zeta.
  rewrite decide_True by done.
  set (st1 := bindIncr.mkState g1 (bindIncr.calls st)).
  set (cs := children (mem g1 (bindIncr.n b))).
  set (os := mapOrder (observers (mem g1 (bindIncr.n b)))).
  destruct (unlinkOld_spec b old st1) as (stU & HU & HmU & HcU & HnU & HrU).
  rewrite HU.
  assert (children (mem (bindIncr.graph stU) (bindIncr.n b)) = cs) as HcsU.
  { rewrite HmU. exact (unlinkAll_children_other old _ _ _ (not_eq_sym Hob)). }
  assert (observers (mem (bindIncr.graph stU) (bindIncr.n b))
          = observers (mem g1 (bindIncr.n b))) as HosU.
  { rewrite HmU. exact (proj1 (unlinked_fields _ _ (unlinkAll_rest old _ _ _))). }
  destruct (linkNew_spec (bindIncr.set_bound None b) new stU) as (g4 & HL & Hu4 & Hl4 & Hn4).
  { rewrite HmU.
    rewrite (proj1 (proj2 (unlinked_fields _ _ (unlinkAll_rest old _ _ new)))). exact Hh. }
  change (bindIncr.n (bindIncr.set_bound None b)) with (bindIncr.n b) in *.
  change (stabilizationNum (bindIncr.graph st1)) with (stabilizationNum g1) in *.
  change (mem (bindIncr.graph st1)) with (mem g1) in *.
  change (bindIncr.calls st1) with (bindIncr.calls st) in *.
  rewrite HcsU, HosU, HcU in HL. rewrite HcsU, HnU, HmU in Hu4. rewrite HnU in Hn4.
  fold cs os in Hu4, HL |- *.
  rewrite HL. cbv beta iota zeta. eexists _, _. split; [reflexivity|].
  cbn [bindIncr.graph bindIncr.calls bindIncr.onMem bindIncr.bound bindIncr.set_bound
       bindIncr.n mem set_mem recomputeHeap stabilizationNum].
  set (mL := alter (set_changedAt (stabilizationNum g1)) new
               (linkAll new cs (unlinkAll old cs (mem g1)))) in *.
  assert (∀ x, parents (mem g4 x) = parents (linkAll new cs (unlinkAll old cs (mem g1)) x) ∧
               children (mem g4 x) = children (linkAll new cs (unlinkAll old cs (mem g1)) x) ∧
               changedAt (mem g4 x) = changedAt (mL x)) as Hfields.
  { intros x. destruct (unmarked_fields _ _ (Hu4 x)) as (-> & -> & _ & _ & -> & _).
    unfold mL. destruct (decide (new = x)) as [->|Hne].
    - by rewrite fn_lookup_alter.
    - by rewrite fn_lookup_alter_ne. }
  assert (∀ x, parents (alter (set_boundAt (stabilizationNum g4)) (bindIncr.n b) (mem g4) x)
               = parents (mem g4 x) ∧
               children (alter (set_boundAt (stabilizationNum g4)) (bindIncr.n b) (mem g4) x)
               = children (mem g4 x) ∧
               changedAt (alter (set_boundAt (stabilizationNum g4)) (bindIncr.n b) (mem g4) x)
               = changedAt (mem g4 x)) as Hlast.
  { intros x. destruct (decide (bindIncr.n b = x)) as [->|Hne].
    - by rewrite fn_lookup_alter.
    - by rewrite fn_lookup_alter_ne. }
  split; [done|]. split_and!.
  - intros c Hc.
    destruct (Hlast c) as (-> & _ & _). destruct (Hlast old) as (_ & -> & _).
    destruct (Hlast new) as (_ & -> & _).
    destruct (Hfields c) as (-> & _ & _). destruct (Hfields old) as (_ & -> & _).
    destruct (Hfields new) as (_ & -> & _).
    rewrite !linkAll_parents, !linkAll_children, !unlinkAll_parents, !unlinkAll_children.
    split_and!; [|  |by right|by right].
    + intros [[_ Hno]|[? _]]; [apply Hno; done|done].
    + intros [[_ Hno]|[? _]]; [apply Hno; done|done].
  - by rewrite <-app_assoc.
  - destruct (Hlast new) as (_ & _ & ->). destruct (Hfields new) as (_ & _ & ->).
    unfold mL. by rewrite fn_lookup_alter.
  - done.
  - rewrite fn_lookup_alter. simpl. done.
Qed.

End BindFacts.

(** ** The examples *)

Lemma graphBare_ok : graphOK (mem graphBare) (recomputeHeap graphBare).
Proof.
  assert (∀ x, bucket (recomputeHeap graphBare) x = ∅) as Hb.
  { intros x. unfold bucket. case_decide; [|done].
    destruct (Z.to_nat x) as [|[|[|[|k]]]]; done. }
  assert (∀ id, heightInRecomputeHeap (exampleMem id) = heightUnset) as Hu.
  { intros id. unfold exampleMem.
    repeat match goal with
    | |- context [(<[?k := _]> _) id] =>
        destruct (decide (k = id)) as [<-|?];
          [by rewrite fn_lookup_insert|rewrite (fn_lookup_insert_ne _ k id) by done]
    end. done. }
  split; [split|..].
  - done.
  - intros id Hid. by apply not_elem_of_empty in Hid.
  - intros x id. rewrite Hb. intros Hid. by apply not_elem_of_empty in Hid.
  - intros id Hid. by apply not_elem_of_empty in Hid.
  - intros id Hid. by apply not_elem_of_empty in Hid.
  - intros id _. apply Hu.
  - intros p c. simpl. unfold exampleMem.
    repeat match goal with
    | |- context [(<[?k := _]> _) p] =>
        destruct (decide (k = p)) as [<-|?];
          [rewrite fn_lookup_insert|rewrite (fn_lookup_insert_ne _ k p) by done]
    end; simpl; intros Hc; repeat (apply elem_of_cons in Hc as [->|Hc]); try done;
      by apply elem_of_nil in Hc.
  - intros p o. simpl. unfold exampleMem.
    repeat match goal with
    | |- context [(<[?k := _]> _) p] =>
        destruct (decide (k = p)) as [<-|?];
          [rewrite fn_lookup_insert|rewrite (fn_lookup_insert_ne _ k p) by done]
    end; simpl; intros Hc; by apply not_elem_of_empty in Hc.
Qed.

Lemma graphQueued_eq :
  heapAdd [1%positive; 2%positive; 4%positive] graphBare = Ret graphQueued.
Proof. vm_compute. reflexivity. Qed.

Lemma graphQueued_ok : graphOK (mem graphQueued) (recomputeHeap graphQueued).
Proof.
  apply (heapAdd_graphOK [1%positive; 2%positive; 4%positive]
           graphBare graphQueued graphBare_ok).
  - repeat (apply NoDup_cons_2; [set_solver|]). apply NoDup_nil_2.
  - intros c Hc. repeat (apply elem_of_cons in Hc as [->|Hc]);
      [split; [reflexivity|vm_compute; discriminate]..|by apply elem_of_nil in Hc].
  - exact graphQueued_eq.
Qed.

Lemma graphStabilized_eq :
  @Stabilize (list nat) nat elementsOrder examplePredicates 5 graphQueued
  = Ret (graphStabilized, None).
Proof. vm_compute. reflexivity. Qed.

(** C1, witness: a call made while a pass is in flight. *)
Lemma Stabilize_while_stabilizing_witness :
  status graphBusy ≠ StatusNotStabilizing ∧
  @Stabilize (list nat) nat elementsOrder examplePredicates 5 graphBusy
  = Ret (graphBusy, Some ErrAlreadyStabilizing).
Proof.
  split; [discriminate|].
  apply (@Stabilize_while_stabilizing (list nat) nat elementsOrder examplePredicates).
  discriminate.
Defined.

(** C2, witness: the cutoff node [2] of the example. *)
Lemma recompute_cutoff_stops_witness :
  ∃ g', @recompute (list nat) nat elementsOrder examplePredicates 2%positive graphQueued
          = Ret (g', None) ∧
        changedAt (mem g' 2%positive) = 0 ∧
        recomputeHeap g' = recomputeHeap graphQueued.
Proof.
  destruct (@recompute_cutoff_stops (list nat) nat elementsOrder examplePredicates
              graphQueued 2%positive [20%nat] eq_refl)
    as (g' & Hrun & Hchanged & Hheap & _).
  exists g'. split; [exact Hrun|]. split; [exact Hchanged|exact Hheap].
Defined.

(** C3, witness: the failing node [3] of the example; its error handler logs
    [30] after the callback logged [3]. *)
Lemma stabilize_error_aborts_pass_witness :
  ∃ g', @recompute (list nat) nat elementsOrder examplePredicates 3%positive graphQueued
          = Ret (g', Some (ErrUser 7%nat)) ∧
        world g' = [30%nat; 3%nat] ∧
        handleAfterStabilization g' = ∅.
Proof.
  destruct (@stabilize_error_aborts_pass (list nat) nat elementsOrder examplePredicates
              graphQueued 3%positive [] [3%nat] (ErrUser 7%nat) eq_refl eq_refl)
    as (g' & Hrun & Hworld & Hqueue & _).
  exists g'. split; [exact Hrun|]. split; [exact Hworld|exact Hqueue].
Defined.

(** C10, witness: the counters of the failing node [3]. *)
Lemma recompute_error_keeps_counters_witness :
  ∃ g', @recompute (list nat) nat elementsOrder examplePredicates 3%positive graphQueued
          = Ret (g', Some (ErrUser 7%nat)) ∧
        numRecomputes (mem g' 3%positive) = 1 ∧
        numChanges (mem g' 3%positive) = 1 ∧
        recomputedAt (mem g' 3%positive) = 1 ∧
        changedAt (mem g' 3%positive) = 0.
Proof.
  destruct (@recompute_error_keeps_counters (list nat) nat elementsOrder examplePredicates
              graphQueued 3%positive [] [3%nat] (ErrUser 7%nat) eq_refl eq_refl)
    as (g' & Hrun & Hn & Hc & Hr & _ & _ & Hch & _).
  exists g'. split; [exact Hrun|]. split; [exact Hn|]. split; [exact Hc|].
  split; [exact Hr|exact Hch].
Defined.

(** C4, witness: the bind node [2] of [bindState] leaves node [1] for node
    [4]; its child [3] follows, its observer [9] is told. *)
Lemma Bind_swaps_bound_node_witness :
  ∃ b' st',
    @bindIncr.Bind (list nat) nat elementsOrder bindExample bindState = Ret (b', st', None) ∧
    bindIncr.bound b' = Some 4%positive ∧
    bindIncr.calls st'
      = [bindIncr.UndiscoverNodes 9%positive 1%positive;
         bindIncr.RecomputeHeights 3%positive;
         bindIncr.DiscoverNodes 9%positive 4%positive] ∧
    changedAt (mem (bindIncr.graph st') 4%positive) = 1 ∧
    boundAt (mem (bindIncr.graph st') 2%positive) = 1.
Proof.
  destruct (@Bind_swaps_bound_node (list nat) nat elementsOrder bindExample bindState
              (bindIncr.graph bindState) 1%positive 4%positive
              eq_refl eq_refl ltac:(discriminate) ltac:(discriminate)
              ltac:(vm_compute; discriminate))
    as (b' & st' & Hrun & Hbound & _ & Hcalls & Hchanged & _ & Hboundat).
  exists b', st'. split; [exact Hrun|]. split; [exact Hbound|].
  split; [exact Hcalls|]. split; [exact Hchanged|exact Hboundat].
Defined.






(** The example graph with its queue: [minHeight] is settled, heights are at
    most [2], and no variable was set during a pass. *)
Lemma graphQueued_settled : minHeightSettled (recomputeHeap graphQueued).
Proof.
  right. split_and!.
  - apply (non_empty_inhabited_L 1%positive). vm_compute. reflexivity.
  - apply (non_empty_inhabited_L 1%positive). vm_compute. reflexivity.
  - intros x Hx. unfold bucket. rewrite decide_False; [done|].
    change (recomputeHeap.minHeight (recomputeHeap graphQueued)) with 0 in Hx. lia.
Qed.

Lemma graphQueued_height id : height (mem graphQueued id) <= 2.
Proof.
  pose proof (heapAdd_ret _ _ _ graphQueued_eq) as (Hu & _).
  destruct (unmarked_fields _ _ (Hu id)) as (_&_&_&->&_).
  simpl. unfold exampleMem.
  repeat match goal with
  | |- context [(<[?k := _]> _) id] =>
      destruct (decide (k = id)) as [<-|?];
        [rewrite fn_lookup_insert|rewrite (fn_lookup_insert_ne _ k id) by done]
  end; simpl; unfold heightUnset; lia.
Qed.

Lemma graphQueued_set id :
  id ∈ setDuringStabilization graphQueued → 0 <= height (mem graphQueued id).
Proof.
  intros Hid. change (id ∈ (∅ : gset Identifier)) in Hid.
  by apply not_elem_of_empty in Hid.
Qed.

(** C8, witness: one pass on [graphQueued]; the always-node [4] is
    recomputed once and is queued again when [Stabilize] returns. *)
Lemma always_node_recomputed_at_most_once_witness :
  (numRecomputes (mem graphStabilized 4%positive) = numRecomputes (mem graphQueued 4%positive) ∨
   numRecomputes (mem graphStabilized 4%positive)
     = uint64 (numRecomputes (mem graphQueued 4%positive) + 1)) ∧
  numRecomputes (mem graphStabilized 4%positive) = 1 ∧
  4%positive ∈ recomputeHeap.lookup (recomputeHeap graphStabilized).
Proof.
  destruct (@always_node_recomputed_at_most_once (list nat) nat elementsOrder
              examplePredicates 5 graphQueued 4%positive 2
              graphQueued_ok graphQueued_settled eq_refl graphQueued_height
              graphQueued_set ltac:(simpl; lia) eq_refl)
    as (g' & err & _ & _ & Hrun & Honce & _).
  rewrite graphStabilized_eq in Hrun.
  assert (g' = graphStabilized) as ->.
  { exact (f_equal (fun r => match r with Ret (x, _) => x | _ => g' end) (eq_sym Hrun)). }
  split; [exact Honce|]. split; [reflexivity|].
  vm_compute. reflexivity.
Defined.

(** ** More facts about the heap *)

Section HeapMore.
Context {World UserError : Type} `{MapIter}.
Implicit Types (m : Mem World UserError) (rh : recomputeHeap.t).

(** Consistency read off the buckets: with [minHeight] settled, the range
    condition of [heapOK] needs the upper bound only. *)
Lemma heapOK_of_settled m rh :
  (∀ id, id ∈ recomputeHeap.lookup rh → id ∈ bucket rh (heightInRecomputeHeap (m id))) →
  (∀ x id, id ∈ bucket rh x →
     id ∈ recomputeHeap.lookup rh ∧ heightInRecomputeHeap (m id) = x) →
  (∀ id, id ∈ recomputeHeap.lookup rh →
     heightInRecomputeHeap (m id) <= recomputeHeap.maxHeight rh) →
  minHeightSettled rh →
  heapOK m rh.
Proof.
  intros Hl Hb Hmax Hset. split; [|done|done|].
  - destruct Hset as [[_ ->]|(_ & Hne & _)]; [done|].
    destruct (decide (0 <= recomputeHeap.minHeight rh)); [done|].
    unfold bucket in Hne. by rewrite decide_False in Hne.
  - intros id Hid. split; [|by apply Hmax].
    destruct Hset as [[Hemp _]|(_ & _ & Hbelow)]; [rewrite Hemp in Hid; set_solver|].
    destruct (decide (recomputeHeap.minHeight rh <= heightInRecomputeHeap (m id))); [done|].
    pose proof (Hl id Hid) as Hin. rewrite Hbelow in Hin by lia. set_solver.
Qed.


(** A queued node sits in one bucket only. *)
Lemma bucket_delete_other m rh k x :
  heapOK m rh → x ≠ heightInRecomputeHeap (m k) → bucket rh x ∖ {[k]} = bucket rh x.
Proof.
  intros Hok Hx. apply set_eq. intros id. rewrite elem_of_difference, elem_of_singleton.
  split; [by intros [? _]|]. intros Hid. split; [done|]. intros ->.
  destruct (ok_bucket _ _ Hok x k Hid) as [_ E]. congruence.
Qed.

(** [remove] of a queued node. *)
Lemma remove_spec m rh k :
  heapOK m rh → minHeightSettled rh → k ∈ recomputeHeap.lookup rh →
  ∃ rh',
    recomputeHeap.remove k m rh
      = Ret (true, alter (set_heightInRecomputeHeap heightUnset) k m, rh') ∧
    heapOK (alter (set_heightInRecomputeHeap heightUnset) k m) rh' ∧
    minHeightSettled rh' ∧
    recomputeHeap.lookup rh' = recomputeHeap.lookup rh ∖ {[k]} ∧
    (∀ x, bucket rh' x = bucket rh x ∖ {[k]}) ∧
    recomputeHeap.maxHeight rh' = recomputeHeap.maxHeight rh ∧
    length (recomputeHeap.heights rh') = length (recomputeHeap.heights rh).
Proof.
  intros Hok Hset Hk. pose proof Hok as [Hmin Hl Hb Hr].
  set (h := heightInRecomputeHeap (m k)).
  assert (bucket rh h ≠ ∅) as Hne by (specialize (Hl k Hk); set_solver).
  destruct (index_of_bucket rh _ Hne) as (b & Hb0 & Hbb).
  unfold recomputeHeap.remove. rewrite decide_True by done.
  unfold recomputeHeap.removeItemUnsafe. fold h. rewrite Hb0. simpl.
  pose proof Hb0 as [Hh0 Hb0']%index_ret. pose proof (lookup_lt_Some _ _ _ Hb0') as Hlen.
  assert (default ∅ (recomputeHeap.mapDelete k b) = bucket rh h ∖ {[k]}) as Hdel.
  { destruct b as [s|]; simpl in *; [by rewrite Hbb|]. rewrite <-Hbb. set_solver. }
  assert (recomputeHeap.mapLen (recomputeHeap.mapDelete k b) = O ↔ bucket rh h ∖ {[k]} = ∅)
    as Hlen0.
  { rewrite <-Hdel. destruct (recomputeHeap.mapDelete k b) as [s|]; simpl; [|done].
    apply size_zero_empty. }
  set (rh1 := recomputeHeap.set_lookup (recomputeHeap.lookup rh ∖ {[k]})
                (recomputeHeap.set_heights
                   (<[Z.to_nat h := recomputeHeap.mapDelete k b]> (recomputeHeap.heights rh)) rh)).
  assert (∀ x, bucket rh1 x = bucket rh x ∖ {[k]}) as Hb1.
  { intros x. unfold rh1. rewrite bucket_insert by done. case_decide as Hx.
    - subst x. done.
    - symmetry. by eapply bucket_delete_other. }
  set (m' := alter (set_heightInRecomputeHeap heightUnset) k m).
  assert (∀ id, id ≠ k → heightInRecomputeHeap (m' id) = heightInRecomputeHeap (m id)) as Hm'.
  { intros id Hid. unfold m'. by rewrite fn_lookup_alter_ne. }
  assert (∀ rh', recomputeHeap.lookup rh' = recomputeHeap.lookup rh ∖ {[k]} →
                 (∀ x, bucket rh' x = bucket rh x ∖ {[k]}) →
                 recomputeHeap.maxHeight rh' = recomputeHeap.maxHeight rh →
                 minHeightSettled rh' → heapOK m' rh') as Hok'.
  { intros rh' Hl' Hb' Hmax' Hset'. apply heapOK_of_settled; [| | |done].
    - intros id. rewrite Hl'. intros [Hid Hnk]%elem_of_difference.
      assert (id ≠ k) by set_solver. rewrite Hm', Hb' by done.
      specialize (Hl id Hid). set_solver.
    - intros x id. rewrite Hb', Hl'. intros [Hid Hnk]%elem_of_difference.
      assert (id ≠ k) by set_solver. rewrite Hm' by done.
      destruct (Hb x id Hid). set_solver.
    - intros id. rewrite Hl', Hmax'. intros [Hid Hnk]%elem_of_difference.
      assert (id ≠ k) by set_solver. rewrite Hm' by done. by apply Hr. }
  destruct (decide (h = recomputeHeap.minHeight rh1 ∧
                    bool_decide (recomputeHeap.mapLen (recomputeHeap.mapDelete k b) = O) = true))
    as [[Hhmin Hlast]|Hnot].
  - apply bool_decide_eq_true, Hlen0 in Hlast.
    change (recomputeHeap.minHeight rh1) with (recomputeHeap.minHeight rh) in Hhmin.
    assert (bucket rh (recomputeHeap.minHeight rh) = {[k]}) as Hone.
    { rewrite <-Hhmin. apply set_eq. intros id. rewrite elem_of_singleton. split.
      - intros Hid. destruct (decide (id = k)); [done|]. set_solver.
      - intros ->. by apply Hl. }
    destruct (nextMinHeight_after_clearing m rh rh1 Hok) as (nx & Hnx & Hset').
    + unfold rh1. simpl. by rewrite Hone.
    + intros x. rewrite Hb1. case_decide as Hx.
      * subst x. rewrite Hone. set_solver.
      * eapply bucket_delete_other; [done|]. fold h. congruence.
    + done.
    + done.
    + rewrite decide_True
        by (split; [exact Hhmin|apply bool_decide_eq_true, Hlen0; exact Hlast]).
      fold rh1. rewrite Hnx. simpl. eexists. split; [reflexivity|].
      split; [apply Hok'; try done|]. split; [done|]. split; [done|]. split; [done|].
      split; [done|]. simpl. by rewrite length_insert.
  - rewrite decide_False by exact Hnot. simpl. eexists. split; [reflexivity|].
    assert (minHeightSettled rh1) as Hset1.
    { destruct Hset as [[Hemp _]|(Hne0 & Hbmin & Hbelow)]; [rewrite Hemp in Hk; set_solver|].
      right.
      assert (bucket rh1 (recomputeHeap.minHeight rh1) ≠ ∅) as Hbmin1.
      { change (recomputeHeap.minHeight rh1) with (recomputeHeap.minHeight rh).
        rewrite Hb1. destruct (decide (h = recomputeHeap.minHeight rh)) as [Hhm|Hhm].
        - rewrite <-Hhm. intros Hemp. apply Hnot. split; [done|].
          apply bool_decide_eq_true. by apply Hlen0.
        - rewrite (bucket_delete_other m rh k) by (done || (fold h; congruence)). done. }
      split; [|split; [done|]].
      - destruct (set_choose_L _ Hbmin1) as [id Hid]. rewrite Hb1 in Hid.
        apply elem_of_difference in Hid as [Hid Hnk].
        destruct (Hb _ _ Hid) as [Hin _]. unfold rh1. simpl. set_solver.
      - intros x Hx. rewrite Hb1, Hbelow by done. set_solver. }
    split; [by apply Hok'|]. split; [done|]. split; [done|]. split; [done|].
    split; [done|]. simpl. by rewrite length_insert.
Qed.

(** [removeMinUnsafe] on a consistent heap whose [minHeight] is settled: the
    node taken is the first of the minimum bucket in iteration order. *)
Lemma removeMinUnsafe_spec m rh :
  heapOK m rh → minHeightSettled rh → recomputeHeap.lookup rh ≠ ∅ →
  ∃ k rh',
    recomputeHeap.removeMinUnsafe m rh
      = Ret (Some k, alter (set_heightInRecomputeHeap heightUnset) k m, rh') ∧
    k ∈ bucket rh (recomputeHeap.minHeight rh) ∧
    heapOK (alter (set_heightInRecomputeHeap heightUnset) k m) rh' ∧
    minHeightSettled rh' ∧
    recomputeHeap.lookup rh' = recomputeHeap.lookup rh ∖ {[k]} ∧
    (∀ x, bucket rh' x = bucket rh x ∖ {[k]}).
Proof.
  intros Hok Hset Hne. pose proof Hok as [Hmin Hl Hb Hr].
  destruct Hset as [[Hemp _]|(_ & Hbne & Hbelow)]; [done|].
  destruct (index_of_bucket rh _ Hbne) as (b & Hb0 & Hbb).
  pose proof Hb0 as [_ Hb0']%index_ret. pose proof (lookup_lt_Some _ _ _ Hb0') as Hlen.
  set (s := bucket rh (recomputeHeap.minHeight rh)) in *.
  destruct (mapOrder s) as [|k l] eqn:Hord.
  { apply mapOrder_nil in Hord. done. }
  assert (k ∈ s) as Hks by (apply mapOrder_elem; rewrite Hord; left).
  destruct (Hb _ _ Hks) as [Hkl Hkh].
  pose proof (Hr k Hkl) as Hrange.
  exists k.
  destruct (decide (s = {[k]})) as [Hone|Hmore].
  - destruct (removeMinUnsafe_last m rh k Hok Hone) as (rh' & Hrun & Hset' & Hl').
    exists rh'. split; [done|]. split; [done|].
    assert (∀ x, bucket rh' x = bucket rh x ∖ {[k]}) as Hb'.
    { (* the buckets of the result, read off the run *)
      revert Hrun. unfold recomputeHeap.removeMinUnsafe.
      assert (∃ n, recomputeHeap.span rh = S n) as [n ->].
      { unfold recomputeHeap.span.
        exists (Z.to_nat (recomputeHeap.maxHeight rh - recomputeHeap.minHeight rh)). lia. }
      simpl. rewrite Hb0. simpl.
      rewrite decide_True by (rewrite mapLen_pos, Hbb; done).
      rewrite Hbb. unfold recomputeHeap.popMap. fold s. rewrite Hord.
      assert (s ∖ {[k]} = ∅) as -> by (rewrite Hone; set_solver).
      rewrite decide_False by (rewrite size_empty; lia).
      intros (nx & _ & [= <-])%run_bind_ret x.
      rewrite bucket_set_minHeight, bucket_insert by done. case_decide as Hx.
      - subst x. fold s. rewrite Hone. set_solver.
      - symmetry. eapply bucket_delete_other; [done|]. congruence. }
    split; [|done].
    apply heapOK_of_settled; [| | |done].
    + intros id. rewrite Hl'. intros [Hid Hnk]%elem_of_difference.
      assert (id ≠ k) by set_solver. rewrite fn_lookup_alter_ne, Hb' by done.
      specialize (Hl id Hid). set_solver.
    + intros x id. rewrite Hb', Hl'. intros [Hid Hnk]%elem_of_difference.
      assert (id ≠ k) by set_solver. rewrite fn_lookup_alter_ne by done.
      destruct (Hb x id Hid). set_solver.
    + intros id. rewrite Hl'. intros [Hid Hnk]%elem_of_difference.
      assert (id ≠ k) by set_solver. rewrite fn_lookup_alter_ne by done.
      assert (recomputeHeap.maxHeight rh' = recomputeHeap.maxHeight rh) as ->.
      { revert Hrun. unfold recomputeHeap.removeMinUnsafe.
        assert (∃ n, recomputeHeap.span rh = S n) as [n ->].
        { unfold recomputeHeap.span.
          exists (Z.to_nat (recomputeHeap.maxHeight rh - recomputeHeap.minHeight rh)). lia. }
        simpl. rewrite Hb0. simpl.
        rewrite decide_True by (rewrite mapLen_pos, Hbb; done).
        rewrite Hbb. unfold recomputeHeap.popMap. fold s. rewrite Hord.
        assert (s ∖ {[k]} = ∅) as -> by (rewrite Hone; set_solver).
        rewrite decide_False by (rewrite size_empty; lia).
        by intros (nx & _ & [= <-])%run_bind_ret. }
      by apply Hr.
  - assert (s ∖ {[k]} ≠ ∅) as Hrest.
    { intros Hemp. apply Hmore. apply set_eq. intros id. rewrite elem_of_singleton.
      split; [|by intros ->]. intros Hid. destruct (decide (id = k)); [done|]. set_solver. }
    unfold recomputeHeap.removeMinUnsafe.
    assert (∃ n, recomputeHeap.span rh = S n) as [n ->].
    { unfold recomputeHeap.span.
      exists (Z.to_nat (recomputeHeap.maxHeight rh - recomputeHeap.minHeight rh)). lia. }
    simpl. rewrite Hb0. simpl.
    rewrite decide_True by (rewrite mapLen_pos, Hbb; done).
    rewrite Hbb. unfold recomputeHeap.popMap. fold s. rewrite Hord.
    rewrite decide_True by (destruct (decide (size (s ∖ {[k]}) = O)) as [E|]; [|lia];
                            by apply size_zero_empty in E).
    eexists. split; [reflexivity|]. split; [done|].
    match goal with |- heapOK _ ?r ∧ _ => set (rh' := r) end.
    assert (∀ x, bucket rh' x = bucket rh x ∖ {[k]}) as Hb'.
    { intros x. unfold rh'. rewrite bucket_set_minHeight, bucket_insert by done.
      case_decide as Hx.
      - subst x. done.
      - symmetry. eapply bucket_delete_other; [done|]. congruence. }
    assert (minHeightSettled rh') as Hset'.
    { right. split; [|split].
      - destruct (set_choose_L _ Hrest) as [id Hid].
        apply elem_of_difference in Hid as [Hid Hnk].
        destruct (Hb _ _ Hid) as [Hin _]. unfold rh'. simpl. set_solver.
      - change (recomputeHeap.minHeight rh') with (recomputeHeap.minHeight rh).
        rewrite Hb'. done.
      - change (recomputeHeap.minHeight rh') with (recomputeHeap.minHeight rh).
        intros x Hx. rewrite Hb', Hbelow by done. set_solver. }
    split; [|done].
    apply heapOK_of_settled; [| | |done].
    + intros id. intros [Hid Hnk]%elem_of_difference.
      assert (id ≠ k) by set_solver. rewrite fn_lookup_alter_ne, Hb' by done.
      specialize (Hl id Hid). set_solver.
    + intros x id. rewrite Hb'. intros [Hid Hnk]%elem_of_difference.
      assert (id ≠ k) by set_solver. rewrite fn_lookup_alter_ne by done.
      destruct (Hb x id Hid). unfold rh'. simpl. set_solver.
    + intros id. intros [Hid Hnk]%elem_of_difference.
      assert (id ≠ k) by set_solver. rewrite fn_lookup_alter_ne by done.
      by apply Hr.
Qed.

End HeapMore.

(** ** Properties of the heap operations *)

Section HeapProperties.
Context {World UserError : Type} `{MapIter}.
Implicit Types (m : Mem World UserError) (rh : recomputeHeap.t).

Lemma has_true n rh : recomputeHeap.has n rh = true ↔ n ∈ recomputeHeap.lookup rh.
Proof. unfold recomputeHeap.has. apply bool_decide_eq_true. Qed.

Lemma has_false n rh : recomputeHeap.has n rh = false ↔ n ∉ recomputeHeap.lookup rh.
Proof. unfold recomputeHeap.has. apply bool_decide_eq_false. Qed.

Lemma has_congr n rh rh' :
  (n ∈ recomputeHeap.lookup rh' ↔ n ∈ recomputeHeap.lookup rh) →
  recomputeHeap.has n rh' = recomputeHeap.has n rh.
Proof. intros Hiff. unfold recomputeHeap.has. by apply bool_decide_ext. Qed.

(** X1: adding a node that is not queued, on a consistent heap: the node is
    queued in the bucket of its height and carries that height as its mark,
    [has] answers true for it and as before for every other node, [len] grows
    by one, no other node struct is written, and the heap stays consistent
    with [minHeight] at its smallest non-empty bucket. *)
Theorem add_queues_the_node m rh n :
  heapOK m rh → minHeightSettled rh →
  n ∉ recomputeHeap.lookup rh → 0 <= height (m n) →
  ∃ m' rh',
    recomputeHeap.add [n] m rh = Ret (m', rh') ∧
    heapOK m' rh' ∧ minHeightSettled rh' ∧
    recomputeHeap.has n rh' = true ∧
    (∀ k, k ≠ n → recomputeHeap.has k rh' = recomputeHeap.has k rh) ∧
    recomputeHeap.len rh' = S (recomputeHeap.len rh) ∧
    heightInRecomputeHeap (m' n) = height (m n) ∧
    n ∈ bucket rh' (height (m n)) ∧
    (∀ k, k ≠ n → m' k = m k).
Proof.
  intros Hok Hset Hn Hh.
  destruct (addNodeUnsafe_heapOK n m rh Hok Hn Hh) as (rh' & Hrun & Hok' & Hl' & Hb').
  assert (recomputeHeap.add [n] m rh
          = Ret (alter (set_heightInRecomputeHeap (height (m n))) n m, rh')) as Hadd.
  { unfold recomputeHeap.add. simpl. by rewrite Hrun. }
  eexists _, rh'. split; [exact Hadd|]. split; [done|].
  split; [exact (add_settled n m rh _ rh' Hok Hset Hh Hadd)|]. split_and!.
  - apply has_true. rewrite Hl'. set_solver.
  - intros k Hk. apply has_congr. rewrite Hl'. set_solver.
  - unfold recomputeHeap.len. rewrite Hl'. rewrite size_union by set_solver.
    by rewrite size_singleton.
  - by rewrite fn_lookup_alter.
  - rewrite Hb', decide_True by done. set_solver.
  - intros k Hk. by rewrite fn_lookup_alter_ne.
Qed.

(** X2: [add] indexes the bucket slice by the node's height: it panics
    exactly when the height is negative (a node whose height is
    [heightUnset]), and otherwise returns with the slice grown to hold the
    height. *)
Theorem add_panics_on_negative_height m rh n :
  (recomputeHeap.add [n] m rh = Panic ↔ height (m n) < 0) ∧
  (0 <= height (m n) →
   ∃ m' rh', recomputeHeap.add [n] m rh = Ret (m', rh') ∧
             length (recomputeHeap.heights rh')
             = max (length (recomputeHeap.heights rh)) (Z.to_nat (height (m n) + 1))).
Proof.
  assert (0 <= height (m n) →
          ∃ m' rh', recomputeHeap.add [n] m rh = Ret (m', rh') ∧
                    length (recomputeHeap.heights rh')
                    = max (length (recomputeHeap.heights rh)) (Z.to_nat (height (m n) + 1)))
    as Hret.
  { intros Hh. unfold recomputeHeap.add. simpl.
    unfold recomputeHeap.addNodeUnsafe.
    set (h := height (m n)) in *.
    set (rh1 := recomputeHeap.maybeUpdateMinMaxHeights h rh).
    pose proof (length_maybeAddNewHeights h rh1 Hh) as Hlen.
    destruct (lookup_lt_is_Some_2 _ _ Hlen) as [b Hb].
    assert (recomputeHeap.index
              (recomputeHeap.heights (recomputeHeap.maybeAddNewHeights h rh1)) h = Ret b)
      as -> by (by apply index_ret).
    simpl. eexists _, _. split; [reflexivity|]. simpl. rewrite length_insert.
    assert (recomputeHeap.heights rh1 = recomputeHeap.heights rh) as Hsame.
    { unfold rh1, recomputeHeap.maybeUpdateMinMaxHeights. repeat case_decide; done. }
    unfold recomputeHeap.maybeAddNewHeights. rewrite Hsame. case_decide as Hgrow; simpl.
    - rewrite length_app, length_replicate. lia.
    - rewrite Hsame. lia. }
  split; [|done]. split.
  - intros Hp. destruct (decide (0 <= height (m n))) as [Hh|]; [|lia].
    destruct (Hret Hh) as (? & ? & Hr & _). congruence.
  - intros Hneg. unfold recomputeHeap.add. simpl. unfold recomputeHeap.addNodeUnsafe.
    unfold recomputeHeap.index. by rewrite decide_False by lia.
Qed.

(** X3: [remove] answers false for a node that is not queued and changes
    nothing; for a queued node it answers true, takes the node out of
    [lookup] and of its bucket, resets its mark to [heightUnset], touches no
    other node, and leaves the heap consistent with [minHeight] settled. *)
Theorem remove_takes_the_node_out m rh k :
  heapOK m rh → minHeightSettled rh →
  (k ∉ recomputeHeap.lookup rh → recomputeHeap.remove k m rh = Ret (false, m, rh)) ∧
  (k ∈ recomputeHeap.lookup rh →
   ∃ m' rh',
     recomputeHeap.remove k m rh = Ret (true, m', rh') ∧
     heapOK m' rh' ∧ minHeightSettled rh' ∧
     recomputeHeap.has k rh' = false ∧
     (∀ j, j ≠ k → recomputeHeap.has j rh' = recomputeHeap.has j rh) ∧
     recomputeHeap.len rh = S (recomputeHeap.len rh') ∧
     heightInRecomputeHeap (m' k) = heightUnset ∧
     (∀ j, j ≠ k → m' j = m j) ∧
     (∀ x, bucket rh' x = bucket rh x ∖ {[k]})).
Proof.
  intros Hok Hset. split.
  - intros Hk. unfold recomputeHeap.remove. by rewrite decide_False.
  - intros Hk.
    destruct (remove_spec m rh k Hok Hset Hk) as (rh' & Hrun & Hok' & Hset' & Hl' & Hb' & _).
    eexists _, rh'. split; [exact Hrun|]. split_and!; try done.
    + apply has_false. rewrite Hl'. set_solver.
    + intros j Hj. apply has_congr. rewrite Hl'. set_solver.
    + unfold recomputeHeap.len.
      assert (recomputeHeap.lookup rh = {[k]} ∪ recomputeHeap.lookup rh') as ->.
      { rewrite Hl'. apply set_eq. intros j. rewrite elem_of_union, elem_of_difference,
          elem_of_singleton. split; [|intros [->|[? _]]; done].
        intros Hj. destruct (decide (j = k)); [by left|by right]. }
      rewrite size_union by (rewrite Hl'; set_solver). by rewrite size_singleton.
    + by rewrite fn_lookup_alter.
    + intros j Hj. by rewrite fn_lookup_alter_ne.
Qed.


(** X5: [removeMin] on a consistent heap that is not empty takes out a node of
    the least height among the queued ones: the node was queued, no queued
    node sits lower, it leaves [lookup] and its mark is reset, no other node
    is written, and the heap stays consistent. *)
Theorem removeMin_takes_a_lowest_node m rh :
  heapOK m rh → minHeightSettled rh → recomputeHeap.lookup rh ≠ ∅ →
  ∃ k m' rh',
    recomputeHeap.removeMin m rh = Ret (Some k, m', rh') ∧
    k ∈ recomputeHeap.lookup rh ∧
    (∀ j, j ∈ recomputeHeap.lookup rh →
       heightInRecomputeHeap (m k) <= heightInRecomputeHeap (m j)) ∧
    recomputeHeap.lookup rh' = recomputeHeap.lookup rh ∖ {[k]} ∧
    heightInRecomputeHeap (m' k) = heightUnset ∧
    (∀ j, j ≠ k → m' j = m j) ∧
    heapOK m' rh' ∧ minHeightSettled rh'.
Proof.
  intros Hok Hset Hne.
  destruct (removeMinUnsafe_spec m rh Hok Hset Hne)
    as (k & rh' & Hrun & Hk & Hok' & Hset' & Hl' & _).
  destruct (ok_bucket _ _ Hok _ _ Hk) as [Hkl Hkh].
  exists k. eexists _, rh'. split; [exact Hrun|]. split_and!; try done.
  - intros j Hj. rewrite Hkh. apply (ok_range _ _ Hok j Hj).
  - by rewrite fn_lookup_alter.
  - intros j Hj. by rewrite fn_lookup_alter_ne.
Qed.

(** X6: [removeMinHeight] on a consistent heap that is not empty returns,
    without repetition, exactly the queued nodes of the least height; they
    leave the heap with their marks reset, the nodes that stay are the ones
    queued higher, no other node struct is written, and the heap stays
    consistent. *)
Theorem removeMinHeight_takes_the_lowest_batch m rh :
  heapOK m rh → minHeightSettled rh → recomputeHeap.lookup rh ≠ ∅ →
  ∃ nodes m' rh',
    recomputeHeap.removeMinHeight m rh = Ret (nodes, m', rh') ∧
    NoDup nodes ∧ nodes ≠ [] ∧
    (∀ id, id ∈ nodes ↔
       id ∈ recomputeHeap.lookup rh ∧
       heightInRecomputeHeap (m id) = recomputeHeap.minHeight rh) ∧
    (∀ id, id ∈ recomputeHeap.lookup rh' ↔
       id ∈ recomputeHeap.lookup rh ∧
       recomputeHeap.minHeight rh < heightInRecomputeHeap (m id)) ∧
    (∀ id, id ∈ nodes → heightInRecomputeHeap (m' id) = heightUnset) ∧
    (∀ id, id ∉ nodes → m' id = m id) ∧
    heapOK m' rh' ∧ minHeightSettled rh'.
Proof.
  intros Hok Hset Hne. pose proof Hok as [Hmin Hl Hb Hr].
  destruct Hset as [[Hemp _]|(_ & Hbne & Hbelow)]; [done|].
  destruct (removeMinHeight_spec m rh Hok Hbne)
    as (m' & rh' & Hrun & Hset' & Hl' & Hb' & Hmax' & Hm').
  set (s := bucket rh (recomputeHeap.minHeight rh)) in *.
  assert (∀ id, id ∈ s ↔ id ∈ recomputeHeap.lookup rh ∧
                         heightInRecomputeHeap (m id) = recomputeHeap.minHeight rh) as Hs.
  { intros id. split; [apply Hb|]. intros [Hid E]. unfold s. rewrite <-E. by apply Hl. }
  exists (mapOrder s), m', rh'. split; [done|]. split_and!.
  - apply mapOrder_NoDup.
  - by rewrite mapOrder_nil.
  - intros id. by rewrite mapOrder_elem.
  - intros id. rewrite Hl', elem_of_difference, Hs. split.
    + intros [Hid Hnot]. split; [done|]. pose proof (Hr id Hid).
      destruct (decide (heightInRecomputeHeap (m id) = recomputeHeap.minHeight rh)); [|lia].
      destruct Hnot. done.
    + intros [Hid Hlt]. split; [done|]. intros [_ E]. lia.
  - intros id Hid%mapOrder_elem. rewrite Hm', decide_True by done. done.
  - intros id Hid. rewrite mapOrder_elem in Hid. by rewrite Hm', decide_False.
  - apply heapOK_of_settled; [| | |done].
    + intros id. rewrite Hl'. intros [Hid Hnot]%elem_of_difference.
      rewrite Hm', decide_False by done. rewrite Hb'. case_decide as E; [|by apply Hl].
      destruct Hnot. apply Hs. split; [done|]. rewrite <-E.
      pose proof (Hl id Hid) as Hin. by destruct (Hb _ _ Hin).
    + intros x id. rewrite Hb'. case_decide as E; [set_solver|]. intros Hid.
      destruct (Hb x id Hid) as [Hid1 Hid2].
      assert (id ∉ s) by (rewrite Hs; intros [_ ?]; congruence).
      rewrite Hl', Hm', decide_False by done. split; [set_solver|done].
    + intros id. rewrite Hl', Hmax'. intros [Hid Hnot]%elem_of_difference.
      rewrite Hm', decide_False by done. by apply Hr.
  - done.
Qed.

(** X7: on a consistent heap [sanityCheck] returns nil exactly when every
    queued node still has the height it was queued at. *)
Theorem sanityCheck_accepts_consistent_heaps m rh :
  heapOK m rh → minHeightSettled rh →
  (recomputeHeap.sanityCheck m rh = Ret None ↔
   ∀ id, id ∈ recomputeHeap.lookup rh → height (m id) = heightInRecomputeHeap (m id)).
Proof.
  intros Hok Hset. pose proof Hok as [Hmin Hl Hb Hr]. split.
  - intros Hsane id Hid.
    destruct (sanityCheck_passes m rh _ id Hsane (Hl id Hid)) as (_ & -> & _). done.
  - intros Hheights. unfold recomputeHeap.sanityCheck.
    assert ((if decide (0 < size (recomputeHeap.lookup rh))%nat
             then b ← recomputeHeap.index (recomputeHeap.heights rh)
                        (recomputeHeap.minHeight rh);
                  Ret (bool_decide (recomputeHeap.mapLen b = O))
             else Ret false) = Ret false) as ->.
    { case_decide as Hsz; [|done].
      destruct Hset as [[Hemp _]|(_ & Hbne & _)].
      - rewrite Hemp, size_empty in Hsz. lia.
      - destruct (index_of_bucket rh _ Hbne) as (b & -> & Hbb). simpl.
        rewrite bool_decide_eq_false_2; [done|].
        assert (0 < recomputeHeap.mapLen b)%nat by (rewrite mapLen_pos, Hbb; done). lia. }
    simpl. f_equal. apply firstError_None. intros [i b] Hib.
    apply elem_of_lookup_imap in Hib as (i' & b' & [= -> ->] & Hib).
    unfold recomputeHeap.checkBlock. simpl. destruct b' as [s|]; [|done].
    apply firstError_None. intros id Hid%mapOrder_elem.
    assert (id ∈ bucket rh (Z.of_nat i')) as Hin.
    { unfold bucket. rewrite decide_True by lia. rewrite Nat2Z.id, Hib. done. }
    destruct (Hb _ _ Hin) as [Hin1 Hin2].
    unfold recomputeHeap.checkItem.
    rewrite decide_False by (intros E; done).
    rewrite decide_False by (rewrite (Hheights id Hin1); intros E; done).
    by rewrite decide_True.
Qed.

End HeapProperties.

Section HeapFix.
Context {World UserError : Type} `{MapIter}.
Implicit Types (m : Mem World UserError) (rh : recomputeHeap.t).

(** X8: [fix] of an identifier that is not queued changes nothing; for a
    queued node whose height has changed it moves the node into the bucket of
    its present height: the lookup table is as before, the node has left its
    old bucket, its mark is its height, no other node struct is written, and
    lookup and buckets stay consistent.  [minHeight] is not settled anew: it
    becomes the node's height when the node is alone in the heap, and
    otherwise the smaller of its old value and the node's height. *)
Theorem fix_moves_the_node_to_its_height m rh k :
  heapOK m rh → 0 <= height (m k) →
  (k ∉ recomputeHeap.lookup rh → recomputeHeap.fix_ [k] m rh = Ret (m, rh)) ∧
  (k ∈ recomputeHeap.lookup rh →
   ∃ m' rh',
     recomputeHeap.fix_ [k] m rh = Ret (m', rh') ∧
     recomputeHeap.lookup rh' = recomputeHeap.lookup rh ∧
     (∀ x, bucket rh' x = if decide (x = height (m k)) then {[k]} ∪ bucket rh x
                          else bucket rh x ∖ {[k]}) ∧
     heightInRecomputeHeap (m' k) = height (m k) ∧
     (∀ j, j ≠ k → m' j = m j) ∧
     heapOK m' rh' ∧
     recomputeHeap.minHeight rh'
     = (if decide (recomputeHeap.lookup rh = {[k]}) then height (m k)
        else Z.min (recomputeHeap.minHeight rh) (height (m k)))).
Proof.
  intros Hok Hh. pose proof Hok as [Hmin Hl Hb Hr]. split.
  - intros Hk. unfold recomputeHeap.fix_. simpl. by rewrite decide_False.
  - intros Hk. unfold recomputeHeap.fix_. simpl. rewrite decide_True by done.
    set (h0 := heightInRecomputeHeap (m k)).
    assert (bucket rh h0 ≠ ∅) as Hne by (specialize (Hl k Hk); set_solver).
    destruct (index_of_bucket rh _ Hne) as (b & Hb0 & Hbb).
    rewrite Hb0. simpl.
    pose proof Hb0 as [Hh0 Hb0']%index_ret. pose proof (lookup_lt_Some _ _ _ Hb0') as Hlen.
    set (rh1 := recomputeHeap.set_lookup (recomputeHeap.lookup rh ∖ {[k]})
                  (recomputeHeap.set_heights
                     (<[Z.to_nat h0 := recomputeHeap.mapDelete k b]> (recomputeHeap.heights rh))
                     rh)).
    set (m1 := alter (set_heightInRecomputeHeap heightUnset) k m).
    assert (default ∅ (recomputeHeap.mapDelete k b) = bucket rh h0 ∖ {[k]}) as Hdel.
    { destruct b as [s|]; simpl in *; [by rewrite Hbb|]. rewrite <-Hbb. set_solver. }
    assert (∀ x, bucket rh1 x = bucket rh x ∖ {[k]}) as Hb1.
    { intros x. unfold rh1. rewrite bucket_insert by done. case_decide as Hx.
      - subst x. done.
      - symmetry. by eapply bucket_delete_other. }
    assert (∀ id, id ≠ k → heightInRecomputeHeap (m1 id) = heightInRecomputeHeap (m id))
      as Hm1.
    { intros id Hid. unfold m1. by rewrite fn_lookup_alter_ne. }
    assert (heapOK m1 rh1) as Hok1.
    { split.
      - done.
      - intros id. intros [Hid Hnk]%elem_of_difference.
        assert (id ≠ k) by set_solver. rewrite Hm1, Hb1 by done.
        specialize (Hl id Hid). set_solver.
      - intros x id. rewrite Hb1. intros [Hid Hnk]%elem_of_difference.
        assert (id ≠ k) by set_solver. rewrite Hm1 by done.
        destruct (Hb x id Hid). unfold rh1. simpl. set_solver.
      - intros id. intros [Hid Hnk]%elem_of_difference.
        assert (id ≠ k) by set_solver. rewrite Hm1 by done. by apply Hr. }
    assert (height (m1 k) = height (m k)) as Hhk by (unfold m1; by rewrite fn_lookup_alter).
    destruct (addNodeUnsafe_heapOK k m1 rh1 Hok1) as (rh' & Hrun & Hok' & Hl' & Hb').
    { unfold rh1. simpl. set_solver. }
    { by rewrite Hhk. }
    destruct (addNodeUnsafe_spec k m1 rh1) as (rh'' & Hrun' & _ & _ & Hmin' & _).
    { by rewrite Hhk. }
    rewrite Hrun' in Hrun. injection Hrun as ->.
    rewrite Hrun'. simpl. rewrite Hhk in *.
    eexists _, rh'. split; [reflexivity|]. split_and!.
    + rewrite Hl'. unfold rh1. simpl. apply set_eq. intros j.
      rewrite elem_of_union, elem_of_difference, elem_of_singleton.
      split; [intros [->|[? _]]; done|]. intros Hj.
      destruct (decide (j = k)); [by left|by right].
    + intros x. rewrite Hb', Hb1. case_decide; [|done]. apply set_eq. intros j.
      rewrite !elem_of_union, elem_of_difference, elem_of_singleton.
      destruct (decide (j = k)); tauto.
    + by rewrite fn_lookup_alter.
    + intros j Hj. unfold m1. by rewrite !fn_lookup_alter_ne.
    + done.
    + rewrite Hmin'. unfold recomputeHeap.maybeUpdateMinMaxHeights.
      change (recomputeHeap.lookup rh1) with (recomputeHeap.lookup rh ∖ {[k]}).
      assert (size (recomputeHeap.lookup rh ∖ {[k]}) = O ↔ recomputeHeap.lookup rh = {[k]})
        as Hsz.
      { rewrite size_zero_empty. split.
        - intros Hemp. apply set_eq. intros j. rewrite elem_of_singleton.
          split; [|by intros ->]. intros Hj. destruct (decide (j = k)) as [|Hjk]; [done|].
          assert (j ∈ recomputeHeap.lookup rh ∖ {[k]}) as Hin.
          { apply elem_of_difference. split; [done|]. by rewrite elem_of_singleton. }
          rewrite Hemp in Hin. by apply elem_of_empty in Hin.
        - intros ->. apply set_eq. intros j.
          rewrite elem_of_difference, elem_of_singleton, elem_of_empty. tauto. }
      destruct (decide (recomputeHeap.lookup rh = {[k]})) as [Hone|Hmore].
      * rewrite decide_True by (by apply Hsz). done.
      * rewrite decide_False by (by rewrite Hsz).
        change (recomputeHeap.minHeight rh1) with (recomputeHeap.minHeight rh).
        repeat case_decide; simpl; lia.
Qed.

(** X9: a heap straight from [newRecomputeHeap]: a negative capacity panics
    in [make]; with capacity zero there is no bucket to read, so [removeMin]
    and [removeMinHeight] panic; with a positive capacity both return nothing
    and leave the heap as it is. *)
Theorem fresh_heap_removals m cap :
  (cap < 0 → recomputeHeap.newRecomputeHeap cap = Panic) ∧
  (cap = 0 →
   ∃ rh, recomputeHeap.newRecomputeHeap cap = Ret rh ∧
         recomputeHeap.removeMin m rh = Panic ∧
         recomputeHeap.removeMinHeight m rh = Panic) ∧
  (0 < cap →
   ∃ rh, recomputeHeap.newRecomputeHeap cap = Ret rh ∧
         recomputeHeap.len rh = O ∧
         recomputeHeap.removeMin m rh = Ret (None, m, rh) ∧
         recomputeHeap.removeMinHeight m rh = Ret ([], m, rh)).
Proof.
  unfold recomputeHeap.newRecomputeHeap. split_and!.
  - intros Hc. by rewrite decide_False by lia.
  - intros ->. simpl. eexists. split; [reflexivity|]. done.
  - intros Hc. rewrite decide_True by lia. eexists. split; [reflexivity|].
    assert (replicate (Z.to_nat cap) (@None (gset Identifier)) !! O = Some None) as H0.
    { apply lookup_replicate. split; [done|lia]. }
    split; [done|].
    unfold recomputeHeap.removeMin, recomputeHeap.removeMinUnsafe, recomputeHeap.removeMinHeight,
      recomputeHeap.span.
    cbn [recomputeHeap.heights recomputeHeap.minHeight recomputeHeap.maxHeight].
    change (Z.to_nat (0 - 0 + 1)) with 1%nat. cbn [recomputeHeap.removeMinFrom].
    unfold recomputeHeap.index.
    cbn [recomputeHeap.heights recomputeHeap.minHeight recomputeHeap.maxHeight].
    rewrite decide_True by lia.
    change (Z.to_nat 0) with O. rewrite H0. simpl. done.
Qed.

End HeapFix.

(** ** More facts about the pass *)

Section GraphMore.
Context {World UserError : Type} `{MapIter} `{NodePredicates World UserError}.
Implicit Types (g : Graph World UserError) (m : Mem World UserError)
  (rh : recomputeHeap.t).

(** What the enqueuing loops leave alone in the graph. *)
Lemma enqueue_fields cs g g' :
  enqueue cs g = Ret g' →
  world g' = world g ∧
  setDuringStabilization g' = setDuringStabilization g ∧
  handleAfterStabilization g' = handleAfterStabilization g ∧
  stabilizationNum g' = stabilizationNum g ∧
  status g' = status g ∧
  numNodesRecomputed g' = numNodesRecomputed g ∧
  numNodesChanged g' = numNodesChanged g ∧
  (∀ id, id ∈ recomputeHeap.lookup (recomputeHeap g') →
     id ∈ recomputeHeap.lookup (recomputeHeap g) ∨ id ∈ cs).
Proof.
  revert g. induction cs as [|c cs IH]; intros g; simpl.
  - intros [= <-]. split_and!; auto.
  - intros (g1 & Hone & Hrest)%run_bind_ret.
    apply IH in Hrest as (Hw & Hsd & Hh & Hn & Hst & Hnr & Hnc & Hl).
    assert (world g1 = world g ∧
            setDuringStabilization g1 = setDuringStabilization g ∧
            handleAfterStabilization g1 = handleAfterStabilization g ∧
            stabilizationNum g1 = stabilizationNum g ∧
            status g1 = status g ∧
            numNodesRecomputed g1 = numNodesRecomputed g ∧
            numNodesChanged g1 = numNodesChanged g ∧
            (∀ id, id ∈ recomputeHeap.lookup (recomputeHeap g1) →
               id ∈ recomputeHeap.lookup (recomputeHeap g) ∨ id = c))
      as (Hw1 & Hsd1 & Hh1 & Hn1 & Hst1 & Hnr1 & Hnc1 & Hl1).
    { destruct (isNecessary (mem g) c && isStale (mem g) c
                && bool_decide (heightInRecomputeHeap (mem g c) = heightUnset)).
      - apply heapAdd_ret in Hone as (_ & _ & Hl1 & ? & ? & ? & ? & ? & ? & ?).
        split_and!; try done. intros id. rewrite Hl1. set_solver.
      - injection Hone as <-. split_and!; auto. }
    split_and!; try congruence.
    intros id Hid. destruct (Hl id Hid) as [Hin|Hin]; [|right; by right].
    destruct (Hl1 id Hin) as [?| ->]; [by left|right; by left].
Qed.

(** [recompute] writes the struct of the recomputed node and heap marks,
    nothing else in the memory; the stabilization number, the status and the
    record of variables set during the pass are not written. *)
Lemma recompute_others n g g' err :
  recompute n g = Ret (g', err) →
  (∀ id, id ≠ n → unmarked (mem g' id) = unmarked (mem g id)) ∧
  recomputedAt (mem g' n) = stabilizationNum g ∧
  stabilizationNum g' = stabilizationNum g ∧
  status g' = status g ∧
  setDuringStabilization g' = setDuringStabilization g ∧
  recomputeHeap.lookup (recomputeHeap g) ⊆ recomputeHeap.lookup (recomputeHeap g').
Proof.
  unfold recompute. simpl.
  match goal with |- context [alter ?f n (mem g)] => set (f1 := f) end.
  assert (∀ f m id, id ≠ n → unmarked (alter f n m id) = unmarked (m id)) as Hne.
  { intros f m id Hid. by rewrite fn_lookup_alter_ne. }
  assert (recomputedAt (alter f1 n (mem g) n) = stabilizationNum g) as Hr1
    by (by rewrite fn_lookup_alter).
  destruct (maybeCutoff (alter f1 n (mem g) n) (world g)) as [w3 [shouldCutoff e3]].
  destruct e3 as [e3|]; [intros [= <- <-]; simpl; split_and!; auto|].
  destruct shouldCutoff; [intros [= <- <-]; simpl; split_and!; auto|].
  simpl.
  match goal with |- context [alter ?f n (alter f1 n (mem g))] => set (f2 := f) end.
  assert (recomputedAt (alter f2 n (alter f1 n (mem g)) n) = stabilizationNum g) as Hr2.
  { rewrite fn_lookup_alter. simpl. exact Hr1. }
  destruct (maybeStabilize (alter f2 n (alter f1 n (mem g)) n) w3) as [w6 e6].
  destruct e6 as [e6|].
  { intros [= <- <-]. simpl. split_and!; auto. intros id Hid. by rewrite !Hne. }
  simpl.
  match goal with |- context [alter ?f n (alter f2 n (alter f1 n (mem g)))] =>
    set (f3 := f) end.
  set (m3 := alter f3 n (alter f2 n (alter f1 n (mem g)))).
  assert (recomputedAt (m3 n) = stabilizationNum g) as Hr3.
  { unfold m3. rewrite fn_lookup_alter. simpl. exact Hr2. }
  match goal with |- context [enqueue (children (mem _ n)) ?gb] => set (g8 := gb) end.
  assert (mem g8 = m3 ∧ recomputeHeap g8 = recomputeHeap g ∧
          stabilizationNum g8 = stabilizationNum g ∧ status g8 = status g ∧
          setDuringStabilization g8 = setDuringStabilization g) as (Hm8 & Hr8 & Hn8 & Hs8 & Hd8).
  { unfold g8. case_decide; done. }
  intros (g9 & Hc & (g10 & Ho & [= <- <-])%run_bind_ret)%run_bind_ret.
  pose proof (enqueue_frame _ _ _ Hc) as [Hu9 Hl9].
  pose proof (enqueue_frame _ _ _ Ho) as [Hu10 Hl10].
  pose proof (enqueue_fields _ _ _ Hc) as (_ & Hsd9 & _ & Hn9 & Hst9 & _).
  pose proof (enqueue_fields _ _ _ Ho) as (_ & Hsd10 & _ & Hn10 & Hst10 & _).
  split_and!.
  - intros id Hid. rewrite Hu10, Hu9, Hm8. unfold m3. by rewrite !Hne.
  - destruct (unmarked_fields _ _ (Hu10 n)) as (_&_&_&_&_&_&_&->&_).
    destruct (unmarked_fields _ _ (Hu9 n)) as (_&_&_&_&_&_&_&->&_).
    by rewrite Hm8.
  - congruence.
  - congruence.
  - congruence.
  - rewrite <-Hr8. set_solver.
Qed.

End GraphMore.

Section PassMore.
Context {World UserError : Type} `{MapIter} `{NodePredicates World UserError}.
Implicit Types (g : Graph World UserError) (m : Mem World UserError)
  (rh : recomputeHeap.t).

(** The drain loop ends without error only on an empty heap. *)
Lemma drain_drained fuel g imm g' imm' :
  drain fuel g imm = Ret (g', None, imm') →
  recomputeHeap.lookup (recomputeHeap g') = ∅.
Proof.
  revert g imm. induction fuel as [|fuel IH]; intros g imm; simpl.
  - case_decide as Hsz; [done|]. intros [= <- <-].
    apply size_zero_empty. lia.
  - case_decide as Hsz; [|intros [= <- <-]; apply size_zero_empty; lia].
    intros ([[next m1] rh1] & Hpop & Hrest)%run_bind_ret.
    apply run_bind_ret in Hrest as ([[g2 e2] imm2] & Hbatch & Hrest).
    destruct e2 as [e2|]; [done|]. by eapply IH.
Qed.

Lemma recomputeBatch_fields todo g imm g' err imm' :
  recomputeBatch todo g imm = Ret (g', err, imm') →
  stabilizationNum g' = stabilizationNum g ∧ status g' = status g.
Proof.
  revert g imm. induction todo as [|n todo IH]; intros g imm; simpl.
  - intros [= <- <- <-]. done.
  - intros ([g1 e1] & Hrec & Hrest)%run_bind_ret.
    apply recompute_others in Hrec as (_ & _ & Hn & Hs & _).
    destruct e1 as [e1|].
    + injection Hrest as <- <- <-. done.
    + apply IH in Hrest as [? ?]. split; congruence.
Qed.

Lemma drain_fields fuel g imm g' err imm' :
  drain fuel g imm = Ret (g', err, imm') →
  stabilizationNum g' = stabilizationNum g ∧ status g' = status g.
Proof.
  revert g imm. induction fuel as [|fuel IH]; intros g imm; simpl.
  - case_decide; [done|]. intros [= <- <- <-]. done.
  - case_decide; [|intros [= <- <- <-]; done].
    intros ([[next m1] rh1] & Hpop & Hrest)%run_bind_ret.
    apply run_bind_ret in Hrest as ([[g2 e2] imm2] & Hbatch & Hrest).
    apply recomputeBatch_fields in Hbatch as [Hn Hs]. simpl in *.
    destruct e2 as [e2|].
    + injection Hrest as <- <- <-. done.
    + apply IH in Hrest as [? ?]. split; congruence.
Qed.

(** A batch that does not fail serves every node of the batch. *)
Lemma recomputeBatch_served todo m0 queued0 g mh imm g' imm' :
  passInv m0 (mem g) (recomputeHeap g) mh todo →
  served m0 queued0 (mem g) (recomputeHeap g) todo (stabilizationNum g) →
  recomputeBatch todo g imm = Ret (g', None, imm') →
  served m0 queued0 (mem g') (recomputeHeap g') [] (stabilizationNum g).
Proof.
  revert g imm. induction todo as [|n todo IH]; intros g imm Hinv Hsv; simpl.
  - intros [= <- <-]. done.
  - intros ([g1 e1] & Hrec & Hrest)%run_bind_ret.
    destruct e1 as [e1|]; [done|].
    pose proof (recompute_pass _ _ _ _ _ _ _ Hinv Hrec) as Hinv1.
    pose proof (recompute_others _ _ _ _ Hrec) as (Hu & Hat & Hn & _ & _ & Hl).
    pose proof (recompute_frame _ _ _ _ Hrec) as (_ & _ & Hcount).
    rewrite <-Hn. eapply IH; [exact Hinv1| |exact Hrest].
    rewrite Hn. intros id Hid.
    destruct (decide (id = n)) as [->|Hne].
    + right; right. split; [done|]. rewrite Hcount. do 2 f_equal.
      apply (pi_fresh _ _ _ _ _ Hinv). right; left.
    + destruct (Hsv id Hid) as [Hin|[Hin|[Hr Hc]]].
      * left. set_solver.
      * right; left. apply elem_of_cons in Hin as [?|?]; done.
      * right; right. destruct (unmarked_fields _ _ (Hu id Hne))
          as (_&_&_&_&_&_&_&->&_&_&_&_&_&->&_). done.
Qed.

(** A drain loop that does not fail serves every node queued at its start. *)
Lemma drain_served fuel m0 queued0 g mh imm g' imm' :
  passInv m0 (mem g) (recomputeHeap g) mh [] →
  served m0 queued0 (mem g) (recomputeHeap g) [] (stabilizationNum g) →
  drain fuel g imm = Ret (g', None, imm') →
  served m0 queued0 (mem g') (recomputeHeap g') [] (stabilizationNum g).
Proof.
  revert g mh imm. induction fuel as [|fuel IH]; intros g mh imm Hinv Hsv; simpl.
  - case_decide; [done|]. intros [= <- <-]. done.
  - case_decide; [|intros [= <- <-]; done].
    intros ([[next m1] rh1] & Hpop & Hrest)%run_bind_ret.
    apply run_bind_ret in Hrest as ([[g2 e2] imm2] & Hbatch & Hrest).
    destruct e2 as [e2|]; [done|].
    destruct (removeMinHeight_pass _ _ _ _ _ _ _ Hinv Hpop) as [mh1 Hinv1].
    pose proof (removeMinHeight_frame _ _ _ _ _ Hpop) as Hu.
    assert (served m0 queued0 m1 rh1 next (stabilizationNum g)) as Hsv1.
    { intros id Hid. destruct (Hsv id Hid) as [Hin|[Hin|[Hr Hc]]].
      - revert Hpop. unfold recomputeHeap.removeMinHeight.
        intros (b & Hb & Hr)%run_bind_ret. case_decide.
        + apply run_bind_ret in Hr as (nx & _ & [= <- <- <-]). simpl.
          rewrite foldl_delete_lookup.
          destruct (decide (id ∈ mapOrder (default ∅ b))) as [Hn|Hn]; [right; by left|].
          left. rewrite elem_of_difference, elem_of_list_to_set. done.
        + injection Hr as <- <- <-. by left.
      - by apply elem_of_nil in Hin.
      - right; right. destruct (unmarked_fields _ _ (Hu id))
          as (_&_&_&_&_&_&_&->&_&_&_&_&_&->&_). done. }
    pose proof (recomputeBatch_served next m0 queued0 (set_recomputeHeap rh1 (set_mem m1 g))
                  mh1 imm g2 imm2 Hinv1 Hsv1 Hbatch) as Hsv2.
    destruct (recomputeBatch_pass next m0 (set_recomputeHeap rh1 (set_mem m1 g)) mh1
                _ _ _ _ Hinv1 Hbatch) as (rest & Hinv2 & Hnil).
    rewrite Hnil in Hinv2 by done.
    apply recomputeBatch_fields in Hbatch as [Hn _]. simpl in Hn, Hsv2.
    rewrite <-Hn. eapply IH; [exact Hinv2| |exact Hrest]. by rewrite Hn.
Qed.

(** Only always-nodes are remembered for the re-add. *)
Lemma recomputeBatch_always todo m0 g imm g' err imm' :
  (∀ id, shape (mem g id) = shape (m0 id)) →
  (∀ id, id ∈ imm → always (m0 id) = true) →
  recomputeBatch todo g imm = Ret (g', err, imm') →
  (∀ id, shape (mem g' id) = shape (m0 id)) ∧
  (∀ id, id ∈ imm' → always (m0 id) = true).
Proof.
  revert g imm. induction todo as [|n todo IH]; intros g imm Hs Himm; simpl.
  - intros [= <- <- <-]. done.
  - intros ([g1 e1] & Hrec & Hrest)%run_bind_ret.
    apply recompute_frame in Hrec as (Hs1 & _ & _).
    assert (∀ id, shape (mem g1 id) = shape (m0 id)) as Hs1'
      by (intros id; by rewrite Hs1).
    destruct e1 as [e1|].
    + injection Hrest as <- <- <-. done.
    + eapply IH; [done| |exact Hrest].
      intros id Hid. destruct (always (mem g1 n)) eqn:Ha; [|by apply Himm].
      apply elem_of_app in Hid as [Hid|Hid]; [by apply Himm|].
      apply elem_of_cons in Hid as [->|Hid]; [|by apply elem_of_nil in Hid].
      destruct (shape_fields _ _ (Hs1' n)) as (_&_&_&<-). done.
Qed.

Lemma drain_always fuel m0 g imm g' err imm' :
  (∀ id, shape (mem g id) = shape (m0 id)) →
  (∀ id, id ∈ imm → always (m0 id) = true) →
  drain fuel g imm = Ret (g', err, imm') →
  ∀ id, id ∈ imm' → always (m0 id) = true.
Proof.
  revert g imm. induction fuel as [|fuel IH]; intros g imm Hs Himm; simpl.
  - case_decide; [done|]. intros [= <- <- <-]. done.
  - case_decide; [|intros [= <- <- <-]; done].
    intros ([[next m1] rh1] & Hpop & Hrest)%run_bind_ret.
    apply run_bind_ret in Hrest as ([[g2 e2] imm2] & Hbatch & Hrest).
    pose proof (removeMinHeight_frame _ _ _ _ _ Hpop) as Hu.
    apply recomputeBatch_always with (m0 := m0) in Hbatch as [Hs2 Himm2]; [| |done].
    + destruct e2 as [e2|].
      * injection Hrest as <- <- <-. done.
      * eapply IH; [exact Hs2|exact Himm2|exact Hrest].
    + intros id. simpl. destruct (unmarked_shape _ _ (Hu id)) as [-> _]. done.
Qed.

(** What the closing steps queue and what they leave of the timestamps. *)
Lemma SetStale_more n g g' :
  SetStale n g = Ret g' →
  (∀ id, recomputedAt (mem g' id) = recomputedAt (mem g id)) ∧
  (∀ id, id ∈ recomputeHeap.lookup (recomputeHeap g') →
     id ∈ recomputeHeap.lookup (recomputeHeap g) ∨ id = n) ∧
  numNodesRecomputed g' = numNodesRecomputed g.
Proof.
  unfold SetStale.
  set (g1 := set_mem _ g).
  assert (∀ id, recomputedAt (mem g1 id) = recomputedAt (mem g id)) as H1.
  { intros id. unfold g1. simpl. destruct (decide (n = id)) as [->|Hne].
    - by rewrite fn_lookup_alter.
    - by rewrite fn_lookup_alter_ne. }
  case_decide.
  - intros (Hu & _ & Hl & _ & _ & _ & _ & _ & Hnr & _)%heapAdd_ret. split_and!.
    + intros id. destruct (unmarked_fields _ _ (Hu id)) as (_&_&_&_&_&_&_&->&_). done.
    + intros id. rewrite Hl. set_solver.
    + done.
  - intros [= <-]. split_and!; auto.
Qed.

Lemma handleAllSetDuringStabilization_more ns g g' :
  handleAllSetDuringStabilization ns g = Ret g' →
  (∀ id, recomputedAt (mem g' id) = recomputedAt (mem g id)) ∧
  (∀ id, id ∈ recomputeHeap.lookup (recomputeHeap g') →
     id ∈ recomputeHeap.lookup (recomputeHeap g) ∨ id ∈ ns) ∧
  numNodesRecomputed g' = numNodesRecomputed g.
Proof.
  revert g. induction ns as [|a ns IH]; intros g; simpl.
  - intros [= <-]. split_and!; auto.
  - intros (g1 & Hone & Hrest)%run_bind_ret.
    unfold handleSetDuringStabilization in Hone.
    destruct (maybeStabilize (mem g a) (world g)) as [w e].
    apply SetStale_more in Hone as (Hr1 & Hl1 & Hn1). simpl in *.
    apply IH in Hrest as (Hr & Hl & Hn). split_and!.
    + intros id. by rewrite Hr, Hr1.
    + intros id Hid. destruct (Hl id Hid) as [Hin|Hin]; [|right; by right].
      destruct (Hl1 id Hin) as [?| ->]; [by left|right; by left].
    + congruence.
Qed.

Lemma stabilizeEnd_more err g g' :
  stabilizeEnd err g = Ret g' →
  (∀ id, recomputedAt (mem g' id) = recomputedAt (mem g id)) ∧
  (∀ id, id ∈ recomputeHeap.lookup (recomputeHeap g') →
     id ∈ recomputeHeap.lookup (recomputeHeap g) ∨ id ∈ setDuringStabilization g) ∧
  numNodesRecomputed g' = numNodesRecomputed g.
Proof.
  unfold stabilizeEnd, stabilizeEndHandleSetDuringStabilization.
  intros (g4 & (g5 & Hall & [= <-])%run_bind_ret & [= <-])%run_bind_ret. simpl.
  apply handleAllSetDuringStabilization_more in Hall as (Hr & Hl & Hn). simpl in *.
  split_and!; try done.
  intros id Hid. destruct (Hl id Hid) as [?|Hin]; [by left|right]. by apply mapOrder_elem in Hin.
Qed.

End PassMore.

(** ** Properties of [recompute] *)

Section GraphProperties.
Context {World UserError : Type} `{MapIter} `{NodePredicates World UserError}.
Implicit Types (g : Graph World UserError) (m : Mem World UserError)
  (rh : recomputeHeap.t).

(** X10: when the cutoff callback of a node returns an error, [recompute]
    returns that error after the node's error handlers ran on the world the
    cutoff left; the stabilize callback is not run, the recompute is counted
    ([numRecomputes], [recomputedAt], [numNodesRecomputed]) but no change is
    ([numChanges], [numNodesChanged], [changedAt]), and neither the heap, the
    update-handler queue nor any other node struct is written. *)
Theorem recompute_cutoff_error_counts_no_change g n w b e :
  maybeCutoff (mem g n) (world g) = (w, (b, Some e)) →
  ∃ g',
    recompute n g = Ret (g', Some e) ∧
    world g' = runErrorHandlers (onErrorHandlers (mem g n)) e w ∧
    numRecomputes (mem g' n) = uint64 (numRecomputes (mem g n) + 1) ∧
    recomputedAt (mem g' n) = stabilizationNum g ∧
    numNodesRecomputed g' = uint64 (numNodesRecomputed g + 1) ∧
    numChanges (mem g' n) = numChanges (mem g n) ∧
    numNodesChanged g' = numNodesChanged g ∧
    changedAt (mem g' n) = changedAt (mem g n) ∧
    recomputeHeap g' = recomputeHeap g ∧
    handleAfterStabilization g' = handleAfterStabilization g ∧
    (∀ c, c ≠ n → mem g' c = mem g c).
Proof.
  intros Hc. unfold recompute. simpl.
  rewrite maybeCutoff_counters by done. rewrite Hc. simpl.
  eexists. split; [reflexivity|]. simpl. rewrite !fn_lookup_alter. split_and!; try done.
  intros c Hne. by rewrite fn_lookup_alter_ne.
Qed.

Section Propagation.

(** What is assumed of [isNecessary] and [isStale], which are declared outside
    the files at hand: they do not read [heightInRecomputeHeap]. *)
Hypothesis predicates_ignore_marks :
  ∀ m m' c, (∀ id, unmarked (m id) = unmarked (m' id)) →
            isNecessary m c = isNecessary m' c ∧ isStale m c = isStale m' c.

Lemma enqueue_queues cs g :
  (∀ id, id ∉ recomputeHeap.lookup (recomputeHeap g) →
     heightInRecomputeHeap (mem g id) = heightUnset) →
  (∀ c, c ∈ cs → 0 <= height (mem g c)) →
  ∃ g',
    enqueue cs g = Ret g' ∧
    (∀ id, id ∉ recomputeHeap.lookup (recomputeHeap g') →
       heightInRecomputeHeap (mem g' id) = heightUnset) ∧
    (∀ c, c ∈ cs → isNecessary (mem g') c = true → isStale (mem g') c = true →
       c ∈ recomputeHeap.lookup (recomputeHeap g')).
Proof.
  revert g. induction cs as [|c cs IH]; intros g Hunset Hh; simpl.
  - eexists. split; [reflexivity|]. split; [done|]. intros c Hc. by apply elem_of_nil in Hc.
  - assert (∃ g1, (if isNecessary (mem g) c && isStale (mem g) c
                      && bool_decide (heightInRecomputeHeap (mem g c) = heightUnset)
                   then heapAdd [c] g else Ret g) = Ret g1 ∧
                  (∀ id, unmarked (mem g1 id) = unmarked (mem g id)) ∧
                  (∀ id, id ∉ recomputeHeap.lookup (recomputeHeap g1) →
                     heightInRecomputeHeap (mem g1 id) = heightUnset) ∧
                  (isNecessary (mem g) c = true → isStale (mem g) c = true →
                     c ∈ recomputeHeap.lookup (recomputeHeap g1)))
      as (g1 & Hstep & Hu1 & Hunset1 & Hc1).
    { destruct (isNecessary (mem g) c && isStale (mem g) c) eqn:Hguard; simpl.
      - case_bool_decide as Hmark.
        + destruct (heapAdd_total [c] g) as [g1 Hadd].
          { intros c' Hc'. apply elem_of_cons in Hc' as [->|Hc']; [apply Hh; left|].
            by apply elem_of_nil in Hc'. }
          exists g1. split; [done|].
          apply heapAdd_ret in Hadd as (Hu & Ho & Hl & _). split; [done|]. split.
          * intros id Hid. rewrite Hl in Hid. rewrite Ho by set_solver.
            apply Hunset. set_solver.
          * intros _ _. rewrite Hl. set_solver.
        + exists g. split; [done|]. split; [done|]. split; [done|].
          intros _ _. destruct (decide (c ∈ recomputeHeap.lookup (recomputeHeap g)));
            [done|]. destruct Hmark. by apply Hunset.
      - exists g. split; [done|]. split; [done|]. split; [done|].
        intros Hn Hs. rewrite Hn, Hs in Hguard. done. }
    rewrite Hstep. simpl.
    destruct (IH g1) as (g' & Hrun & Hunset' & Hcs'); [done| |].
    { intros c' Hc'. destruct (unmarked_fields _ _ (Hu1 c')) as (_&_&_&->&_).
      apply Hh. by right. }
    exists g'. split; [done|]. split; [done|].
    intros c' Hc' Hn Hs. apply elem_of_cons in Hc' as [->|Hc']; [|by apply Hcs'].
    pose proof (enqueue_frame _ _ _ Hrun) as [Hu' Hl'].
    apply Hl', Hc1.
    + destruct (predicates_ignore_marks (mem g') (mem g) c) as [<- _]; [|done].
      intros id. by rewrite Hu', Hu1.
    + destruct (predicates_ignore_marks (mem g') (mem g) c) as [_ <-]; [|done].
      intros id. by rewrite Hu', Hu1.
Qed.

(** X11: a recompute that is neither cut off nor fails marks the change and
    passes it on: [changedAt] and [recomputedAt] are the stabilization
    number, the node's update handlers are appended to its group in
    [handleAfterStabilization], nothing leaves the heap, only children and
    observers of the node enter it, and afterwards every child and observer
    that is necessary and stale is queued. *)
Theorem recompute_propagates_the_change g n w3 w6 :
  maybeCutoff (mem g n) (world g) = (w3, (false, None)) →
  maybeStabilize (mem g n) w3 = (w6, None) →
  (∀ id, id ∉ recomputeHeap.lookup (recomputeHeap g) →
     heightInRecomputeHeap (mem g id) = heightUnset) →
  (∀ c, c ∈ children (mem g n) → 0 <= height (mem g c)) →
  (∀ o, o ∈ observers (mem g n) → 0 <= height (mem g o)) →
  ∃ g',
    recompute n g = Ret (g', None) ∧
    world g' = w6 ∧
    changedAt (mem g' n) = stabilizationNum g ∧
    recomputedAt (mem g' n) = stabilizationNum g ∧
    handleAfterStabilization g'
    = (if decide (0 < length (onUpdateHandlers (mem g n)))%nat
       then <[n := default [] (handleAfterStabilization g !! n)
                   ++ onUpdateHandlers (mem g n)]> (handleAfterStabilization g)
       else handleAfterStabilization g) ∧
    recomputeHeap.lookup (recomputeHeap g) ⊆ recomputeHeap.lookup (recomputeHeap g') ∧
    (∀ id, id ∈ recomputeHeap.lookup (recomputeHeap g') →
       id ∈ recomputeHeap.lookup (recomputeHeap g) ∨
       id ∈ children (mem g n) ∨ id ∈ observers (mem g n)) ∧
    (∀ c, c ∈ children (mem g n) ∨ c ∈ observers (mem g n) →
       isNecessary (mem g') c = true → isStale (mem g') c = true →
       c ∈ recomputeHeap.lookup (recomputeHeap g')).
Proof.
  intros Hc Hs Hunset Hch Hob. unfold recompute. simpl.
  rewrite maybeCutoff_counters by done. rewrite Hc. simpl.
  rewrite maybeStabilize_counters by done.
  rewrite maybeStabilize_counters by done. rewrite Hs. simpl.
  match goal with |- context [set_mem ?mm (set_world w6 _)] => set (m3 := mm) end.
  match goal with |- context [enqueue (children (mem ?gb n)) ?gb] => set (g8 := gb) end.
  assert (∀ id, unmarked (m3 id) = unmarked (mem g id) ∨ id = n) as Hm3.
  { intros id. destruct (decide (id = n)) as [->|Hne]; [by right|left].
    unfold m3. by rewrite !fn_lookup_alter_ne. }
  assert (∀ id, heightInRecomputeHeap (m3 id) = heightInRecomputeHeap (mem g id) ∧
                height (m3 id) = height (mem g id) ∧
                children (m3 id) = children (mem g id) ∧
                observers (m3 id) = observers (mem g id) ∧
                onUpdateHandlers (m3 id) = onUpdateHandlers (mem g id)) as Hf3.
  { intros id. unfold m3. destruct (decide (n = id)) as [->|Hne].
    - by rewrite !fn_lookup_alter.
    - by rewrite !fn_lookup_alter_ne. }
  assert (mem g8 = m3 ∧ recomputeHeap g8 = recomputeHeap g ∧ world g8 = w6 ∧
          handleAfterStabilization g8
          = (if decide (0 < length (onUpdateHandlers (mem g n)))%nat
             then <[n := default [] (handleAfterStabilization g !! n)
                         ++ onUpdateHandlers (mem g n)]> (handleAfterStabilization g)
             else handleAfterStabilization g)) as (Hm8 & Hr8 & Hw8 & Hh8).
  { unfold g8. destruct (Hf3 n) as (_&_&_&_&->). case_decide; done. }
  clearbody g8.
  destruct (enqueue_queues (children (mem g8 n)) g8) as (g9 & Hrun9 & Hunset9 & Hq9).
  { intros id. rewrite Hm8, Hr8. destruct (Hf3 id) as (->&_). apply Hunset. }
  { intros c Hcin. rewrite Hm8 in *. destruct (Hf3 c) as (_&->&_). apply Hch.
    destruct (Hf3 n) as (_&_&<-&_). done. }
  rewrite Hrun9. simpl.
  pose proof (enqueue_frame _ _ _ Hrun9) as [Hu9 Hl9].
  pose proof (enqueue_fields _ _ _ Hrun9) as (Hw9 & _ & Hh9 & _ & _ & _ & _ & Hin9).
  assert (observers (mem g9 n) = observers (mem g n)) as Hobs.
  { destruct (unmarked_fields _ _ (Hu9 n)) as (_&_&->&_). rewrite Hm8.
    by destruct (Hf3 n) as (_&_&_&->&_). }
  destruct (enqueue_queues (mapOrder (observers (mem g9 n))) g9)
    as (g10 & Hrun10 & Hunset10 & Hq10); [done| |].
  { intros o Ho%mapOrder_elem. destruct (unmarked_fields _ _ (Hu9 o)) as (_&_&_&->&_).
    rewrite Hm8. destruct (Hf3 o) as (_&->&_). apply Hob. by rewrite <-Hobs. }
  rewrite Hrun10. simpl.
  pose proof (enqueue_frame _ _ _ Hrun10) as [Hu10 Hl10].
  pose proof (enqueue_fields _ _ _ Hrun10) as (Hw10 & _ & Hh10 & _ & _ & _ & _ & Hin10).
  eexists. split; [reflexivity|]. split_and!.
  - congruence.
  - destruct (unmarked_fields _ _ (Hu10 n)) as (_&_&_&_&->&_).
    destruct (unmarked_fields _ _ (Hu9 n)) as (_&_&_&_&->&_).
    rewrite Hm8. unfold m3. by rewrite !fn_lookup_alter.
  - destruct (unmarked_fields _ _ (Hu10 n)) as (_&_&_&_&_&_&_&->&_).
    destruct (unmarked_fields _ _ (Hu9 n)) as (_&_&_&_&_&_&_&->&_).
    rewrite Hm8. unfold m3. by rewrite !fn_lookup_alter.
  - congruence.
  - rewrite <-Hr8. set_solver.
  - intros id Hid. destruct (Hin10 id Hid) as [Hin|Hin].
    + destruct (Hin9 id Hin) as [Hin'|Hin'].
      * left. by rewrite <-Hr8.
      * right; left. destruct (Hf3 n) as (_&_&<-&_). by rewrite <-Hm8.
    + right; right. rewrite <-Hobs. by apply mapOrder_elem.
  - intros c [Hcin|Hcin] Hn Hst.
    + apply Hl10, Hq9.
      * rewrite Hm8. destruct (Hf3 n) as (_&_&->&_). done.
      * destruct (predicates_ignore_marks (mem g10) (mem g9) c) as [<- _]; [|done].
        intros id. by rewrite Hu10.
      * destruct (predicates_ignore_marks (mem g10) (mem g9) c) as [_ <-]; [|done].
        intros id. by rewrite Hu10.
    + apply Hq10; [|done|done]. apply mapOrder_elem. by rewrite Hobs.
Qed.

End Propagation.

End GraphProperties.

(** ** Properties of [Stabilize] and [SetStale] *)

Section StabilizeProperties.
Context {World UserError : Type} `{MapIter} `{NodePredicates World UserError}.
Implicit Types (g : Graph World UserError) (m : Mem World UserError)
  (rh : recomputeHeap.t).

(** X12: [Stabilize] with nothing queued, nothing set during a pass and no
    update handler pending: it returns no error on any fuel, recomputes no
    node and writes neither memory nor heap; the start handlers run, then the
    end handlers (with the nil error), each in order of registration; the
    stabilization number advances by one and the status is reset. *)
Theorem Stabilize_with_nothing_queued fuel g :
  status g = StatusNotStabilizing →
  recomputeHeap.lookup (recomputeHeap g) = ∅ →
  setDuringStabilization g = ∅ →
  handleAfterStabilization g = ∅ →
  ∃ g',
    Stabilize fuel g = Ret (g', None) ∧
    mem g' = mem g ∧ recomputeHeap g' = recomputeHeap g ∧
    world g' = foldl (fun w0 handler => handler None w0)
                 (runHandlers (onStabilizationStart g) (world g)) (onStabilizationEnd g) ∧
    stabilizationNum g' = uint64 (stabilizationNum g + 1) ∧
    status g' = StatusNotStabilizing ∧
    numNodesRecomputed g' = numNodesRecomputed g ∧
    numNodesChanged g' = numNodesChanged g.
Proof.
  intros Hst Hemp Hsd Hh. unfold Stabilize, ensureNotStabilizing.
  rewrite decide_False by (rewrite Hst; auto).
  assert (drain fuel (stabilizeStart g) [] = Ret (stabilizeStart g, None, [])) as ->.
  { destruct fuel; simpl; rewrite Hemp, size_empty; done. }
  simpl. unfold stabilizeEnd, stabilizeEndHandleSetDuringStabilization,
    stabilizeEndRunUpdateHandlers. simpl.
  rewrite Hsd, Hh.
  assert (mapOrder (∅ : gset Identifier) = []) as -> by (by apply mapOrder_nil).
  rewrite dom_empty_L.
  assert (mapOrder (∅ : gset Identifier) = []) as -> by (by apply mapOrder_nil).
  simpl. eexists. split; [reflexivity|]. simpl. split_and!; try done.
Qed.

(** X13: on a well-formed graph of bounded height [Stabilize] returns and,
    whether the pass failed or not, leaves the graph ready for the next call:
    the status is [StatusNotStabilizing] (the guard of the next [Stabilize]
    passes), the stabilization number has advanced by one, and the queue of
    update handlers and the record of variables set during the pass are
    empty. *)
Theorem Stabilize_leaves_the_graph_ready fuel g top :
  graphOK (mem g) (recomputeHeap g) →
  minHeightSettled (recomputeHeap g) →
  status g = StatusNotStabilizing →
  (∀ id, height (mem g id) <= top) →
  (∀ id, id ∈ setDuringStabilization g → 0 <= height (mem g id)) →
  (Z.to_nat (top + 1) <= fuel)%nat →
  ∃ g' err,
    Stabilize fuel g = Ret (g', err) ∧
    status g' = StatusNotStabilizing ∧
    ensureNotStabilizing g' = None ∧
    stabilizationNum g' = uint64 (stabilizationNum g + 1) ∧
    handleAfterStabilization g' = ∅ ∧
    setDuringStabilization g' = ∅.
Proof.
  intros Hok Hset Hst Htop Hsd Hfuel.
  destruct (Stabilize_total fuel g top Hok Hset Hst Htop Hsd Hfuel) as (g' & err & Hrun).
  exists g', err. split; [done|].
  revert Hrun. unfold Stabilize, ensureNotStabilizing at 1.
  rewrite decide_False by (rewrite Hst; auto).
  intros ([[g2 e2] imm] & Hdrain & Hrest)%run_bind_ret.
  apply run_bind_ret in Hrest as (g3 & Hadd & Hrest).
  apply run_bind_ret in Hrest as (g4 & Hend & [= <- <-]).
  apply drain_fields in Hdrain as [Hn2 _].
  apply heapAdd_ret in Hadd as (_ & _ & _ & _ & _ & _ & Hn3 & _).
  apply stabilizeEnd_ret in Hend as (Hn4 & _ & _ & _ & Hsd4 & Hh4 & Hst4).
  split; [done|]. split.
  { unfold ensureNotStabilizing. rewrite decide_False; [done|]. rewrite Hst4. auto. }
  split; [|done]. rewrite Hn4, Hn3, Hn2. done.
Qed.

(** X14: a pass that does not fail serves the whole queue: every node that
    was queued when [Stabilize] was called has been recomputed exactly once,
    at the stabilization number of the pass; and what is queued when
    [Stabilize] returns is an always-node or a variable set during the pass. *)
Theorem successful_pass_serves_the_queue fuel g top :
  graphOK (mem g) (recomputeHeap g) →
  minHeightSettled (recomputeHeap g) →
  status g = StatusNotStabilizing →
  (∀ id, height (mem g id) <= top) →
  (∀ id, id ∈ setDuringStabilization g → 0 <= height (mem g id)) →
  (Z.to_nat (top + 1) <= fuel)%nat →
  ∃ g' err,
    Stabilize fuel g = Ret (g', err) ∧
    (err = None →
     (∀ id, id ∈ recomputeHeap.lookup (recomputeHeap g) →
        recomputedAt (mem g' id) = stabilizationNum g ∧
        numRecomputes (mem g' id) = uint64 (numRecomputes (mem g id) + 1)) ∧
     (∀ id, id ∈ recomputeHeap.lookup (recomputeHeap g') →
        always (mem g id) = true ∨ id ∈ setDuringStabilization g)).
Proof.
  intros Hok Hset Hst Htop Hsd Hfuel.
  destruct (Stabilize_total fuel g top Hok Hset Hst Htop Hsd Hfuel) as (g' & err & Hrun).
  exists g', err. split; [done|]. intros ->.
  revert Hrun. unfold Stabilize, ensureNotStabilizing.
  rewrite decide_False by (rewrite Hst; auto).
  intros ([[g2 e2] imm] & Hdrain & Hrest)%run_bind_ret.
  apply run_bind_ret in Hrest as (g3 & Hadd & Hrest).
  apply run_bind_ret in Hrest as (g4 & Hend & [= <- ->]).
  pose proof (passInv_start _ _ Hok) as Hinv.
  pose proof (drain_served fuel (mem g) (recomputeHeap.lookup (recomputeHeap g))
                (stabilizeStart g) (-1) [] g2 imm Hinv) as Hsv.
  simpl in Hsv. specialize (Hsv ltac:(intros id Hid; by left) Hdrain).
  pose proof (drain_drained _ _ _ _ _ Hdrain) as Hemp.
  pose proof (drain_always fuel (mem g) (stabilizeStart g) [] g2 None imm
                ltac:(done) ltac:(intros id Hid; by apply elem_of_nil in Hid) Hdrain) as Himm.
  pose proof (drain_progress fuel (mem g) (stabilizeStart g) (-1) [] top Hinv Hset Htop
                ltac:(intros id Hid; by apply elem_of_nil in Hid)
                ltac:(replace (top - -1) with (top + 1) by lia; exact Hfuel))
    as (g2' & e2' & imm2' & Hdrain' & Hsd2 & _).
  rewrite Hdrain in Hdrain'. injection Hdrain' as <- <- <-.
  pose proof (heapAdd_ret _ _ _ Hadd) as (Hu3 & _ & Hl3 & _ & Hsd3 & _).
  pose proof (stabilizeEnd_more _ _ _ Hend) as (Hr4 & Hl4 & _).
  pose proof (stabilizeEnd_numRecomputes _ _ _ Hend) as Hn4.
  split.
  - intros id Hid. destruct (Hsv id Hid) as [Hin|[Hin|[Hr Hc]]].
    + rewrite Hemp in Hin. set_solver.
    + by apply elem_of_nil in Hin.
    + rewrite Hr4, Hn4.
      destruct (unmarked_fields _ _ (Hu3 id)) as (_&_&_&_&_&_&_&->&_&_&_&_&_&->&_). done.
  - intros id Hid. destruct (Hl4 id Hid) as [Hin|Hin].
    + left. rewrite Hl3, Hemp in Hin. apply Himm.
      apply elem_of_union in Hin as [Hin|Hin]; [|set_solver].
      by apply elem_of_list_to_set in Hin.
    + right. rewrite Hsd3, Hsd2 in Hin. exact Hin.
Qed.

(** X15: [SetStale] stamps the node with the stabilization number and leaves
    it queued, whether it was queued before or not; every node queued before
    stays queued and no other node struct is written; a second call changes
    nothing. *)
Theorem SetStale_queues_the_node g n :
  (heightInRecomputeHeap (mem g n) = heightUnset → 0 <= height (mem g n)) →
  (heightInRecomputeHeap (mem g n) ≠ heightUnset →
     n ∈ recomputeHeap.lookup (recomputeHeap g)) →
  ∃ g',
    SetStale n g = Ret g' ∧
    setAt (mem g' n) = stabilizationNum g ∧
    recomputeHeap.lookup (recomputeHeap g') = {[n]} ∪ recomputeHeap.lookup (recomputeHeap g) ∧
    (∀ id, id ≠ n → mem g' id = mem g id) ∧
    ∃ g'',
      SetStale n g' = Ret g'' ∧
      recomputeHeap g'' = recomputeHeap g' ∧
      ∀ id, mem g'' id = mem g' id.
Proof.
  intros Hunset Hqueued. unfold SetStale at 1.
  set (g1 := set_mem (alter (set_setAt (stabilizationNum g)) n (mem g)) g).
  assert (heightInRecomputeHeap (mem g1 n) = heightInRecomputeHeap (mem g n) ∧
          height (mem g1 n) = height (mem g n) ∧
          setAt (mem g1 n) = stabilizationNum g) as (Hmark1 & Hheight1 & Hset1).
  { unfold g1. simpl. by rewrite fn_lookup_alter. }
  assert (∀ id, id ≠ n → mem g1 id = mem g id) as Hother1.
  { intros id Hid. unfold g1. simpl. by rewrite fn_lookup_alter_ne. }
  assert (∀ g2, setAt (mem g2 n) = stabilizationNum g2 →
                heightInRecomputeHeap (mem g2 n) ≠ heightUnset →
                ∃ g'', SetStale n g2 = Ret g'' ∧ recomputeHeap g'' = recomputeHeap g2 ∧
                       ∀ id, mem g'' id = mem g2 id) as Hagain.
  { intros g2 Hs Hm. unfold SetStale. rewrite decide_False.
    - eexists. split; [reflexivity|]. split; [done|]. intros id. simpl.
      destruct (decide (n = id)) as [<-|Hne].
      + rewrite fn_lookup_alter. rewrite <-Hs. by destruct (mem g2 n).
      + by rewrite fn_lookup_alter_ne.
    - simpl. by rewrite fn_lookup_alter. }
  case_decide as Hmark.
  - rewrite Hmark1 in Hmark. specialize (Hunset Hmark).
    destruct (heapAdd_total [n] g1) as [g' Hadd].
    { intros c Hc. apply elem_of_cons in Hc as [->|Hc]; [|by apply elem_of_nil in Hc].
      by rewrite Hheight1. }
    exists g'. split; [done|].
    pose proof (heapAdd_ret _ _ _ Hadd) as (Hu & Ho & Hl & _ & _ & _ & Hn & _).
    assert (setAt (mem g' n) = stabilizationNum g) as Hset'.
    { destruct (unmarked_fields _ _ (Hu n)) as (_&_&_&_&_&->&_). done. }
    split; [done|]. split; [rewrite Hl; set_solver|]. split.
    { intros id Hid. rewrite Ho by set_solver. by apply Hother1. }
    apply Hagain; [by rewrite Hn|].
    unfold heapAdd in Hadd. apply run_bind_ret in Hadd as ([m1 rh1] & Hadd & [= <-]).
    unfold recomputeHeap.add in Hadd. simpl in Hadd.
    apply run_bind_ret in Hadd as ([m2 rh2] & Hadd & [= <- <-]).
    apply addNodeUnsafe_ret in Hadd as [-> _]. simpl.
    rewrite fn_lookup_alter. simpl.
    change (height (mem g1 n) ≠ heightUnset). rewrite Hheight1. unfold heightUnset. lia.
  - rewrite Hmark1 in Hmark. specialize (Hqueued Hmark).
    exists g1. split; [done|]. split; [done|]. split; [simpl; set_solver|].
    split; [done|]. apply Hagain; [done|by rewrite Hmark1].
Qed.

End StabilizeProperties.

(** ** Properties of [clear] *)

Section ClearProperties.
Context {World UserError : Type} `{MapIter} `{NodePredicates World UserError}.
Implicit Types (g : Graph World UserError).

(** X28: [clear] drops the queue and keeps the capacity: the heap is empty,
    [has] answers false for every node, every bucket is empty, the heap is
    consistent with [minHeight] settled, and a second [clear] changes nothing.
    It does not reset the marks of the nodes it drops: a node whose mark is
    not [heightUnset] is not queued by a [SetStale] that follows. *)
Theorem clear_drops_the_queue_but_not_the_marks g :
  let rh := recomputeHeap.clear (recomputeHeap g) in
  recomputeHeap.len rh = O ∧
  (∀ n, recomputeHeap.has n rh = false) ∧
  length (recomputeHeap.heights rh) = length (recomputeHeap.heights (recomputeHeap g)) ∧
  (∀ x, bucket rh x = ∅) ∧
  heapOK (mem g) rh ∧ minHeightSettled rh ∧
  recomputeHeap.clear rh = rh ∧
  (∀ n, heightInRecomputeHeap (mem g n) ≠ heightUnset →
     ∃ g', SetStale n (set_recomputeHeap rh g) = Ret g' ∧
           recomputeHeap g' = rh ∧
           recomputeHeap.has n (recomputeHeap g') = false ∧
           setAt (mem g' n) = stabilizationNum g).
Proof.
  intros rh.
  assert (∀ x, bucket rh x = ∅) as Hb.
  { intros x. unfold bucket, rh, recomputeHeap.clear. simpl. case_decide; [|done].
    destruct (replicate _ _ !! _) as [b|] eqn:E; [|done].
    by apply lookup_replicate in E as [-> _]. }
  assert (∀ n, recomputeHeap.has n rh = false) as Hhas.
  { intros n. unfold recomputeHeap.has. apply bool_decide_eq_false.
    change (n ∉ (∅ : gset Identifier)). apply not_elem_of_empty. }
  split_and!.
  - unfold recomputeHeap.len. change (recomputeHeap.lookup rh) with (∅ : gset Identifier).
    apply size_empty.
  - exact Hhas.
  - unfold rh, recomputeHeap.clear. simpl. apply length_replicate.
  - exact Hb.
  - split.
    + simpl. lia.
    + intros id Hid. change (id ∈ (∅ : gset Identifier)) in Hid.
      by apply not_elem_of_empty in Hid.
    + intros x id Hid. rewrite Hb in Hid. by apply not_elem_of_empty in Hid.
    + intros id Hid. change (id ∈ (∅ : gset Identifier)) in Hid.
      by apply not_elem_of_empty in Hid.
  - left. split; reflexivity.
  - unfold rh, recomputeHeap.clear. simpl. by rewrite length_replicate.
  - intros n Hn. unfold SetStale. simpl.
    rewrite decide_False by (by rewrite fn_lookup_alter).
    eexists. split; [reflexivity|]. simpl. split; [done|]. split; [apply Hhas|].
    by rewrite fn_lookup_alter.
Qed.

End ClearProperties.

(** ** Facts about the node functions *)

Section NodeFacts.
Context {World UserError : Type} `{MapIter} `{NodePredicates World UserError}.
Implicit Types (g : Graph World UserError) (m : Mem World UserError).

(** The enqueuing loops return when the heights they index by are not
    negative. *)
Lemma enqueue_total cs g :
  (∀ c, c ∈ cs → 0 <= height (mem g c)) → ∃ g', enqueue cs g = Ret g'.
Proof.
  revert g. induction cs as [|c cs IH]; intros g Hh; simpl; [eauto|].
  assert (∃ g1, (if isNecessary (mem g) c && isStale (mem g) c
                    && bool_decide (heightInRecomputeHeap (mem g c) = heightUnset)
                 then heapAdd [c] g else Ret g) = Ret g1 ∧
                ∀ id, unmarked (mem g1 id) = unmarked (mem g id)) as (g1 & -> & Hu).
  { destruct (isNecessary (mem g) c && isStale (mem g) c
              && bool_decide (heightInRecomputeHeap (mem g c) = heightUnset)); [|eauto].
    destruct (heapAdd_total [c] g) as [g1 Hadd].
    { intros c' Hc'. apply elem_of_cons in Hc' as [->|Hc']; [apply Hh; left|].
      by apply elem_of_nil in Hc'. }
    exists g1. split; [done|]. by apply heapAdd_ret in Hadd as (Hu & _). }
  simpl. apply IH. intros c' Hc'.
  destruct (unmarked_fields _ _ (Hu c')) as (_&_&_&->&_). apply Hh. by right.
Qed.

(** [recompute] returns without error when neither callback fails and the
    children and observers it may enqueue have heights that are indices. *)
Lemma recompute_returns g n w3 w6 b :
  maybeCutoff (mem g n) (world g) = (w3, (b, None)) →
  maybeStabilize (mem g n) w3 = (w6, None) →
  (∀ c, c ∈ children (mem g n) → 0 <= height (mem g c)) →
  (∀ o, o ∈ observers (mem g n) → 0 <= height (mem g o)) →
  ∃ g', recompute n g = Ret (g', None).
Proof.
  intros Hc Hs Hch Hob. unfold recompute. simpl.
  rewrite maybeCutoff_counters by done. rewrite Hc. simpl.
  destruct b; [eauto|].
  rewrite maybeStabilize_counters by done.
  rewrite maybeStabilize_counters by done. rewrite Hs. simpl.
  match goal with |- context [set_mem ?mm (set_world w6 _)] => set (m3 := mm) end.
  match goal with |- context [enqueue (children (mem ?gb n)) ?gb] => set (g8 := gb) end.
  assert (∀ id, height (m3 id) = height (mem g id) ∧
                children (m3 id) = children (mem g id) ∧
                observers (m3 id) = observers (mem g id)) as Hf3.
  { intros id. unfold m3. destruct (decide (n = id)) as [->|Hne].
    - by rewrite !fn_lookup_alter.
    - by rewrite !fn_lookup_alter_ne. }
  assert (mem g8 = m3) as Hm8 by (unfold g8; case_decide; done).
  clearbody g8.
  destruct (enqueue_total (children (mem g8 n)) g8) as [g9 Hrun9].
  { intros c Hcin. rewrite Hm8 in *. destruct (Hf3 c) as (->&_). apply Hch.
    by destruct (Hf3 n) as (_&<-&_). }
  rewrite Hrun9. simpl.
  pose proof (enqueue_frame _ _ _ Hrun9) as [Hu9 _].
  destruct (enqueue_total (mapOrder (observers (mem g9 n))) g9) as [g10 Hrun10].
  { intros o Ho%mapOrder_elem.
    destruct (unmarked_fields _ _ (Hu9 o)) as (_&_&_&->&_).
    destruct (unmarked_fields _ _ (Hu9 n)) as (_&_&Hobs&_). rewrite Hobs in Ho.
    rewrite Hm8 in *. destruct (Hf3 o) as (->&_). apply Hob.
    by destruct (Hf3 n) as (_&_&<-). }
  rewrite Hrun10. simpl. eauto.
Qed.

(** What [recompute] leaves of the recomputed node's own struct. *)
Lemma recompute_self n g g' err :
  recompute n g = Ret (g', err) →
  setAt (mem g' n) = setAt (mem g n) ∧
  boundAt (mem g' n) = boundAt (mem g n) ∧
  parents (mem g' n) = parents (mem g n) ∧
  always (mem g' n) = always (mem g n) ∧
  (changedAt (mem g' n) = changedAt (mem g n) ∨
   changedAt (mem g' n) = stabilizationNum g).
Proof.
  unfold recompute. simpl.
  match goal with |- context [alter ?f n (mem g)] => set (f1 := f) end.
  set (m1 := alter f1 n (mem g)).
  assert (setAt (m1 n) = setAt (mem g n) ∧ boundAt (m1 n) = boundAt (mem g n) ∧
          parents (m1 n) = parents (mem g n) ∧ always (m1 n) = always (mem g n) ∧
          changedAt (m1 n) = changedAt (mem g n)) as H1.
  { unfold m1. by rewrite fn_lookup_alter. }
  destruct (maybeCutoff (m1 n) (world g)) as [w3 [shouldCutoff e3]].
  destruct e3 as [e3|]; [intros [= <- <-]; simpl; fold m1; naive_solver|].
  destruct shouldCutoff; [intros [= <- <-]; simpl; fold m1; naive_solver|].
  simpl.
  match goal with |- context [alter ?f n m1] => set (f2 := f) end.
  set (m2 := alter f2 n m1).
  assert (setAt (m2 n) = setAt (mem g n) ∧ boundAt (m2 n) = boundAt (mem g n) ∧
          parents (m2 n) = parents (mem g n) ∧ always (m2 n) = always (mem g n) ∧
          changedAt (m2 n) = changedAt (mem g n)) as H2.
  { unfold m2. rewrite fn_lookup_alter. simpl. exact H1. }
  destruct (maybeStabilize (m2 n) w3) as [w6 e6].
  destruct e6 as [e6|]; [intros [= <- <-]; simpl; fold m1 m2; naive_solver|].
  simpl.
  match goal with |- context [alter ?f n m2] => set (f3 := f) end.
  set (m3 := alter f3 n m2).
  assert (setAt (m3 n) = setAt (mem g n) ∧ boundAt (m3 n) = boundAt (mem g n) ∧
          parents (m3 n) = parents (mem g n) ∧ always (m3 n) = always (mem g n) ∧
          changedAt (m3 n) = stabilizationNum g) as H3.
  { unfold m3. rewrite fn_lookup_alter. simpl. naive_solver. }
  match goal with |- context [enqueue (children (mem ?gb n)) ?gb] => set (g8 := gb) end.
  assert (mem g8 = m3) as Hm8 by (unfold g8; case_decide; done).
  intros (g9 & Hc & (g10 & Ho & [= <- <-])%run_bind_ret)%run_bind_ret.
  apply enqueue_frame in Hc as [Hu9 _]. apply enqueue_frame in Ho as [Hu10 _].
  destruct (unmarked_fields _ _ (Hu10 n)) as (->&_&_&_&->&->&->&_&_&_&_&_&->&_).
  destruct (unmarked_fields _ _ (Hu9 n)) as (->&_&_&_&->&->&->&_&_&_&_&_&->&_).
  rewrite Hm8. naive_solver.
Qed.

End NodeFacts.

(** ** Properties of the node functions *)

Section NodeProperties.
Context {World UserError : Type} `{MapIter} `{NodePredicates World UserError}.
Implicit Types (g : Graph World UserError) (m : Mem World UserError).

(** X16: a node that has just been recomputed without error is not stale by
    [ShouldRecompute], unless it is an always-node: given that no timestamp
    of the node or of its parents lies beyond the stabilization number, and
    that this number is not zero (zero reads as "never recomputed"). *)
Theorem recomputed_node_is_not_stale g n w3 w6 b :
  maybeCutoff (mem g n) (world g) = (w3, (b, None)) →
  maybeStabilize (mem g n) w3 = (w6, None) →
  (∀ c, c ∈ children (mem g n) → 0 <= height (mem g c)) →
  (∀ o, o ∈ observers (mem g n) → 0 <= height (mem g o)) →
  stabilizationNum g ≠ 0 →
  always (mem g n) = false →
  setAt (mem g n) <= stabilizationNum g →
  boundAt (mem g n) <= stabilizationNum g →
  changedAt (mem g n) <= stabilizationNum g →
  (∀ p, p ∈ parents (mem g n) →
     changedAt (mem g p) <= stabilizationNum g ∧ boundAt (mem g p) <= stabilizationNum g) →
  ∃ g', recompute n g = Ret (g', None) ∧ ShouldRecompute (mem g') n = false.
Proof.
  intros Hc Hs Hch Hob Hnum Halways Hset Hbound Hchanged Hparents.
  destruct (recompute_returns g n w3 w6 b Hc Hs Hch Hob) as [g' Hrun].
  exists g'. split; [done|].
  pose proof (recompute_others _ _ _ _ Hrun) as (Hu & Hat & _).
  pose proof (recompute_self _ _ _ _ Hrun) as (Hs' & Hb' & Hp' & Ha' & Hc').
  unfold ShouldRecompute. rewrite Hat, Hs', Hb', Hp', Ha', Halways.
  rewrite decide_False by done.
  destruct (stabilize (mem g' n)) as [f|]; [|done].
  rewrite decide_False by lia. rewrite decide_False by lia.
  rewrite decide_False by (destruct Hc' as [-> | ->]; lia).
  apply not_true_iff_false. intros (p & Hp & Htrue)%existsb_exists.
  apply list_elem_of_In in Hp. destruct (Hparents p Hp) as [Hpc Hpb].
  assert (changedAt (mem g' p) <= stabilizationNum g ∧
          boundAt (mem g' p) <= stabilizationNum g) as [Hpc' Hpb'].
  { destruct (decide (p = n)) as [->|Hne].
    - rewrite Hb'. split; [|done]. destruct Hc' as [-> | ->]; lia.
    - destruct (unmarked_fields _ _ (Hu p Hne)) as (_&_&_&_&->&_&->&_). done. }
  apply orb_true_iff in Htrue as [Ht|Ht]; apply bool_decide_eq_true in Ht; lia.
Qed.

(** X17: [nodeSorter] is a comparator one can sort with: swapping the
    arguments negates the result; the result is [0] exactly for nodes of the
    same height whose identifiers print alike; a higher node sorts first
    ([-1]); and "sorts first" is transitive. *)
Theorem nodeSorter_is_an_order idString m a b c :
  nodeSorter idString m a b = - nodeSorter idString m b a ∧
  (nodeSorter idString m a b = 0 ↔
     height (m a) = height (m b) ∧ idString a = idString b) ∧
  (height (m a) > height (m b) → nodeSorter idString m a b = -1) ∧
  (nodeSorter idString m a b = -1 → nodeSorter idString m b c = -1 →
     nodeSorter idString m a c = -1).
Proof.
  assert (∀ s t, String.compare s t = Gt ↔ String.compare t s = Lt) as Hswap.
  { intros s t. rewrite (String.compare_antisym t s).
    destruct (String.compare s t); simpl; split; congruence. }
  assert (∀ s t, s ≠ t → String.compare s t ≠ Gt → String.compare t s = Gt) as Htotal.
  { intros s t Hne Hgt. destruct (String.compare s t) eqn:E.
    - by apply String.compare_eq_iff in E.
    - by apply Hswap.
    - done. }
  assert (∀ s t, String.compare s t = Gt → String.compare t s ≠ Gt) as Hasym.
  { intros s t Hst Hts. apply Hswap in Hst. congruence. }
  assert (∀ s t u, String.compare s t = Gt → String.compare t u = Gt →
                   String.compare s u = Gt) as Htrans.
  { intros s t u Hst Htu. apply Hswap. apply Hswap in Hst, Htu.
    pose proof OrdersEx.String_as_OT.lt_strorder as [_ Ht].
    exact (Ht u t s Htu Hst). }
  unfold nodeSorter. split_and!.
  - repeat case_decide; try done; try lia; try congruence.
    + exfalso. by eapply Hasym.
    + exfalso. match goal with Hn : idString a ≠ idString b |- _ =>
        pose proof (Htotal _ _ Hn) end. naive_solver.
  - repeat case_decide; split; try done; try lia; intros [? ?]; congruence.
  - intros Hgt. rewrite decide_False by lia. by rewrite decide_True.
  - intros Hab Hbc.
    destruct (decide (height (m a) = height (m b))) as [Eab|Nab];
      destruct (decide (height (m b) = height (m c))) as [Ebc|Nbc].
    + rewrite decide_True by congruence.
      destruct (decide (idString a = idString b)) as [|Nsab]; [done|].
      destruct (decide (idString b = idString c)) as [|Nsbc]; [done|].
      destruct (decide (String.compare (idString a) (idString b) = Gt)) as [Gab|]; [|done].
      destruct (decide (String.compare (idString b) (idString c) = Gt)) as [Gbc|]; [|done].
      pose proof (Htrans _ _ _ Gab Gbc) as Gac.
      rewrite decide_False.
      * by rewrite decide_True.
      * intros E. rewrite E in Gac. pose proof (proj1 (Hswap _ _) Gac). congruence.
    + destruct (decide (height (m b) > height (m c))); [|done].
      rewrite decide_False by lia. by rewrite decide_True by lia.
    + destruct (decide (height (m a) > height (m b))); [|done].
      rewrite decide_False by lia. by rewrite decide_True by lia.
    + destruct (decide (height (m a) > height (m b))); [|done].
      destruct (decide (height (m b) > height (m c))); [|done].
      rewrite decide_False by lia. by rewrite decide_True by lia.
Qed.

End NodeProperties.

Section PseudoHeight.
Context {World UserError : Type}.
Implicit Types (m : Mem World UserError).

Lemma computePseudoHeight_S fuel m n :
  computePseudoHeight (S fuel) m n
  = (maxParentHeight ← maxPseudoHeight fuel m (parents (m n)) 0;
     if decide (height (m n) > maxParentHeight) then Ret (height (m n))
     else Ret (maxParentHeight + 1)).
Proof.
  simpl. f_equal. generalize 0. induction (parents (m n)) as [|p ps IH]; intros mx; simpl.
  - done.
  - destruct (computePseudoHeight fuel m p); simpl; [apply IH|done|done].
Qed.

(** The loop over the parents returns the largest of the starting value and
    the parents' pseudo-heights. *)
Lemma maxPseudoHeight_spec fuel m ps mx :
  (∀ p, p ∈ ps → ∃ hp, computePseudoHeight fuel m p = Ret hp) →
  ∃ r, maxPseudoHeight fuel m ps mx = Ret r ∧ mx <= r ∧
       (∀ p hp, p ∈ ps → computePseudoHeight fuel m p = Ret hp → hp <= r) ∧
       (r = mx ∨ ∃ p, p ∈ ps ∧ computePseudoHeight fuel m p = Ret r).
Proof.
  revert mx. induction ps as [|p ps IH]; intros mx Hall; simpl.
  - exists mx. split; [done|]. split; [lia|]. split; [|by left].
    intros p hp Hp. by apply elem_of_nil in Hp.
  - destruct (Hall p ltac:(left)) as [hp Hp]. rewrite Hp. simpl.
    destruct (IH (if decide (hp > mx) then hp else mx)) as (r & Hr & Hge & Hmax & Hwho).
    { intros q Hq. apply Hall. by right. }
    exists r. split; [done|]. split; [case_decide; lia|]. split.
    + intros q hq [->|Hq]%elem_of_cons Hqq.
      * rewrite Hp in Hqq. injection Hqq as <-. case_decide; lia.
      * by eapply Hmax.
    + destruct Hwho as [->|(q & Hq & Hqq)].
      * case_decide; [right; exists p; split; [left|done]|by left].
      * right. exists q. split; [by right|done].
Qed.

(** More fuel does not change a result. *)
Lemma computePseudoHeight_fuel fuel fuel' m n h :
  computePseudoHeight fuel m n = Ret h → (fuel <= fuel')%nat →
  computePseudoHeight fuel' m n = Ret h.
Proof.
  revert fuel' n h. induction fuel as [|fuel IH]; intros fuel' n h; [done|].
  intros Hrun Hle. destruct fuel' as [|fuel']; [lia|].
  rewrite computePseudoHeight_S in *.
  apply run_bind_ret in Hrun as (mx & Hmx & Hrest).
  assert (maxPseudoHeight fuel' m (parents (m n)) 0 = Ret mx) as ->; [|done].
  revert Hmx. generalize 0. induction (parents (m n)) as [|p ps IHps]; intros acc; simpl.
  - done.
  - intros (hp & Hp & Hrest')%run_bind_ret.
    rewrite (IH fuel' p hp Hp ltac:(lia)). simpl. by apply IHps.
Qed.

(** X18: on a graph without cycles among the parent links (a rank that
    decreases from a node to its parents), [computePseudoHeight] returns
    once the fuel exceeds the rank; the result is at least the node's height,
    at least one, and greater than the pseudo-height of every parent. *)
Theorem computePseudoHeight_exceeds_parents (rank : Identifier → nat) fuel m n :
  (∀ x p, p ∈ parents (m x) → (rank p < rank x)%nat) →
  (rank n < fuel)%nat →
  ∃ h,
    computePseudoHeight fuel m n = Ret h ∧
    height (m n) <= h ∧ 1 <= h ∧
    ∀ p, p ∈ parents (m n) →
      ∃ hp, computePseudoHeight fuel m p = Ret hp ∧ hp < h.
Proof.
  intros Hrank. revert n. induction fuel as [|fuel IH]; intros n Hfuel; [lia|].
  rewrite computePseudoHeight_S.
  destruct (maxPseudoHeight_spec fuel m (parents (m n)) 0) as (r & Hr & Hge & Hmax & _).
  { intros p Hp. destruct (IH p) as (hp & Hhp & _); [|eauto].
    specialize (Hrank n p Hp). lia. }
  rewrite Hr. simpl.
  assert (∀ p, p ∈ parents (m n) →
            ∃ hp, computePseudoHeight (S fuel) m p = Ret hp ∧ hp <= r) as Hparents.
  { intros p Hp. destruct (IH p) as (hp & Hhp & _); [specialize (Hrank n p Hp); lia|].
    exists hp. split; [exact (computePseudoHeight_fuel fuel (S fuel) m p hp Hhp ltac:(lia))|].
    by eapply Hmax. }
  case_decide as Hh.
  - eexists. split; [reflexivity|]. split; [lia|]. split; [lia|].
    intros p Hp. destruct (Hparents p Hp) as (hp & ? & ?). exists hp. split; [done|lia].
  - eexists. split; [reflexivity|]. split; [lia|]. split; [lia|].
    intros p Hp. destruct (Hparents p Hp) as (hp & ? & ?). exists hp. split; [done|lia].
Qed.

End PseudoHeight.

(** ** Facts about the key diffs *)

Section DiffFacts.
Context {K V : Type} `{Countable K} `{!RangeOrder K V}.
Implicit Types (m val input src : option (gmap K V)).

Lemma rangeOrder_elem (mm : gmap K V) k v : (k, v) ∈ rangeOrder mm ↔ mm !! k = Some v.
Proof. rewrite (rangeOrder_perm mm). apply elem_of_map_to_list. Qed.

Lemma rangeOrder_NoDup (mm : gmap K V) : NoDup (rangeOrder mm).*1.
Proof. rewrite (rangeOrder_perm mm). apply NoDup_fst_map_to_list. Qed.

Lemma rangeOf_elem m k v : (k, v) ∈ rangeOf m ↔ mapIndex m k = Some v.
Proof.
  destruct m as [mm|]; simpl.
  - apply rangeOrder_elem.
  - split; [by intros ?%elem_of_nil|done].
Qed.

Lemma rangeOf_NoDup m : NoDup (rangeOf m).*1.
Proof. destruct m as [mm|]; simpl; [apply rangeOrder_NoDup|apply NoDup_nil_2]. Qed.

(** The loops of the two diffs: the pairs whose key passes the test are
    copied, whatever the order of iteration. *)
Lemma foldl_copy_lookup (keep : K → bool) (l : list (K * V)) (acc : gmap K V) k :
  NoDup l.*1 →
  foldl (fun a kv => if keep kv.1 then <[kv.1 := kv.2]> a else a) acc l !! k
  = if keep k then
      match list_find (fun kv => kv.1 = k) l with
      | Some (_, kv) => Some kv.2
      | None => acc !! k
      end
    else acc !! k.
Proof.
  revert acc. induction l as [|[k' v'] l IH]; intros acc Hnd; simpl.
  - by destruct (keep k).
  - rewrite fmap_cons in Hnd. pose proof (NoDup_cons_1_1 _ _ Hnd) as Hk'.
    apply NoDup_cons_1_2 in Hnd. simpl in Hk'. rewrite IH by done.
    destruct (keep k) eqn:Hk.
    + case_decide as Hkk; simpl in Hkk.
      * subst k'. rewrite Hk.
        destruct (list_find (λ kv, kv.1 = k) l) as [[i kv]|] eqn:Hfind.
        -- apply list_find_Some in Hfind as (Hi & Hkv & _).
           destruct Hk'. apply list_elem_of_fmap. exists kv. split; [done|].
           by eapply list_elem_of_lookup_2.
        -- simpl. by rewrite lookup_insert_eq.
      * destruct (list_find (λ kv, kv.1 = k) l) as [[i kv]|]; simpl; [done|].
        destruct (keep k'); [by rewrite lookup_insert_ne|done].
    + destruct (keep k') eqn:Hk'k; [|done].
      rewrite lookup_insert_ne; [done|]. intros ->. congruence.
Qed.

Lemma list_find_key (l : list (K * V)) k :
  NoDup l.*1 →
  match list_find (fun kv => kv.1 = k) l with
  | Some (_, kv) => kv.1 = k ∧ kv ∈ l
  | None => ∀ v, (k, v) ∉ l
  end.
Proof.
  intros Hnd. destruct (list_find (λ kv, kv.1 = k) l) as [[i kv]|] eqn:Hfind.
  - apply list_find_Some in Hfind as (Hi & Hkv & _). split; [done|].
    by eapply list_elem_of_lookup_2.
  - intros v Hin. eapply list_find_None in Hfind.
    rewrite Forall_forall in Hfind.
    exact (Hfind (k, v) (proj1 (list_elem_of_In _ _) Hin) eq_refl).
Qed.

(** What either diff copies: the entries of [src] whose key [other] lacks. *)
Lemma diff_loop_lookup (other : gmap K V) src k :
  foldl (fun (a : gmap K V) kv => match other !! kv.1 with
                     | Some _ => a
                     | None => <[kv.1 := kv.2]> a
                     end) ∅ (rangeOf src) !! k
  = match other !! k with
    | Some _ => None
    | None => mapIndex src k
    end.
Proof.
  pose proof (foldl_copy_lookup (fun x => bool_decide (other !! x = None))
                (rangeOf src) ∅ k (rangeOf_NoDup src)) as Hcopy.
  assert (∀ l (acc : gmap K V),
            foldl (fun (a : gmap K V) kv => match other !! kv.1 with
                               | Some _ => a
                               | None => <[kv.1 := kv.2]> a
                               end) acc l
            = foldl (fun a kv => if bool_decide (other !! kv.1 = None)
                                 then <[kv.1 := kv.2]> a else a) acc l) as ->.
  { induction l as [|kv l IH]; intros acc; simpl; [done|].
    rewrite IH. by destruct (other !! kv.1). }
  rewrite Hcopy. destruct (other !! k) eqn:Ho; simpl; [by rewrite lookup_empty|].
  pose proof (list_find_key (rangeOf src) k (rangeOf_NoDup src)) as Hfind.
  destruct (list_find (λ kv, kv.1 = k) (rangeOf src)) as [[i [k' v']]|].
  - destruct Hfind as [Hk Hin]. simpl in *. subst k'.
    symmetry. by apply rangeOf_elem.
  - rewrite lookup_empty. symmetry.
    destruct (mapIndex src k) as [v|] eqn:E; [|done].
    apply rangeOf_elem in E. by destruct (Hfind v).
Qed.

Lemma copy_loop_lookup src k :
  foldl (fun (a : gmap K V) (kv : K * V) => <[kv.1 := kv.2]> a) ∅ (rangeOf src) !! k
  = mapIndex src k.
Proof.
  pose proof (foldl_copy_lookup (fun _ => true) (rangeOf src) ∅ k (rangeOf_NoDup src))
    as Hcopy. simpl in Hcopy. rewrite Hcopy.
  pose proof (list_find_key (rangeOf src) k (rangeOf_NoDup src)) as Hfind.
  destruct (list_find (λ kv, kv.1 = k) (rangeOf src)) as [[i [k' v']]|].
  - destruct Hfind as [Hk Hin]. simpl in *. subst k'.
    symmetry. by apply rangeOf_elem.
  - rewrite lookup_empty. symmetry.
    destruct (mapIndex src k) as [v|] eqn:E; [|done].
    apply rangeOf_elem in E. by destruct (Hfind v).
Qed.

Lemma diffMapByKeysAdded_lookup (m0 m1 : option (gmap K V)) :
  ∃ add, diffMapByKeysAdded m0 m1 = Some add ∧
         ∀ k, add !! k = match mapIndex m0 k with
                         | Some _ => None
                         | None => mapIndex m1 k
                         end.
Proof.
  unfold diffMapByKeysAdded. destruct m0 as [mm0|].
  - eexists. split; [reflexivity|]. intros k. simpl. apply diff_loop_lookup.
  - eexists. split; [reflexivity|]. intros k. simpl. apply copy_loop_lookup.
Qed.

Lemma diffMapByKeysRemoved_lookup (m0 m1 : option (gmap K V)) :
  ∃ removed, diffMapByKeysRemoved m0 m1 = Some removed ∧
             ∀ k, removed !! k = match mapIndex m1 k with
                                 | Some _ => None
                                 | None => mapIndex m0 k
                                 end.
Proof.
  unfold diffMapByKeysRemoved. destruct m1 as [mm1|].
  - eexists. split; [reflexivity|]. intros k. simpl. apply diff_loop_lookup.
  - destruct m0 as [mm0|].
    + eexists. split; [reflexivity|]. intros k. simpl.
      apply (copy_loop_lookup (Some mm0)).
    + eexists. split; [reflexivity|]. intros k. simpl. apply lookup_empty.
Qed.

End DiffFacts.

(** ** Properties of the key diffs *)

Section DiffProperties.
Context {K V : Type} `{Countable K} `{!RangeOrder K V}.

(** X19: [diffMapByKeysAdded] never returns nil; whatever the order in which
    Go ranges over the map, the result holds exactly the entries of [m1] whose
    key [m0] lacks, with their values from [m1]; a nil [m0] counts as empty,
    and a nil [m1] gives the empty map. *)
Theorem diffMapByKeysAdded_holds_the_new_keys (m0 m1 : option (gmap K V)) :
  ∃ add,
    diffMapByKeysAdded m0 m1 = Some add ∧
    (∀ k, add !! k = match mapIndex m0 k with
                     | Some _ => None
                     | None => mapIndex m1 k
                     end) ∧
    (m0 = None → ∀ k, add !! k = mapIndex m1 k) ∧
    (m1 = None → add = ∅).
Proof.
  destruct (diffMapByKeysAdded_lookup m0 m1) as (add & Hrun & Hlookup).
  exists add. split; [done|]. split; [done|]. split.
  - intros -> k. by rewrite Hlookup.
  - intros ->. apply map_eq. intros k. rewrite Hlookup, lookup_empty.
    by destruct (mapIndex m0 k).
Qed.

(** X20: [diffMapByKeysRemoved] never returns nil and holds exactly the
    entries of [m0] whose key [m1] lacks, with their values from [m0]; it is
    [diffMapByKeysAdded] with the two maps swapped. *)
Theorem diffMapByKeysRemoved_holds_the_lost_keys (m0 m1 : option (gmap K V)) :
  ∃ removed,
    diffMapByKeysRemoved m0 m1 = Some removed ∧
    (∀ k, removed !! k = match mapIndex m1 k with
                         | Some _ => None
                         | None => mapIndex m0 k
                         end) ∧
    diffMapByKeysAdded m1 m0 = Some removed.
Proof.
  destruct (diffMapByKeysRemoved_lookup m0 m1) as (removed & Hrun & Hlookup).
  exists removed. split; [done|]. split; [done|].
  destruct (diffMapByKeysAdded_lookup m1 m0) as (add & Hadd & Hl).
  rewrite Hadd. f_equal. apply map_eq. intros k. by rewrite Hl, Hlookup.
Qed.

(** X21: the two diffs account for the whole change of the key set: a key is
    in [m1] exactly when it was added, or was in [m0] and was not removed; no
    key is both added and removed; and the diffs of a map against itself are
    empty. *)
Theorem key_diffs_account_for_the_change (m0 m1 : option (gmap K V)) :
  ∃ add removed,
    diffMapByKeysAdded m0 m1 = Some add ∧
    diffMapByKeysRemoved m0 m1 = Some removed ∧
    (∀ k, is_Some (mapIndex m1 k) ↔
          is_Some (add !! k) ∨ (is_Some (mapIndex m0 k) ∧ removed !! k = None)) ∧
    (∀ k, is_Some (add !! k) → removed !! k = None) ∧
    diffMapByKeysAdded m0 m0 = Some ∅ ∧
    diffMapByKeysRemoved m0 m0 = Some ∅.
Proof.
  destruct (diffMapByKeysAdded_lookup m0 m1) as (add & Hadd & Hla).
  destruct (diffMapByKeysRemoved_lookup m0 m1) as (removed & Hrem & Hlr).
  exists add, removed. split; [done|]. split; [done|]. split_and!.
  - intros k. rewrite Hla, Hlr.
    destruct (mapIndex m0 k) as [v0|], (mapIndex m1 k) as [v1|]; split;
      rewrite ?is_Some_alt; naive_solver.
  - intros k. rewrite Hla, Hlr.
    destruct (mapIndex m0 k) as [v0|], (mapIndex m1 k) as [v1|];
      rewrite ?is_Some_alt; naive_solver.
  - destruct (diffMapByKeysAdded_lookup m0 m0) as (a & -> & Hl). f_equal.
    apply map_eq. intros k. rewrite Hl, lookup_empty. by destruct (mapIndex m0 k).
  - destruct (diffMapByKeysRemoved_lookup m0 m0) as (a & -> & Hl). f_equal.
    apply map_eq. intros k. rewrite Hl, lookup_empty. by destruct (mapIndex m0 k).
Qed.

(** X22: the removed-keys node diffs its own previous value, which starts
    nil, against the input: after any number of stabilizations, whatever the
    inputs were, its value is the empty map; it never reports a key. *)
Theorem removed_keys_node_stays_empty (input : option (gmap K V))
    (inputs : list (option (gmap K V))) :
  foldl diffMapByKeysRemovedIncr.Stabilize None (input :: inputs) = Some ∅.
Proof.
  assert (∀ val i, (∀ k, mapIndex val k = None) →
                   diffMapByKeysRemovedIncr.Stabilize val i = Some ∅) as Hstep.
  { intros val i Hval. unfold diffMapByKeysRemovedIncr.Stabilize.
    destruct (diffMapByKeysRemoved_lookup val i) as (r & -> & Hl). f_equal.
    apply map_eq. intros k. rewrite Hl, lookup_empty, Hval. by destruct (mapIndex i k). }
  simpl. rewrite Hstep by done.
  induction inputs as [|i inputs IH]; simpl; [done|].
  rewrite Hstep; [done|]. intros k. apply lookup_empty.
Qed.

(** X23: the added-keys node diffs its own previous value against the input,
    not the previous input: with the input left unchanged at [m], its first
    stabilization reports all of [m], the second nothing, and the third all
    of [m] again. *)
Theorem added_keys_node_alternates (m : gmap K V) :
  let v1 := diffMapByKeysAddedIncr.Stabilize None (Some m) in
  let v2 := diffMapByKeysAddedIncr.Stabilize v1 (Some m) in
  let v3 := diffMapByKeysAddedIncr.Stabilize v2 (Some m) in
  v1 = Some m ∧ v2 = Some ∅ ∧ v3 = Some m.
Proof.
  assert (∀ val, (∀ k, mapIndex val k = None) →
                 diffMapByKeysAddedIncr.Stabilize val (Some m) = Some m) as Hall.
  { intros val Hval. unfold diffMapByKeysAddedIncr.Stabilize.
    destruct (diffMapByKeysAdded_lookup val (Some m)) as (a & -> & Hl). f_equal.
    apply map_eq. intros k. by rewrite Hl, Hval. }
  assert (diffMapByKeysAddedIncr.Stabilize (Some m) (Some m) = Some ∅) as Hnone.
  { unfold diffMapByKeysAddedIncr.Stabilize.
    destruct (diffMapByKeysAdded_lookup (Some m) (Some m)) as (a & -> & Hl). f_equal.
    apply map_eq. intros k. rewrite Hl, lookup_empty. simpl. by destruct (m !! k). }
  cbv zeta. rewrite (Hall None) by done. rewrite Hnone.
  split; [done|]. split; [done|]. apply Hall. intros k. apply lookup_empty.
Qed.

End DiffProperties.

(** ** Properties of the bind node and of the cutoff node *)

Section BindProperties.
Context {World UserError : Type} `{MapIter} `{NodePredicates World UserError}.
Implicit Types (m : Mem World UserError) (g : Graph World UserError)
  (st : @bindIncr.State World UserError).

(** X24: the first binding of a bind node (nothing bound yet, the bind
    function answers a node): nothing is unlinked and no observer is told to
    undiscover; every child of the bind node is linked to the new node and
    has its heights recomputed, the observers discover the new node, the new
    node is stamped as changed and queued, and it is bound at the
    stabilization number. *)
Theorem Bind_first_binding b st g1 new :
  bindIncr.bound b = None →
  bindIncr.fn b (bindIncr.graph st) = (g1, (Some new, None)) →
  0 <= height (mem g1 new) →
  ∃ b' st',
    bindIncr.Bind b st = Ret (b', st', None) ∧
    bindIncr.bound b' = Some new ∧
    (∀ c, c ∈ children (mem g1 (bindIncr.n b)) →
       new ∈ parents (mem (bindIncr.graph st') c) ∧
       c ∈ children (mem (bindIncr.graph st') new)) ∧
    bindIncr.calls st'
      = bindIncr.calls st
        ++ map bindIncr.RecomputeHeights (children (mem g1 (bindIncr.n b)))
        ++ map (fun o => bindIncr.DiscoverNodes o new)
               (mapOrder (observers (mem g1 (bindIncr.n b)))) ∧
    changedAt (mem (bindIncr.graph st') new) = stabilizationNum g1 ∧
    new ∈ recomputeHeap.lookup (recomputeHeap (bindIncr.graph st')) ∧
    boundAt (mem (bindIncr.graph st') (bindIncr.n b)) = stabilizationNum g1.
Proof.
  intros Hbound Hfn Hh. unfold bindIncr.Bind. rewrite Hbound, Hfn. cbv beta iota zeta.
  set (st1 := bindIncr.mkState g1 (bindIncr.calls st)).
  destruct (linkNew_spec b new st1 Hh) as (g4 & HL & Hu4 & Hl4 & Hn4).
  rewrite HL. cbv beta iota zeta. eexists _, _. split; [reflexivity|].
  cbn [bindIncr.graph bindIncr.calls bindIncr.onMem bindIncr.bound bindIncr.set_bound
       bindIncr.n mem set_mem recomputeHeap stabilizationNum].
  change (mem (bindIncr.graph st1)) with (mem g1) in *.
  change (stabilizationNum (bindIncr.graph st1)) with (stabilizationNum g1) in *.
  change (bindIncr.calls st1) with (bindIncr.calls st) in *.
  set (cs := children (mem g1 (bindIncr.n b))) in *.
  assert (∀ x, parents (alter (set_boundAt (stabilizationNum g4)) (bindIncr.n b) (mem g4) x)
               = parents (linkAll new cs (mem g1) x) ∧
               children (alter (set_boundAt (stabilizationNum g4)) (bindIncr.n b) (mem g4) x)
               = children (linkAll new cs (mem g1) x) ∧
               changedAt (alter (set_boundAt (stabilizationNum g4)) (bindIncr.n b) (mem g4) x)
               = changedAt (alter (set_changedAt (stabilizationNum g1)) new
                              (linkAll new cs (mem g1)) x)) as Hfields.
  { intros x.
    assert (parents (alter (set_boundAt (stabilizationNum g4)) (bindIncr.n b) (mem g4) x)
            = parents (mem g4 x) ∧
            children (alter (set_boundAt (stabilizationNum g4)) (bindIncr.n b) (mem g4) x)
            = children (mem g4 x) ∧
            changedAt (alter (set_boundAt (stabilizationNum g4)) (bindIncr.n b) (mem g4) x)
            = changedAt (mem g4 x)) as (-> & -> & ->).
    { destruct (decide (bindIncr.n b = x)) as [->|Hne].
      - by rewrite fn_lookup_alter.
      - by rewrite fn_lookup_alter_ne. }
    destruct (unmarked_fields _ _ (Hu4 x)) as (-> & -> & _ & _ & -> & _).
    destruct (decide (new = x)) as [->|Hne].
    - by rewrite fn_lookup_alter.
    - by rewrite fn_lookup_alter_ne. }
  split; [done|]. split_and!.
  - intros c Hc. destruct (Hfields c) as (-> & _ & _). destruct (Hfields new) as (_ & -> & _).
    rewrite linkAll_parents, linkAll_children. split; by right.
  - done.
  - destruct (Hfields new) as (_ & _ & ->). by rewrite fn_lookup_alter.
  - done.
  - rewrite fn_lookup_alter. simpl. done.
Qed.

(** X25: when the bind function answers nil for a bound node, the bind node
    is unbound: every child of the bind node is unlinked from the old node,
    the observers undiscover it, nothing is linked or queued, and the unbinding
    is stamped in [boundAt]. *)
Theorem Bind_to_nil_unbinds b st g1 old :
  bindIncr.bound b = Some old →
  bindIncr.fn b (bindIncr.graph st) = (g1, (None, None)) →
  ∃ b' st',
    bindIncr.Bind b st = Ret (b', st', None) ∧
    bindIncr.bound b' = None ∧
    (∀ c, c ∈ children (mem g1 (bindIncr.n b)) →
       (old ∉ parents (mem (bindIncr.graph st') c)) ∧
       (c ∉ children (mem (bindIncr.graph st') old))) ∧
    bindIncr.calls st'
      = bindIncr.calls st
        ++ map (fun o => bindIncr.UndiscoverNodes o old)
               (mapOrder (observers (mem g1 (bindIncr.n b)))) ∧
    recomputeHeap (bindIncr.graph st') = recomputeHeap g1 ∧
    boundAt (mem (bindIncr.graph st') (bindIncr.n b)) = stabilizationNum g1.
Proof.
  intros Hbound Hfn. unfold bindIncr.Bind. rewrite Hbound, Hfn. cbv beta iota zeta.
  set (st1 := bindIncr.mkState g1 (bindIncr.calls st)).
  destruct (unlinkOld_spec b old st1) as (stU & HU & HmU & HcU & HnU & HrU).
  rewrite HU. cbv beta iota zeta. eexists _, _. split; [reflexivity|].
  cbn [bindIncr.graph bindIncr.calls bindIncr.onMem bindIncr.bound bindIncr.set_bound
       bindIncr.n mem set_mem recomputeHeap stabilizationNum].
  change (mem (bindIncr.graph st1)) with (mem g1) in *.
  change (stabilizationNum (bindIncr.graph st1)) with (stabilizationNum g1) in *.
  change (recomputeHeap (bindIncr.graph st1)) with (recomputeHeap g1) in *.
  change (bindIncr.calls st1) with (bindIncr.calls st) in *.
  set (cs := children (mem g1 (bindIncr.n b))) in *.
  assert (∀ x, parents (alter (set_boundAt (stabilizationNum (bindIncr.graph stU)))
                          (bindIncr.n b) (mem (bindIncr.graph stU)) x)
               = parents (unlinkAll old cs (mem g1) x) ∧
               children (alter (set_boundAt (stabilizationNum (bindIncr.graph stU)))
                           (bindIncr.n b) (mem (bindIncr.graph stU)) x)
               = children (unlinkAll old cs (mem g1) x)) as Hfields.
  { intros x. rewrite HmU. destruct (decide (bindIncr.n b = x)) as [->|Hne].
    - by rewrite fn_lookup_alter.
    - by rewrite fn_lookup_alter_ne. }
  split; [done|]. split_and!.
  - intros c Hc. destruct (Hfields c) as (-> & _). destruct (Hfields old) as (_ & ->).
    rewrite unlinkAll_parents, unlinkAll_children. split; intros [_ Hno]; by apply Hno.
  - done.
  - done.
  - rewrite fn_lookup_alter. simpl. by rewrite HnU.
Qed.

(** X26: [Bind] changes no link when there is nothing to change: if the bind
    function fails, its error is returned; if it answers the node already
    bound (or nil while nothing is bound), no error is.  Either way the bind
    node keeps its binding, the graph is the one the bind function left, no
    call to discover or undiscover is made, and [boundAt] is not stamped. *)
Theorem Bind_without_change b st g1 r :
  bindIncr.fn b (bindIncr.graph st) = (g1, r) →
  (∀ e, r.2 = Some e →
     bindIncr.Bind b st = Ret (b, bindIncr.mkState g1 (bindIncr.calls st), Some e)) ∧
  (r = (bindIncr.bound b, None) →
     bindIncr.Bind b st = Ret (b, bindIncr.mkState g1 (bindIncr.calls st), None)).
Proof.
  intros Hfn. unfold bindIncr.Bind. rewrite Hfn. destruct r as [newIncr err]. split.
  - simpl. intros e ->. done.
  - intros [= -> ->]. destruct (bindIncr.bound b) as [o|]; [|done].
    by rewrite decide_False by (intros Hne; by apply Hne).
Qed.

End BindProperties.

Section CutoffProperties.
Context {A UserError : Type} `{MapIter}.
Context `{NodePredicates (@cutoffIncr.t A) UserError}.
Implicit Types (g : Graph (@cutoffIncr.t A) UserError).

(** X27: a cutoff node in [recompute], its [cutoff] reference being the
    node's [Cutoff] method (which has no error to give) and its [stabilize]
    reference the [Stabilize] method.  The cutoff function is asked before
    the node takes the input's value, so it compares the value of the last
    stabilization with the input's present one.  When it answers true the
    node keeps its value and its [changedAt]; when it answers false the node
    takes the input's value and is stamped as changed. *)
Theorem cutoff_node_keeps_or_takes_the_value g n :
  cutoff (mem g n) = Some (fun c => (c, (cutoffIncr.Cutoff c, None))) →
  stabilize (mem g n) = Some cutoffIncr.Stabilize →
  (∀ c, c ∈ children (mem g n) → 0 <= height (mem g c)) →
  (∀ o, o ∈ observers (mem g n) → 0 <= height (mem g o)) →
  ∃ g',
    recompute n g = Ret (g', None) ∧
    cutoffIncr.value (world g')
    = (if cutoffIncr.Cutoff (world g) then cutoffIncr.value (world g)
       else cutoffIncr.latest (world g)) ∧
    changedAt (mem g' n)
    = (if cutoffIncr.Cutoff (world g) then changedAt (mem g n) else stabilizationNum g).
Proof.
  intros Hcut Hstab Hch Hob.
  set (cut := cutoffIncr.Cutoff (world g)).
  assert (maybeCutoff (mem g n) (world g) = (world g, (cut, None))) as Hc.
  { unfold maybeCutoff. by rewrite Hcut. }
  assert (maybeStabilize (mem g n) (world g)
          = (cutoffIncr.mk (cutoffIncr.latest (world g)) (cutoffIncr.latest (world g))
               (cutoffIncr.fn (world g)), None)) as Hs.
  { unfold maybeStabilize. by rewrite Hstab. }
  destruct cut eqn:Hcutv.
  - exists (set_world (world g)
              (set_mem (alter (fun nn => set_recomputedAt (stabilizationNum g)
                                 (set_numRecomputes (uint64 (numRecomputes nn + 1)) nn))
                          n (mem g))
                 (set_numNodesRecomputed (uint64 (numNodesRecomputed g + 1)) g))).
    split; [by apply recompute_cutoff|]. simpl. by rewrite fn_lookup_alter.
  - destruct (recompute_returns g n _ _ _ Hc Hs Hch Hob) as [g' Hrun].
    exists g'. split; [done|].
    revert Hrun. unfold recompute. simpl.
    rewrite maybeCutoff_counters by done. rewrite Hc. simpl.
    rewrite maybeStabilize_counters by done.
    rewrite maybeStabilize_counters by done. rewrite Hs. simpl.
    match goal with |- context [enqueue (children (mem ?gb n)) ?gb] => set (g8 := gb) end.
    assert (cutoffIncr.value (world g8) = cutoffIncr.latest (world g) ∧
            changedAt (mem g8 n) = stabilizationNum g) as [Hw8 Hc8].
    { unfold g8. case_decide; simpl; by rewrite fn_lookup_alter. }
    clearbody g8.
    intros (g9 & Hrun9 & (g10 & Hrun10 & [= <-])%run_bind_ret)%run_bind_ret.
    pose proof (enqueue_frame _ _ _ Hrun9) as [Hu9 _].
    pose proof (enqueue_frame _ _ _ Hrun10) as [Hu10 _].
    pose proof (enqueue_fields _ _ _ Hrun9) as (Hw9 & _).
    pose proof (enqueue_fields _ _ _ Hrun10) as (Hw10 & _).
    split; [congruence|].
    destruct (unmarked_fields _ _ (Hu10 n)) as (_&_&_&_&->&_).
    destruct (unmarked_fields _ _ (Hu9 n)) as (_&_&_&_&->&_). done.
Qed.

End CutoffProperties.

(** ** Further examples *)

Section MoreWitnesses.
#[local] Existing Instance elementsOrder.
#[local] Existing Instance examplePredicates.

Lemma heapOne_nonempty : recomputeHeap.lookup heapOne ≠ ∅.
Proof. apply (non_empty_inhabited_L 1%positive). vm_compute. reflexivity. Qed.

Lemma heapOne_settled : minHeightSettled heapOne.
Proof.
  right. split; [exact heapOne_nonempty|]. split.
  - apply (non_empty_inhabited_L 1%positive). vm_compute. reflexivity.
  - intros x Hx. change (recomputeHeap.minHeight heapOne) with 3 in Hx.
    unfold bucket. case_decide; [|done].
    assert (Z.to_nat x = 0 ∨ Z.to_nat x = 1 ∨ Z.to_nat x = 2)%nat as [->|[->| ->]] by lia;
      reflexivity.
Qed.

Lemma graphBare_settled : minHeightSettled (recomputeHeap graphBare).
Proof. left. split; reflexivity. Qed.

Lemma graphBare_empty id : id ∉ recomputeHeap.lookup (recomputeHeap graphBare).
Proof. change (id ∉ (∅ : gset Identifier)). apply not_elem_of_empty. Qed.

Lemma examplePredicates_ignore_marks (m m' : Mem (list nat) nat) c :
  (∀ id, unmarked (m id) = unmarked (m' id)) →
  isNecessary m c = isNecessary m' c ∧ isStale m c = isStale m' c.
Proof.
  intros Hu. split; [reflexivity|]. simpl. unfold staleBySpec.
  destruct (unmarked_fields _ _ (Hu c)) as (-> & _ & _ & _ & _ & -> & -> & -> & _ & _ & _ & _ & -> & _).
  f_equal. induction (parents (m' c)) as [|p ps IH]; [done|]. simpl. rewrite IH.
  by destruct (unmarked_fields _ _ (Hu p)) as (_ & _ & _ & _ & -> & _).
Qed.

Lemma exampleRank_decreases x p :
  p ∈ parents (exampleMem x) → (exampleRank p < exampleRank x)%nat.
Proof.
  unfold exampleMem.
  destruct (decide (x = 1%positive)) as [->|H1].
  { rewrite fn_lookup_insert. intros Hp. by apply elem_of_nil in Hp. }
  rewrite fn_lookup_insert_ne by done.
  destruct (decide (x = 2%positive)) as [->|H2].
  { rewrite fn_lookup_insert. intros Hp.
    apply elem_of_cons in Hp as [->|Hp]; [vm_compute; lia|by apply elem_of_nil in Hp]. }
  rewrite fn_lookup_insert_ne by done.
  destruct (decide (x = 3%positive)) as [->|H3].
  { rewrite fn_lookup_insert. intros Hp.
    apply elem_of_cons in Hp as [->|Hp]; [vm_compute; lia|by apply elem_of_nil in Hp]. }
  rewrite fn_lookup_insert_ne by done.
  destruct (decide (x = 4%positive)) as [->|H4].
  { rewrite fn_lookup_insert. intros Hp.
    apply elem_of_cons in Hp as [->|Hp]; [vm_compute; lia|by apply elem_of_nil in Hp]. }
  rewrite fn_lookup_insert_ne by done.
  intros Hp. by apply elem_of_nil in Hp.
Qed.

(** X1, witness: queuing the variable [1] of the example graph. *)
Lemma add_queues_the_node_witness :
  ∃ m' rh',
    recomputeHeap.add [1%positive] exampleMem (recomputeHeap graphBare) = Ret (m', rh') ∧
    recomputeHeap.has 1%positive rh' = true ∧
    recomputeHeap.len rh' = 1%nat.
Proof.
  destruct (add_queues_the_node exampleMem (recomputeHeap graphBare) 1%positive
              (gok_heap _ _ graphBare_ok) graphBare_settled (graphBare_empty _)
              ltac:(vm_compute; discriminate))
    as (m' & rh' & Hrun & _ & _ & Hhas & _ & Hlen & _).
  exists m', rh'. split; [exact Hrun|]. split; [exact Hhas|exact Hlen].
Defined.

(** X3, witness: removing the single node of [heapOne]. *)
Lemma remove_takes_the_node_out_witness :
  ∃ m' rh',
    recomputeHeap.remove 1%positive memOne heapOne = Ret (true, m', rh') ∧
    recomputeHeap.has 1%positive rh' = false ∧
    heightInRecomputeHeap (m' 1%positive) = heightUnset.
Proof.
  destruct (proj2 (remove_takes_the_node_out memOne heapOne 1%positive
                     heapOne_ok heapOne_settled)
              ltac:(vm_compute; reflexivity))
    as (m' & rh' & Hrun & _ & _ & Hhas & _ & _ & Hm & _).
  exists m', rh'. split; [exact Hrun|]. split; [exact Hhas|exact Hm].
Defined.


(** X5, witness: [removeMin] on [heapOne]. *)
Lemma removeMin_takes_a_lowest_node_witness :
  ∃ k m' rh',
    recomputeHeap.removeMin memOne heapOne = Ret (Some k, m', rh') ∧
    k ∈ recomputeHeap.lookup heapOne ∧
    recomputeHeap.lookup rh' = recomputeHeap.lookup heapOne ∖ {[k]}.
Proof.
  destruct (removeMin_takes_a_lowest_node memOne heapOne
              heapOne_ok heapOne_settled heapOne_nonempty)
    as (k & m' & rh' & Hrun & Hk & _ & Hl & _).
  exists k, m', rh'. split; [exact Hrun|]. split; [exact Hk|exact Hl].
Defined.

(** X6, witness: [removeMinHeight] on [heapOne]. *)
Lemma removeMinHeight_takes_the_lowest_batch_witness :
  ∃ nodes m' rh',
    recomputeHeap.removeMinHeight memOne heapOne = Ret (nodes, m', rh') ∧
    NoDup nodes ∧ nodes ≠ [].
Proof.
  destruct (removeMinHeight_takes_the_lowest_batch memOne heapOne
              heapOne_ok heapOne_settled heapOne_nonempty)
    as (nodes & m' & rh' & Hrun & Hnd & Hne & _).
  exists nodes, m', rh'. split; [exact Hrun|]. split; [exact Hnd|exact Hne].
Defined.

(** X7, witness: [heapOne] passes the check. *)
Lemma sanityCheck_accepts_consistent_heaps_witness :
  recomputeHeap.sanityCheck memOne heapOne = Ret None.
Proof.
  apply (proj2 (sanityCheck_accepts_consistent_heaps memOne heapOne
                  heapOne_ok heapOne_settled)).
  intros id Hid. change (id ∈ ({[1%positive]} : gset Identifier)) in Hid.
  apply elem_of_singleton in Hid as ->. reflexivity.
Defined.

(** X8, witness: [fix] of the node of [heapOne]. *)
Lemma fix_moves_the_node_to_its_height_witness :
  ∃ m' rh',
    recomputeHeap.fix_ [1%positive] memOne heapOne = Ret (m', rh') ∧
    recomputeHeap.lookup rh' = recomputeHeap.lookup heapOne ∧
    heightInRecomputeHeap (m' 1%positive) = 3.
Proof.
  destruct (proj2 (fix_moves_the_node_to_its_height memOne heapOne 1%positive
                     heapOne_ok ltac:(vm_compute; discriminate))
              ltac:(vm_compute; reflexivity))
    as (m' & rh' & Hrun & Hl & _ & Hm & _).
  exists m', rh'. split; [exact Hrun|]. split; [exact Hl|exact Hm].
Defined.

(** X10, witness: the failing cutoff of node [2] in [graphCutoffFails]. *)
Lemma recompute_cutoff_error_counts_no_change_witness :
  ∃ g',
    recompute 2%positive graphCutoffFails = Ret (g', Some (ErrUser 9%nat)) ∧
    world g' = [22%nat; 20%nat] ∧
    numRecomputes (mem g' 2%positive) = 1 ∧
    numChanges (mem g' 2%positive) = 0.
Proof.
  destruct (recompute_cutoff_error_counts_no_change graphCutoffFails 2%positive
              [20%nat] false (ErrUser 9%nat) eq_refl)
    as (g' & Hrun & Hw & Hnr & _ & _ & Hnc & _).
  exists g'. split; [exact Hrun|]. split; [exact Hw|]. split; [exact Hnr|exact Hnc].
Defined.

(** X11, witness: recomputing the variable [1] of [graphBare] queues its
    children [2] and [4]. *)
Lemma recompute_propagates_the_change_witness :
  ∃ g',
    recompute 1%positive graphBare = Ret (g', None) ∧
    changedAt (mem g' 1%positive) = 1 ∧
    recomputeHeap.lookup (recomputeHeap graphBare) ⊆ recomputeHeap.lookup (recomputeHeap g').
Proof.
  destruct (recompute_propagates_the_change examplePredicates_ignore_marks
              graphBare 1%positive [] [1%nat] eq_refl eq_refl
              (gok_unset _ _ graphBare_ok)
              ltac:(intros c Hc; repeat (apply elem_of_cons in Hc as [->|Hc]);
                    [vm_compute; discriminate..|by apply elem_of_nil in Hc])
              ltac:(intros o Ho; change (o ∈ (∅ : gset Identifier)) in Ho;
                    by apply not_elem_of_empty in Ho))
    as (g' & Hrun & _ & Hc & _ & _ & Hsub & _).
  exists g'. split; [exact Hrun|]. split; [exact Hc|exact Hsub].
Defined.

(** X12, witness: [Stabilize] on [graphBare], where nothing is queued. *)
Lemma Stabilize_with_nothing_queued_witness :
  ∃ g',
    Stabilize 0 graphBare = Ret (g', None) ∧
    mem g' = mem graphBare ∧
    stabilizationNum g' = 2.
Proof.
  destruct (Stabilize_with_nothing_queued 0 graphBare eq_refl eq_refl eq_refl eq_refl)
    as (g' & Hrun & Hm & _ & _ & Hn & _).
  exists g'. split; [exact Hrun|]. split; [exact Hm|exact Hn].
Defined.

(** X13, witness: the pass on [graphQueued]. *)
Lemma Stabilize_leaves_the_graph_ready_witness :
  ∃ g' err,
    Stabilize 5 graphQueued = Ret (g', err) ∧
    status g' = StatusNotStabilizing ∧
    handleAfterStabilization g' = ∅ ∧
    setDuringStabilization g' = ∅.
Proof.
  destruct (Stabilize_leaves_the_graph_ready 5 graphQueued 2
              graphQueued_ok graphQueued_settled eq_refl graphQueued_height
              graphQueued_set ltac:(simpl; lia))
    as (g' & err & Hrun & Hst & _ & _ & Hh & Hs).
  exists g', err. split; [exact Hrun|]. split; [exact Hst|]. split; [exact Hh|exact Hs].
Defined.

(** X14, witness: the pass on [graphQueued] recomputes the queued nodes [1],
    [2] and [4]. *)
Lemma successful_pass_serves_the_queue_witness :
  ∃ g' err,
    Stabilize 5 graphQueued = Ret (g', err) ∧
    (err = None →
     ∀ id, id ∈ recomputeHeap.lookup (recomputeHeap graphQueued) →
       recomputedAt (mem g' id) = stabilizationNum graphQueued).
Proof.
  destruct (successful_pass_serves_the_queue 5 graphQueued 2
              graphQueued_ok graphQueued_settled eq_refl graphQueued_height
              graphQueued_set ltac:(simpl; lia))
    as (g' & err & Hrun & Hserved).
  exists g', err. split; [exact Hrun|].
  intros Herr id Hid. exact (proj1 (proj1 (Hserved Herr) id Hid)).
Defined.

(** X15, witness: [SetStale] of the variable [1] of [graphBare]. *)
Lemma SetStale_queues_the_node_witness :
  ∃ g',
    SetStale 1%positive graphBare = Ret g' ∧
    setAt (mem g' 1%positive) = 1 ∧
    recomputeHeap.lookup (recomputeHeap g')
    = {[1%positive]} ∪ recomputeHeap.lookup (recomputeHeap graphBare).
Proof.
  destruct (SetStale_queues_the_node graphBare 1%positive
              ltac:(intros _; vm_compute; discriminate)
              ltac:(intros Hne; exfalso; apply Hne; reflexivity))
    as (g' & Hrun & Hs & Hl & _).
  exists g'. split; [exact Hrun|]. split; [exact Hs|exact Hl].
Defined.

(** X16, witness: the variable [1] of [graphBare] after its recompute. *)
Lemma recomputed_node_is_not_stale_witness :
  ∃ g',
    recompute 1%positive graphBare = Ret (g', None) ∧
    ShouldRecompute (mem g') 1%positive = false.
Proof.
  exact (recomputed_node_is_not_stale graphBare 1%positive [] [1%nat] false
           eq_refl eq_refl
           ltac:(intros c Hc; repeat (apply elem_of_cons in Hc as [->|Hc]);
                 [vm_compute; discriminate..|by apply elem_of_nil in Hc])
           ltac:(intros o Ho; change (o ∈ (∅ : gset Identifier)) in Ho;
                 by apply not_elem_of_empty in Ho)
           ltac:(vm_compute; discriminate) eq_refl
           ltac:(vm_compute; discriminate) ltac:(vm_compute; discriminate)
           ltac:(vm_compute; discriminate)
           ltac:(intros p Hp; by apply elem_of_nil in Hp)).
Defined.

(** X18, witness: the pseudo-height of node [3], below [2], below [1]. *)
Lemma computePseudoHeight_exceeds_parents_witness :
  ∃ h,
    computePseudoHeight 5 exampleMem 3%positive = Ret h ∧
    height (exampleMem 3%positive) <= h ∧ 1 <= h.
Proof.
  destruct (computePseudoHeight_exceeds_parents exampleRank 5 exampleMem 3%positive
              exampleRank_decreases ltac:(vm_compute; lia))
    as (h & Hrun & Hh & H1 & _).
  exists h. split; [exact Hrun|]. split; [exact Hh|exact H1].
Defined.

(** X24, witness: the first binding of [bindFresh] to node [4]. *)
Lemma Bind_first_binding_witness :
  ∃ b' st',
    bindIncr.Bind bindFresh bindState = Ret (b', st', None) ∧
    bindIncr.bound b' = Some 4%positive ∧
    4%positive ∈ recomputeHeap.lookup (recomputeHeap (bindIncr.graph st')).
Proof.
  destruct (Bind_first_binding bindFresh bindState (bindIncr.graph bindState) 4%positive
              eq_refl eq_refl ltac:(vm_compute; discriminate))
    as (b' & st' & Hrun & Hb & _ & _ & _ & Hq & _).
  exists b', st'. split; [exact Hrun|]. split; [exact Hb|exact Hq].
Defined.

(** X25, witness: [bindToNil] lets go of node [1]. *)
Lemma Bind_to_nil_unbinds_witness :
  ∃ b' st',
    bindIncr.Bind bindToNil bindState = Ret (b', st', None) ∧
    bindIncr.bound b' = None ∧
    recomputeHeap (bindIncr.graph st') = recomputeHeap (bindIncr.graph bindState).
Proof.
  destruct (Bind_to_nil_unbinds bindToNil bindState (bindIncr.graph bindState) 1%positive
              eq_refl eq_refl)
    as (b' & st' & Hrun & Hb & _ & _ & Hh & _).
  exists b', st'. split; [exact Hrun|]. split; [exact Hb|exact Hh].
Defined.

(** X26, witness: [bindSame] answers the node already bound. *)
Lemma Bind_without_change_witness :
  bindIncr.Bind bindSame bindState
  = Ret (bindSame,
         bindIncr.mkState (bindIncr.graph bindState) (bindIncr.calls bindState), None).
Proof.
  exact (proj2 (Bind_without_change bindSame bindState (bindIncr.graph bindState)
                  (Some 1%positive, None) eq_refl) eq_refl).
Defined.

End MoreWitnesses.

(** X27, witness: the input moved from [5] to [7], which the cutoff function
    lets pass as no change. *)
Lemma cutoff_node_keeps_or_takes_the_value_witness :
  ∃ g',
    @recompute (@cutoffIncr.t nat) nat elementsOrder cutoffPredicates 1%positive graphCutoff
    = Ret (g', None) ∧
    cutoffIncr.value (world g') = 5%nat ∧
    changedAt (mem g' 1%positive) = 0.
Proof.
  exact (@cutoff_node_keeps_or_takes_the_value nat nat elementsOrder cutoffPredicates
           graphCutoff 1%positive eq_refl eq_refl
           ltac:(intros c Hc; by apply elem_of_nil in Hc)
           ltac:(intros o Ho; change (o ∈ (∅ : gset Identifier)) in Ho;
                 by apply not_elem_of_empty in Ho)).
Defined.
